(** * Slot caches with a graduated sweeper: a shallow embedding of package [cache]

    The package offers two fixed-capacity caches addressed by an integer
    slot number, [Bytes] (payload [[]byte]) and [Interface] (payload
    [interface{}]), one process-wide registry per variant and a background
    [cleaner] that purges the registered caches whose memory counter
    exceeds their budget.

    Conventions of the embedding.
    - Go's [int] and [int64] are 64-bit two's-complement integers: a value
      is a [Z] and every arithmetic result goes through [wrap64].
    - A slot holds a pointer to an entry or [nil]: [option] of the entry
      record.  An entry is created by [Store] or [Replace] and put in one
      slot only, so no two slots share an entry and entries are kept by
      value.
    - A run-time panic (slice index out of range, [make] with a length
      that is negative or beyond the run-time's bound on one allocation)
      is the [Panic] result.  Below that bound the memory is taken to be
      there: running out of it ends the process, which is no result at
      all, so the theorems about the constructors say what holds when they
      return and when they panic, not that they return.
    - The mutexes and atomics only matter under concurrency; the embedding
      is the sequential behaviour of each function.
    - [time.Now().Unix()] is an input: a method that reads the clock takes
      the reading as [tim]; the cleaner reads an oracle [clk], its [k]-th
      reading being [clk k]. *)

From Stdlib Require Import ZArith Lia Bool.
From stdpp Require Import base list.

Open Scope Z_scope.

(** ** Machine integers *)

Definition wrap64 (z : Z) : Z := (z + 2 ^ 63) mod 2 ^ 64 - 2 ^ 63.
Definition add64 (a b : Z) : Z := wrap64 (a + b).
Definition sub64 (a b : Z) : Z := wrap64 (a - b).
Definition mul64 (a b : Z) : Z := wrap64 (a * b).
Definition int64 (z : Z) : Prop := - 2 ^ 63 <= z < 2 ^ 63.

(** The counter after a run of atomic decrements, in the order given. *)
Definition decrement (m : Z) (sizes : list Z) : Z :=
  fold_left (fun m s => add64 m (sub64 0 s)) sizes m.

Definition total (sizes : list Z) : Z := foldr Z.add 0 sizes.

(** ** Results of operations that may panic *)

Inductive result (A : Type) : Type :=
| Ok (a : A)
| Panic.
Arguments Ok {A} a.
Arguments Panic {A}.

Definition bind {A B : Type} (r : result A) (k : A -> result B) : result B :=
  match r with
  | Ok a => k a
  | Panic => Panic
  end.

Notation "'let*' x ':=' r 'in' k" := (bind r (fun x => k))
  (at level 10, x name, r at level 100, k at level 200, only parsing).

(** [s[i]] and [s[i] = x] on a slice: both panic outside [0, len(s)). *)
Definition index {A : Type} (s : list A) (i : Z) : result A :=
  if i <? 0 then Panic
  else match s !! Z.to_nat i with
       | Some x => Ok x
       | None => Panic
       end.

Definition assign {A : Type} (s : list A) (i : Z) (x : A) : result (list A) :=
  if i <? 0 then Panic
  else if (Z.to_nat i <? length s)%nat then Ok (<[Z.to_nat i := x]> s)
  else Panic.

(** [make([]*T, n)]: the run-time panics with "len out of range" when [n]
    is negative or when the slice, eight bytes a pointer, is larger than
    [maxAlloc], its bound on one allocation on the 64-bit platforms. *)
Definition maxAlloc : Z := 2 ^ 48.

Definition makeslice_panics (n : Z) : bool :=
  (n <? 0) || (maxAlloc <? 8 * n).

(** [len(p)] as an [int]. *)
Definition len {A : Type} (p : list A) : Z := Z.of_nat (length p).

(** ** The byte cache *)

Module Bytes.

Record entryBytes : Type := {
  lastAccess : Z;
  data : list Byte.byte
}.

Record Bytes : Type := {
  vals : list (option entryBytes);
  mem : Z;
  max : Z;
  size : Z
}.

(** The value [NewBytes] builds before it registers it. *)
Definition alloc (size megabytes : Z) : result Bytes :=
  if makeslice_panics size then Panic
  else Ok {| vals := replicate (Z.to_nat size) None;
             mem := 0;
             max := mul64 megabytes 1048576;
             size := size |}.

Definition Get (c : Bytes) (id : Z) (tim : Z)
  : result (list Byte.byte * bool * Bytes) :=
  if id >=? size c then Ok ([], false, c)
  else
    let* item := index (vals c) id in
    match item with
    | None => Ok ([], false, c)
    | Some e =>
        let e' := {| lastAccess := tim; data := data e |} in
        Ok (data e, true,
            {| vals := <[Z.to_nat id := Some e']> (vals c);
               mem := mem c; max := max c; size := size c |})
    end.

Definition Store (c : Bytes) (id : Z) (p : list Byte.byte) (tim : Z)
  : result Bytes :=
  if id >=? size c then Ok c
  else
    let* item := index (vals c) id in
    match item with
    | None =>
        let e := {| lastAccess := tim; data := p |} in
        let* vs := assign (vals c) id (Some e) in
        Ok {| vals := vs; mem := add64 (mem c) (len p);
              max := max c; size := size c |}
    | Some _ => Ok c
    end.

Definition Replace (c : Bytes) (id : Z) (p : list Byte.byte) (tim : Z)
  : result Bytes :=
  if id >=? size c then Ok c
  else
    let* item := index (vals c) id in
    match item with
    | None =>
        let e := {| lastAccess := tim; data := p |} in
        let* vs := assign (vals c) id (Some e) in
        Ok {| vals := vs; mem := add64 (mem c) (len p);
              max := max c; size := size c |}
    | Some e =>
        let memdif := sub64 (len p) (len (data e)) in
        let e' := {| lastAccess := tim; data := p |} in
        Ok {| vals := <[Z.to_nat id := Some e']> (vals c);
              mem := add64 (mem c) memdif;
              max := max c; size := size c |}
    end.

(** [c.vals[id] = false]: the slot is a pointer, whose only value that is
    not an entry is [nil]; the assignment empties the slot.  Nothing else
    is touched. *)
Definition Remove (c : Bytes) (id : Z) : result Bytes :=
  if id >=? size c then Ok c
  else
    let* vs := assign (vals c) id None in
    Ok {| vals := vs; mem := mem c; max := max c; size := size c |}.

Definition Close (c : Bytes) : Bytes :=
  {| vals := []; mem := 0; max := 0; size := 0 |}.

(** One iteration of the [range] loop of [Purge], at slot [i]. *)
Definition purge_step (olderThan : Z) (c : Bytes) (i : nat) : Bytes :=
  match vals c !! i with
  | Some (Some item) =>
      if lastAccess item <? olderThan then
        {| vals := <[i := None]> (vals c);
           mem := add64 (mem c) (sub64 0 (len (data item)));
           max := max c; size := size c |}
      else c
  | _ => c
  end.

Definition Purge (c : Bytes) (olderThan : Z) : Bytes :=
  fold_left (purge_step olderThan) (seq 0 (length (vals c))) c.

(** The size of the entry in a slot, and the sum of the sizes of the
    entries in the slots. *)
Definition slot_size (o : option entryBytes) : Z :=
  match o with
  | Some e => len (data e)
  | None => 0
  end.

Definition live (vs : list (option entryBytes)) : Z :=
  foldr (fun o acc => slot_size o + acc) 0 vs.

(** What a cache built by [NewBytes] and used through its methods
    satisfies: as many slots as [size] says. *)
Definition wf (c : Bytes) : Prop := size c = len (vals c).

(** What [Purge] does, slot by slot: an entry is expired when its
    [lastAccess] is below the threshold; the expired entries leave, the
    sizes they release are listed in slot order. *)
Definition expired (olderThan : Z) (o : option entryBytes) : bool :=
  match o with
  | Some e => lastAccess e <? olderThan
  | None => false
  end.

Definition survivors (olderThan : Z) (vs : list (option entryBytes))
  : list (option entryBytes) :=
  map (fun o => if expired olderThan o then None else o) vs.

Fixpoint released (olderThan : Z) (vs : list (option entryBytes))
  : list Z :=
  match vs with
  | [] => []
  | Some e :: rest =>
      if lastAccess e <? olderThan
      then len (data e) :: released olderThan rest
      else released olderThan rest
  | None :: rest => released olderThan rest
  end.

(** The accounting invariant: the counter is the sum of the sizes of the
    entries in the slots, as an [int64]. *)
Definition counted (c : Bytes) : Prop := mem c = wrap64 (live (vals c)).

(** A sequential run of method calls on one cache. *)
Inductive call : Type :=
| CallStore (id : Z) (p : list Byte.byte) (tim : Z)
| CallReplace (id : Z) (p : list Byte.byte) (tim : Z)
| CallRemove (id : Z)
| CallPurge (olderThan : Z).

Definition exec (c : Bytes) (k : call) : result Bytes :=
  match k with
  | CallStore id p tim => Store c id p tim
  | CallReplace id p tim => Replace c id p tim
  | CallRemove id => Remove c id
  | CallPurge olderThan => Ok (Purge c olderThan)
  end.

Fixpoint run (c : Bytes) (ks : list call) : result Bytes :=
  match ks with
  | [] => Ok c
  | k :: ks' => let* c' := exec c k in run c' ks'
  end.

Definition is_remove (k : call) : bool :=
  match k with
  | CallRemove _ => true
  | _ => false
  end.

(** The call addresses a slot of a cache of [sz] slots. *)
Definition in_range (sz : Z) (k : call) : Prop :=
  match k with
  | CallStore id _ _ | CallReplace id _ _ | CallRemove id => 0 <= id < sz
  | CallPurge _ => True
  end.

End Bytes.

(** ** The cache of opaque values *)

(** A value of type [interface{}]: [nil], a byte slice (what [Replace] is
    given) or a value of some other dynamic type, taken from [V]. *)
Inductive any (V : Type) : Type :=
| Nil
| OfBytes (p : list Byte.byte)
| OfValue (v : V).
Arguments Nil {V}.
Arguments OfBytes {V} p.
Arguments OfValue {V} v.

Module Interface.
Section WithValues.

Context {V : Type}.

(** The entry's field [size] is [entry_size] here, the name [size] being
    taken by the cache's own field. *)
Record entryInterface : Type := {
  lastAccess : Z;
  data : any V;
  entry_size : Z
}.

Record Interface : Type := {
  vals : list (option entryInterface);
  mem : Z;
  max : Z;
  size : Z
}.

(** The value [New] builds before it registers it. *)
Definition alloc (size megabytes : Z) : result Interface :=
  if makeslice_panics size then Panic
  else Ok {| vals := replicate (Z.to_nat size) None;
             mem := 0;
             max := mul64 megabytes 1024;
             size := size |}.

Definition Get (c : Interface) (id : Z) (tim : Z)
  : result (any V * bool * Interface) :=
  if id >=? size c then Ok (Nil, false, c)
  else
    let* item := index (vals c) id in
    match item with
    | None => Ok (Nil, false, c)
    | Some e =>
        let e' := {| lastAccess := tim; data := data e;
                     entry_size := entry_size e |} in
        Ok (data e, true,
            {| vals := <[Z.to_nat id := Some e']> (vals c);
               mem := mem c; max := max c; size := size c |})
    end.

Definition Store (c : Interface) (id : Z) (p : any V) (sz : Z) (tim : Z)
  : result Interface :=
  if id >=? size c then Ok c
  else
    let* item := index (vals c) id in
    match item with
    | None =>
        let e := {| lastAccess := tim; data := p; entry_size := sz |} in
        let* vs := assign (vals c) id (Some e) in
        Ok {| vals := vs; mem := add64 (mem c) sz;
              max := max c; size := size c |}
    | Some _ => Ok c
    end.

(** The payload of [Replace] is a [[]byte] in the source.  On an occupied
    slot the entry keeps the [size] it was created with: the source
    assigns [data] and [lastAccess] only. *)
Definition Replace (c : Interface) (id : Z) (p : list Byte.byte) (sz : Z)
  (tim : Z) : result Interface :=
  if id >=? size c then Ok c
  else
    let* item := index (vals c) id in
    match item with
    | None =>
        let e := {| lastAccess := tim; data := OfBytes p;
                    entry_size := sz |} in
        let* vs := assign (vals c) id (Some e) in
        Ok {| vals := vs; mem := add64 (mem c) sz;
              max := max c; size := size c |}
    | Some e =>
        let sz' := sub64 sz (entry_size e) in
        let e' := {| lastAccess := tim; data := OfBytes p;
                     entry_size := entry_size e |} in
        Ok {| vals := <[Z.to_nat id := Some e']> (vals c);
              mem := add64 (mem c) sz';
              max := max c; size := size c |}
    end.

(** [c.vals[id] = false], read as in [Bytes.Remove]. *)
Definition Remove (c : Interface) (id : Z) : result Interface :=
  if id >=? size c then Ok c
  else
    let* vs := assign (vals c) id None in
    Ok {| vals := vs; mem := mem c; max := max c; size := size c |}.

Definition Close (c : Interface) : Interface :=
  {| vals := []; mem := 0; max := 0; size := 0 |}.

Definition purge_step (olderThan : Z) (c : Interface) (i : nat) : Interface :=
  match vals c !! i with
  | Some (Some item) =>
      if lastAccess item <? olderThan then
        {| vals := <[i := None]> (vals c);
           mem := add64 (mem c) (sub64 0 (entry_size item));
           max := max c; size := size c |}
      else c
  | _ => c
  end.

Definition Purge (c : Interface) (olderThan : Z) : Interface :=
  fold_left (purge_step olderThan) (seq 0 (length (vals c))) c.

(** The size recorded in the entry in a slot, and the sum of the sizes
    recorded in the entries in the slots. *)
Definition slot_size (o : option entryInterface) : Z :=
  match o with
  | Some e => entry_size e
  | None => 0
  end.

Definition live (vs : list (option entryInterface)) : Z :=
  foldr (fun o acc => slot_size o + acc) 0 vs.

Definition wf (c : Interface) : Prop := size c = len (vals c).

Definition expired (olderThan : Z) (o : option entryInterface) : bool :=
  match o with
  | Some e => lastAccess e <? olderThan
  | None => false
  end.

Definition survivors (olderThan : Z) (vs : list (option entryInterface))
  : list (option entryInterface) :=
  map (fun o => if expired olderThan o then None else o) vs.

Fixpoint released (olderThan : Z) (vs : list (option entryInterface))
  : list Z :=
  match vs with
  | [] => []
  | Some e :: rest =>
      if lastAccess e <? olderThan
      then entry_size e :: released olderThan rest
      else released olderThan rest
  | None :: rest => released olderThan rest
  end.

Definition counted (c : Interface) : Prop := mem c = wrap64 (live (vals c)).

Inductive call : Type :=
| CallStore (id : Z) (p : any V) (sz : Z) (tim : Z)
| CallReplace (id : Z) (p : list Byte.byte) (sz : Z) (tim : Z)
| CallRemove (id : Z)
| CallPurge (olderThan : Z).

Definition exec (c : Interface) (k : call) : result Interface :=
  match k with
  | CallStore id p sz tim => Store c id p sz tim
  | CallReplace id p sz tim => Replace c id p sz tim
  | CallRemove id => Remove c id
  | CallPurge olderThan => Ok (Purge c olderThan)
  end.

Fixpoint run (c : Interface) (ks : list call) : result Interface :=
  match ks with
  | [] => Ok c
  | k :: ks' => let* c' := exec c k in run c' ks'
  end.

End WithValues.
Arguments entryInterface V : clear implicits.
Arguments Interface V : clear implicits.
Arguments call V : clear implicits.
End Interface.

(** ** The registries, the constructors and the cleaner *)

(** A [*Bytes] or [*Interface] is an address in the store of its variant;
    the registries [caches1] and [caches2] hold addresses, so a cache reached
    through a registry is the one its owner holds. *)
Record World (V : Type) : Type := {
  store1 : list Bytes.Bytes;
  caches1 : list nat;
  store2 : list (Interface.Interface V);
  caches2 : list nat
}.
Arguments store1 {V} w.
Arguments caches1 {V} w.
Arguments store2 {V} w.
Arguments caches2 {V} w.

Section Sweeper.

Context {V : Type}.

Definition NewBytes (w : World V) (size megabytes : Z)
  : result (nat * World V) :=
  let* c := Bytes.alloc size megabytes in
  let a := length (store1 w) in
  Ok (a, {| store1 := store1 w ++ [c];
            caches1 := caches1 w ++ [a];
            store2 := store2 w;
            caches2 := caches2 w |}).

Definition New (w : World V) (size megabytes : Z)
  : result (nat * World V) :=
  let* c := Interface.alloc size megabytes in
  let a := length (store2 w) in
  Ok (a, {| store1 := store1 w;
            caches1 := caches1 w;
            store2 := store2 w ++ [c];
            caches2 := caches2 w ++ [a] |}).

(** The body of the first [range] loop of [cleaner], for one cache; [k]
    counts the clock readings made so far. *)
Definition cleaner_body1 (clk : nat -> Z) (k : nat) (c : Bytes.Bytes)
  : nat * Bytes.Bytes :=
  if Bytes.mem c >? Bytes.max c then
    let c := Bytes.Purge c (sub64 (clk k) 432000) in
    if Bytes.mem c >? Bytes.max c then
      let c := Bytes.Purge c (sub64 (clk (S k)) 86400) in
      if Bytes.mem c >? Bytes.max c then
        let c := Bytes.Purge c (sub64 (clk (S (S k))) 3600) in
        if Bytes.mem c >? Bytes.max c then
          let c := Bytes.Purge c (sub64 (clk (S (S (S k)))) 600) in
          if Bytes.mem c >? Bytes.max c then
            let c := Bytes.Purge c (add64 (clk (S (S (S (S k))))) 3600) in
            (S (S (S (S (S k)))), c)
          else (S (S (S (S k))), c)
        else (S (S (S k)), c)
      else (S (S k), c)
    else (S k, c)
  else (k, c).

(** The body of the second loop. *)
Definition cleaner_body2 (clk : nat -> Z) (k : nat)
  (c : Interface.Interface V) : nat * Interface.Interface V :=
  if Interface.mem c >? Interface.max c then
    let c := Interface.Purge c (sub64 (clk k) 432000) in
    if Interface.mem c >? Interface.max c then
      let c := Interface.Purge c (sub64 (clk (S k)) 86400) in
      if Interface.mem c >? Interface.max c then
        let c := Interface.Purge c (sub64 (clk (S (S k))) 3600) in
        if Interface.mem c >? Interface.max c then
          let c := Interface.Purge c (sub64 (clk (S (S (S k)))) 600) in
          if Interface.mem c >? Interface.max c then
            let c :=
              Interface.Purge c (add64 (clk (S (S (S (S k))))) 3600) in
            (S (S (S (S (S k)))), c)
          else (S (S (S (S k))), c)
        else (S (S (S k)), c)
      else (S (S k), c)
    else (S k, c)
  else (k, c).

Definition visit1 (clk : nat -> Z) (st : nat * World V) (a : nat)
  : nat * World V :=
  let (k, w) := st in
  match store1 w !! a with
  | Some c =>
      let (k', c') := cleaner_body1 clk k c in
      (k', {| store1 := <[a := c']> (store1 w);
              caches1 := caches1 w;
              store2 := store2 w;
              caches2 := caches2 w |})
  | None => st
  end.

Definition visit2 (clk : nat -> Z) (st : nat * World V) (a : nat)
  : nat * World V :=
  let (k, w) := st in
  match store2 w !! a with
  | Some c =>
      let (k', c') := cleaner_body2 clk k c in
      (k', {| store1 := store1 w;
              caches1 := caches1 w;
              store2 := <[a := c']> (store2 w);
              caches2 := caches2 w |})
  | None => st
  end.

(** One round of the [for] loop of [cleaner], after its [Sleep]: the
    snapshot of [caches1] is swept, then the snapshot of [caches2]. *)
Definition cleaner_tick (clk : nat -> Z) (st : nat * World V)
  : nat * World V :=
  let newCachesSlice1 := caches1 (snd st) in
  let st := fold_left (visit1 clk) newCachesSlice1 st in
  let newCachesSlice2 := caches2 (snd st) in
  fold_left (visit2 clk) newCachesSlice2 st.

(** The first [n] rounds of the cleaner, which never returns. *)
Fixpoint cleaner (clk : nat -> Z) (n : nat) (st : nat * World V)
  : nat * World V :=
  match n with
  | O => st
  | S n' => cleaner clk n' (cleaner_tick clk st)
  end.

End Sweeper.

(** ** Graduated purge, as the specification words it

    Over budget, a cache goes through the stages of a list of offsets from
    the clock, one purge per stage, and stops at the first stage that finds
    it within budget. *)
Section Graduated.

Context {C : Type} (over_budget : C -> bool) (purge : C -> Z -> C).

Fixpoint graduated (clk : nat -> Z) (k : nat) (offsets : list Z) (c : C)
  : nat * C :=
  match offsets with
  | [] => (k, c)
  | d :: rest =>
      if over_budget c
      then graduated clk (S k) rest (purge c (add64 (clk k) d))
      else (k, c)
  end.

End Graduated.

(** Five days, one day, one hour and ten minutes back, one hour ahead. *)
Definition stages : list Z := [-432000; -86400; -3600; -600; 3600].

(** ** The earlier cleaner of cache.go

    The one-variant version of the package: a cache without the field
    [size], and a cleaner whose first stage is one day. *)
Module Legacy.

Record entry : Type := {
  lastAccess : Z;
  data : list Byte.byte
}.

Record cache : Type := {
  vals : list (option entry);
  mem : Z;
  max : Z
}.

Definition purge_step (olderThan : Z) (c : cache) (i : nat) : cache :=
  match vals c !! i with
  | Some (Some item) =>
      if lastAccess item <? olderThan then
        {| vals := <[i := None]> (vals c);
           mem := add64 (mem c) (sub64 0 (len (data item)));
           max := max c |}
      else c
  | _ => c
  end.

Definition Purge (c : cache) (olderThan : Z) : cache :=
  fold_left (purge_step olderThan) (seq 0 (length (vals c))) c.

Definition cleaner_body (clk : nat -> Z) (k : nat) (c : cache)
  : nat * cache :=
  if mem c >? max c then
    let c := Purge c (sub64 (clk k) 86400) in
    if mem c >? max c then
      let c := Purge c (sub64 (clk (S k)) 3600) in
      if mem c >? max c then
        let c := Purge c (sub64 (clk (S (S k))) 600) in
        if mem c >? max c then
          let c := Purge c (add64 (clk (S (S (S k)))) 3600) in
          (S (S (S (S k))), c)
        else (S (S (S k)), c)
      else (S (S k), c)
    else (S k, c)
  else (k, c).

Definition expired (olderThan : Z) (o : option entry) : bool :=
  match o with
  | Some e => lastAccess e <? olderThan
  | None => false
  end.

Definition survivors (olderThan : Z) (vs : list (option entry))
  : list (option entry) :=
  map (fun o => if expired olderThan o then None else o) vs.

Fixpoint released (olderThan : Z) (vs : list (option entry)) : list Z :=
  match vs with
  | [] => []
  | Some e :: rest =>
      if lastAccess e <? olderThan
      then len (data e) :: released olderThan rest
      else released olderThan rest
  | None :: rest => released olderThan rest
  end.

(** The rest of cache.go: its constructor and its methods, which index the
    slice with no guard of their own.  ([Close] is left out: its second
    statement, [mem, max = 0], is not an assignment Go accepts.) *)

(** The value [New] builds before it registers it. *)
Definition alloc (size megabytes : Z) : result cache :=
  if makeslice_panics size then Panic
  else Ok {| vals := replicate (Z.to_nat size) None;
             mem := 0;
             max := mul64 megabytes 1024 |}.

Definition Get (c : cache) (id : Z) (tim : Z)
  : result (list Byte.byte * bool * cache) :=
  let* item := index (vals c) id in
  match item with
  | None => Ok ([], false, c)
  | Some e =>
      let e' := {| lastAccess := tim; data := data e |} in
      Ok (data e, true,
          {| vals := <[Z.to_nat id := Some e']> (vals c);
             mem := mem c; max := max c |})
  end.

Definition Store (c : cache) (id : Z) (p : list Byte.byte) (tim : Z)
  : result cache :=
  let* item := index (vals c) id in
  match item with
  | None =>
      let e := {| lastAccess := tim; data := p |} in
      let* vs := assign (vals c) id (Some e) in
      Ok {| vals := vs; mem := add64 (mem c) (len p); max := max c |}
  | Some _ => Ok c
  end.

Definition Replace (c : cache) (id : Z) (p : list Byte.byte) (tim : Z)
  : result cache :=
  let* item := index (vals c) id in
  match item with
  | None =>
      let e := {| lastAccess := tim; data := p |} in
      let* vs := assign (vals c) id (Some e) in
      Ok {| vals := vs; mem := add64 (mem c) (len p); max := max c |}
  | Some e =>
      let memdif := sub64 (len p) (len (data e)) in
      let e' := {| lastAccess := tim; data := p |} in
      Ok {| vals := <[Z.to_nat id := Some e']> (vals c);
            mem := add64 (mem c) memdif;
            max := max c |}
  end.

Definition slot_size (o : option entry) : Z :=
  match o with
  | Some e => len (data e)
  | None => 0
  end.

Definition live (vs : list (option entry)) : Z :=
  foldr (fun o acc => slot_size o + acc) 0 vs.

Definition counted (c : cache) : Prop := mem c = wrap64 (live (vals c)).

(** A sequential run of method calls on one cache; what [Get] returns is
    dropped. *)
Inductive call : Type :=
| CallGet (id : Z) (tim : Z)
| CallStore (id : Z) (p : list Byte.byte) (tim : Z)
| CallReplace (id : Z) (p : list Byte.byte) (tim : Z)
| CallPurge (olderThan : Z).

Definition exec (c : cache) (k : call) : result cache :=
  match k with
  | CallGet id tim => let* r := Get c id tim in Ok (snd r)
  | CallStore id p tim => Store c id p tim
  | CallReplace id p tim => Replace c id p tim
  | CallPurge olderThan => Ok (Purge c olderThan)
  end.

Fixpoint run (c : cache) (ks : list call) : result cache :=
  match ks with
  | [] => Ok c
  | k :: ks' => let* c' := exec c k in run c' ks'
  end.

End Legacy.

(** ** Runs of the whole package

    A program builds caches, closes some through the pointer it holds and
    lets the cleaner go round; the clock count and the world are threaded
    through. *)
Section Actions.

Context {V : Type}.

Inductive action : Type :=
| ActNewBytes (size megabytes : Z)
| ActNew (size megabytes : Z)
| ActCloseBytes (a : nat)
| ActClose (a : nat)
| ActTick (clk : nat -> Z).

(** [c.Close()] on the byte cache at address [a], and on the cache of
    opaque values at address [a]. *)
Definition close1 (w : World V) (a : nat) : World V :=
  {| store1 := alter Bytes.Close a (store1 w);
     caches1 := caches1 w;
     store2 := store2 w;
     caches2 := caches2 w |}.

Definition close2 (w : World V) (a : nat) : World V :=
  {| store1 := store1 w;
     caches1 := caches1 w;
     store2 := alter Interface.Close a (store2 w);
     caches2 := caches2 w |}.

Definition perform (st : nat * World V) (act : action)
  : result (nat * World V) :=
  match act with
  | ActNewBytes size megabytes =>
      let* r := NewBytes (snd st) size megabytes in Ok (fst st, snd r)
  | ActNew size megabytes =>
      let* r := New (snd st) size megabytes in Ok (fst st, snd r)
  | ActCloseBytes a => Ok (fst st, close1 (snd st) a)
  | ActClose a => Ok (fst st, close2 (snd st) a)
  | ActTick clk => Ok (cleaner_tick clk st)
  end.

Fixpoint perform_all (st : nat * World V) (acts : list action)
  : result (nat * World V) :=
  match acts with
  | [] => Ok st
  | act :: acts' => let* st' := perform st act in perform_all st' acts'
  end.

(** The world before any cache is built, whatever the opaque values. *)
Definition empty_world : World V :=
  {| store1 := []; caches1 := []; store2 := []; caches2 := [] |}.

End Actions.

(** ** Sample inputs *)

(** The three bytes of "abc". *)
Definition abc : list Byte.byte := [Byte.x61; Byte.x62; Byte.x63].

(** A byte cache of one empty slot, as [NewBytes(1, 1)] builds it. *)
Definition one_slot : Bytes.Bytes :=
  {| Bytes.vals := [None]; Bytes.mem := 0; Bytes.max := 1048576;
     Bytes.size := 1 |}.

(** A cache of opaque values of one empty slot, as [New(1, 1)] builds it. *)
Definition one_slot_any : Interface.Interface unit :=
  {| Interface.vals := [None]; Interface.mem := 0; Interface.max := 1024;
     Interface.size := 1 |}.

(** The same caches once the three bytes of "abc" are stored in slot 0, at
    100 and with size 3. *)
Definition one_entry : Bytes.Bytes :=
  {| Bytes.vals := [Some {| Bytes.lastAccess := 100; Bytes.data := abc |}];
     Bytes.mem := 3; Bytes.max := 1048576; Bytes.size := 1 |}.

Definition one_entry_any : Interface.Interface unit :=
  {| Interface.vals := [Some {| Interface.lastAccess := 100;
                                Interface.data := OfBytes abc;
                                Interface.entry_size := 3 |}];
     Interface.mem := 3; Interface.max := 1024; Interface.size := 1 |}.

(** A world with one registered cache of each variant. *)
Definition two_caches : World unit :=
  {| store1 := [one_entry]; caches1 := [0%nat];
     store2 := [one_entry_any]; caches2 := [0%nat] |}.

(** Caches over budget: the byte cache and the cache of cache.go as built
    with a budget of 0 megabytes and holding "abc", the cache of opaque
    values that [two_entries] builds. *)
Definition tight_entry : Bytes.Bytes :=
  {| Bytes.vals := [Some {| Bytes.lastAccess := 100; Bytes.data := abc |}];
     Bytes.mem := 3; Bytes.max := 0; Bytes.size := 1 |}.

Definition tight_legacy : Legacy.cache :=
  {| Legacy.vals := [Some {| Legacy.lastAccess := 100;
                             Legacy.data := abc |}];
     Legacy.mem := 3; Legacy.max := 0 |}.

Definition two_entries_built : Interface.Interface unit :=
  {| Interface.vals :=
       [Some {| Interface.lastAccess := 568000;
                Interface.data := OfValue tt;
                Interface.entry_size := 1024 |};
        Some {| Interface.lastAccess := 500000;
                Interface.data := OfValue tt;
                Interface.entry_size := 1024 |}];
     Interface.mem := 2048; Interface.max := 1024; Interface.size := 2 |}.

(** A byte cache emptied by [Remove], its counter still at 3, with a
    budget of 0. *)
Definition drifted : Bytes.Bytes :=
  {| Bytes.vals := [None]; Bytes.mem := 3; Bytes.max := 0;
     Bytes.size := 1 |}.

(** A byte cache over its budget of 0 whose entry was used ten seconds
    before the frozen clock, what the sweep leaves of it, and a world where
    caches over budget are registered. *)
Definition fresh_tight : Bytes.Bytes :=
  {| Bytes.vals := [Some {| Bytes.lastAccess := 999990;
                            Bytes.data := abc |}];
     Bytes.mem := 3; Bytes.max := 0; Bytes.size := 1 |}.

Definition swept_tight : Bytes.Bytes :=
  {| Bytes.vals := [None]; Bytes.mem := 0; Bytes.max := 0;
     Bytes.size := 1 |}.

Definition tight_world : World unit :=
  {| store1 := [tight_entry]; caches1 := [0%nat];
     store2 := [two_entries_built]; caches2 := [0%nat] |}.


(** A clock that reads 1000000 at every call. *)
Definition frozen_clock : nat -> Z := fun _ => 1000000.

(** A cache of opaque values with a budget of 1024, as [New(2, 1)] builds
    it, then two entries of size 1024 each: the one in slot 0 stored at
    568000, five days to the second before the frozen clock, the one in
    slot 1 stored at 500000. *)
Definition two_entries : result (Interface.Interface unit) :=
  let* c := Interface.alloc 2 1 in
  let* c := Interface.Store c 0 (OfValue tt) 1024 568000 in
  Interface.Store c 1 (OfValue tt) 1024 500000.

(** * Properties *)

(** ** Arithmetic of the counter *)

Lemma wrap64_range z : int64 (wrap64 z).
Proof.
  unfold int64, wrap64.
  pose proof (Z.mod_pos_bound (z + 2 ^ 63) (2 ^ 64) eq_refl). lia.
Qed.

Lemma wrap64_small z : int64 z -> wrap64 z = z.
Proof.
  unfold int64, wrap64. intros Hz.
  rewrite Z.mod_small by lia. lia.
Qed.

Lemma wrap64_add_r a b : wrap64 (a + wrap64 b) = wrap64 (a + b).
Proof.
  unfold wrap64. f_equal.
  replace (a + ((b + 2 ^ 63) mod 2 ^ 64 - 2 ^ 63) + 2 ^ 63)
    with (a + (b + 2 ^ 63) mod 2 ^ 64) by lia.
  rewrite Zplus_mod_idemp_r. f_equal. lia.
Qed.

Lemma wrap64_add_l a b : wrap64 (wrap64 a + b) = wrap64 (a + b).
Proof. rewrite (Z.add_comm (wrap64 a)), wrap64_add_r. f_equal. lia. Qed.

Lemma wrap64_idem z : wrap64 (wrap64 z) = wrap64 z.
Proof. apply wrap64_small, wrap64_range. Qed.

Lemma add64_sub64_0 m s : add64 m (sub64 0 s) = wrap64 (m - s).
Proof. unfold add64, sub64. rewrite wrap64_add_r. f_equal. Qed.

Lemma decrement_total sizes : forall m,
  decrement (wrap64 m) sizes = wrap64 (m - total sizes).
Proof.
  unfold decrement.
  induction sizes as [|s sizes IH]; intros m; simpl.
  - f_equal. lia.
  - rewrite add64_sub64_0.
    replace (wrap64 m - s) with (wrap64 m + - s) by lia.
    rewrite wrap64_add_l, IH. f_equal. lia.
Qed.

Lemma decrement_int64 m sizes :
  int64 m -> decrement m sizes = wrap64 (m - total sizes).
Proof.
  intros Hm. rewrite <- (wrap64_small m Hm) at 1. apply decrement_total.
Qed.

(** ** Slices *)

Lemma index_Ok {A : Type} (s : list A) (i : Z) (x : A) :
  0 <= i -> s !! Z.to_nat i = Some x -> index s i = Ok x.
Proof.
  intros Hi Hx. unfold index.
  destruct (Z.ltb_spec i 0); [lia|]. rewrite Hx. reflexivity.
Qed.

Lemma index_negative {A : Type} (s : list A) (i : Z) :
  i < 0 -> index s i = Panic.
Proof. intros Hi. unfold index. destruct (Z.ltb_spec i 0); [reflexivity|lia]. Qed.

Lemma assign_Ok {A : Type} (s : list A) (i : Z) (x : A) :
  0 <= i < len s -> assign s i x = Ok (<[Z.to_nat i := x]> s).
Proof.
  unfold len. intros Hi. unfold assign.
  destruct (Z.ltb_spec i 0); [lia|].
  destruct (Nat.ltb_spec (Z.to_nat i) (length s)); [reflexivity|lia].
Qed.

Lemma assign_negative {A : Type} (s : list A) (i : Z) (x : A) :
  i < 0 -> assign s i x = Panic.
Proof. intros Hi. unfold assign. destruct (Z.ltb_spec i 0); [reflexivity|lia]. Qed.

Lemma lookup_in_range {A : Type} (s : list A) (i : Z) :
  0 <= i < len s -> exists x, s !! Z.to_nat i = Some x.
Proof.
  unfold len. intros Hi.
  destruct (lookup_lt_is_Some_2 s (Z.to_nat i)) as [x Hx]; [lia|eauto].
Qed.

(** The bounds guard [id >= c.size] of every method. *)
Ltac bounds_guard id sz :=
  destruct (Z.geb_spec id sz); [lia|].

(** ** The byte cache *)

Module BytesFacts.
Import Bytes.

Lemma bytes_purge_fold (t : Z) (mx sz : Z) (suffix : list (option entryBytes)) :
  forall (prefix : list (option entryBytes)) (m : Z),
    fold_left (purge_step t) (seq (length prefix) (length suffix))
      {| vals := prefix ++ suffix; mem := m; max := mx; size := sz |}
    = {| vals := prefix ++ survivors t suffix;
         mem := decrement m (released t suffix);
         max := mx; size := sz |}.
Proof.
  induction suffix as [|o suffix IH]; intros prefix m.
  - reflexivity.
  - cbn [length seq fold_left].
    unfold purge_step at 2. cbn [vals mem max size].
    rewrite list_lookup_middle by reflexivity.
    specialize (IH (prefix ++ [None])) as IHnone.
    specialize (IH (prefix ++ [o])).
    rewrite length_app, Nat.add_1_r in IH, IHnone.
    rewrite <- !app_assoc in IH, IHnone. cbn [app] in IH, IHnone.
    destruct o as [e|]; cbn [survivors map expired released].
    + destruct (lastAccess e <? t) eqn:Hold.
      * rewrite insert_app_r_alt by lia.
        rewrite Nat.sub_diag. cbn [insert list_insert].
        rewrite IHnone. reflexivity.
      * rewrite IH. reflexivity.
    + rewrite IH. reflexivity.
Qed.

Lemma bytes_Purge_eq (c : Bytes) (t : Z) :
  Purge c t = {| vals := survivors t (vals c);
                 mem := decrement (mem c) (released t (vals c));
                 max := max c; size := size c |}.
Proof.
  destruct c as [vs m mx sz]. unfold Purge. cbn [vals mem max size].
  exact (bytes_purge_fold t mx sz vs [] m).
Qed.

Lemma bytes_survivors_idem (t : Z) (vs : list (option entryBytes)) :
  survivors t (survivors t vs) = survivors t vs.
Proof.
  unfold survivors. rewrite map_map. apply map_ext.
  intros [e|]; cbn; [|reflexivity].
  destruct (lastAccess e <? t) eqn:Hold; cbn; rewrite ?Hold; reflexivity.
Qed.

Lemma bytes_released_survivors (t : Z) (vs : list (option entryBytes)) :
  released t (survivors t vs) = [].
Proof.
  induction vs as [|[e|] vs IH]; cbn; [reflexivity| |exact IH].
  destruct (lastAccess e <? t) eqn:Hold; cbn; rewrite ?Hold; exact IH.
Qed.

Lemma bytes_Purge_idem (c : Bytes) (t : Z) : Purge (Purge c t) t = Purge c t.
Proof.
  rewrite (bytes_Purge_eq (Purge c t)), (bytes_Purge_eq c). cbn [vals mem max size].
  rewrite bytes_survivors_idem, bytes_released_survivors. reflexivity.
Qed.

Lemma bytes_Purge_slot (c : Bytes) (t : Z) (i : nat) :
  vals (Purge c t) !! i
  = match vals c !! i with
    | Some (Some e) => if lastAccess e <? t then Some None else Some (Some e)
    | o => o
    end.
Proof.
  rewrite bytes_Purge_eq. cbn [vals]. unfold survivors.
  rewrite list_lookup_fmap.
  destruct (vals c !! i) as [[e|]|]; cbn; [|reflexivity..].
  destruct (lastAccess e <? t); reflexivity.
Qed.

(** *** The methods on a slot in range *)

Lemma bytes_slot_in_range (c : Bytes) (id : Z) :
  wf c -> 0 <= id < size c -> exists o, vals c !! Z.to_nat id = Some o.
Proof. unfold wf. intros Hwf Hid. apply lookup_in_range. lia. Qed.

Lemma bytes_Get_empty (c : Bytes) (id tim : Z) :
  0 <= id < size c -> vals c !! Z.to_nat id = Some None ->
  Get c id tim = Ok ([], false, c).
Proof.
  intros Hid Hslot. unfold Get. bounds_guard id (size c).
  rewrite (index_Ok _ _ _ (proj1 Hid) Hslot). reflexivity.
Qed.

Lemma bytes_Get_occupied (c : Bytes) (id tim : Z) (e : entryBytes) :
  0 <= id < size c -> vals c !! Z.to_nat id = Some (Some e) ->
  Get c id tim
  = Ok (data e, true,
        {| vals := <[Z.to_nat id := Some {| lastAccess := tim;
                                            data := data e |}]> (vals c);
           mem := mem c; max := max c; size := size c |}).
Proof.
  intros Hid Hslot. unfold Get. bounds_guard id (size c).
  rewrite (index_Ok _ _ _ (proj1 Hid) Hslot). reflexivity.
Qed.

Lemma bytes_Store_empty (c : Bytes) (id : Z) (p : list Byte.byte) (tim : Z) :
  wf c -> 0 <= id < size c -> vals c !! Z.to_nat id = Some None ->
  Store c id p tim
  = Ok {| vals := <[Z.to_nat id := Some {| lastAccess := tim;
                                           data := p |}]> (vals c);
          mem := add64 (mem c) (len p); max := max c; size := size c |}.
Proof.
  unfold wf. intros Hwf Hid Hslot. unfold Store. bounds_guard id (size c).
  rewrite (index_Ok _ _ _ (proj1 Hid) Hslot). cbn [bind].
  rewrite assign_Ok by lia. reflexivity.
Qed.

Lemma bytes_Store_occupied (c : Bytes) (id : Z) (p : list Byte.byte) (tim : Z)
  (e : entryBytes) :
  0 <= id < size c -> vals c !! Z.to_nat id = Some (Some e) ->
  Store c id p tim = Ok c.
Proof.
  intros Hid Hslot. unfold Store. bounds_guard id (size c).
  rewrite (index_Ok _ _ _ (proj1 Hid) Hslot). reflexivity.
Qed.

Lemma bytes_Replace_empty (c : Bytes) (id : Z) (p : list Byte.byte) (tim : Z) :
  wf c -> 0 <= id < size c -> vals c !! Z.to_nat id = Some None ->
  Replace c id p tim
  = Ok {| vals := <[Z.to_nat id := Some {| lastAccess := tim;
                                           data := p |}]> (vals c);
          mem := add64 (mem c) (len p); max := max c; size := size c |}.
Proof.
  unfold wf. intros Hwf Hid Hslot. unfold Replace. bounds_guard id (size c).
  rewrite (index_Ok _ _ _ (proj1 Hid) Hslot). cbn [bind].
  rewrite assign_Ok by lia. reflexivity.
Qed.

Lemma bytes_Replace_occupied (c : Bytes) (id : Z) (p : list Byte.byte) (tim : Z)
  (e : entryBytes) :
  0 <= id < size c -> vals c !! Z.to_nat id = Some (Some e) ->
  Replace c id p tim
  = Ok {| vals := <[Z.to_nat id := Some {| lastAccess := tim;
                                           data := p |}]> (vals c);
          mem := add64 (mem c) (sub64 (len p) (len (data e)));
          max := max c; size := size c |}.
Proof.
  intros Hid Hslot. unfold Replace. bounds_guard id (size c).
  rewrite (index_Ok _ _ _ (proj1 Hid) Hslot). reflexivity.
Qed.

Lemma bytes_Remove_in_range (c : Bytes) (id : Z) :
  wf c -> 0 <= id < size c ->
  Remove c id
  = Ok {| vals := <[Z.to_nat id := None]> (vals c);
          mem := mem c; max := max c; size := size c |}.
Proof.
  unfold wf. intros Hwf Hid. unfold Remove. bounds_guard id (size c).
  rewrite assign_Ok by lia. reflexivity.
Qed.

(** The slot just written, read back. *)
Lemma bytes_written_slot (c : Bytes) (id : Z) (o : option entryBytes) :
  wf c -> 0 <= id < size c ->
  <[Z.to_nat id := o]> (vals c) !! Z.to_nat id = Some o.
Proof.
  unfold wf, len. intros Hwf Hid. apply list_lookup_insert_eq. lia.
Qed.

Lemma bytes_Get_after_write (c : Bytes) (id : Z) (e : entryBytes) (m tim : Z) :
  wf c -> 0 <= id < size c ->
  exists c'',
    Get {| vals := <[Z.to_nat id := Some e]> (vals c); mem := m;
           max := max c; size := size c |} id tim
    = Ok (data e, true, c'').
Proof.
  intros Hwf Hid. eexists. apply bytes_Get_occupied; [exact Hid|].
  exact (bytes_written_slot c id (Some e) Hwf Hid).
Qed.

(** *** Indices at or above [size], and below zero *)

Lemma bytes_Get_above (c : Bytes) (id tim : Z) :
  size c <= id -> Get c id tim = Ok ([], false, c).
Proof.
  intros Hid. unfold Get.
  destruct (Z.geb_spec id (size c)); [reflexivity|lia].
Qed.

Lemma bytes_Store_above (c : Bytes) (id : Z) (p : list Byte.byte) (tim : Z) :
  size c <= id -> Store c id p tim = Ok c.
Proof.
  intros Hid. unfold Store.
  destruct (Z.geb_spec id (size c)); [reflexivity|lia].
Qed.

Lemma bytes_Replace_above (c : Bytes) (id : Z) (p : list Byte.byte) (tim : Z) :
  size c <= id -> Replace c id p tim = Ok c.
Proof.
  intros Hid. unfold Replace.
  destruct (Z.geb_spec id (size c)); [reflexivity|lia].
Qed.

Lemma bytes_Remove_above (c : Bytes) (id : Z) :
  size c <= id -> Remove c id = Ok c.
Proof.
  intros Hid. unfold Remove.
  destruct (Z.geb_spec id (size c)); [reflexivity|lia].
Qed.

Lemma bytes_wf_size_nonneg (c : Bytes) : wf c -> 0 <= size c.
Proof. unfold wf, len. lia. Qed.

Lemma bytes_Get_negative (c : Bytes) (id tim : Z) :
  wf c -> id < 0 -> Get c id tim = Panic.
Proof.
  intros Hwf Hid. apply bytes_wf_size_nonneg in Hwf. unfold Get.
  bounds_guard id (size c). rewrite index_negative by lia. reflexivity.
Qed.

Lemma bytes_Store_negative (c : Bytes) (id : Z) (p : list Byte.byte) (tim : Z) :
  wf c -> id < 0 -> Store c id p tim = Panic.
Proof.
  intros Hwf Hid. apply bytes_wf_size_nonneg in Hwf. unfold Store.
  bounds_guard id (size c). rewrite index_negative by lia. reflexivity.
Qed.

Lemma bytes_Replace_negative (c : Bytes) (id : Z) (p : list Byte.byte) (tim : Z) :
  wf c -> id < 0 -> Replace c id p tim = Panic.
Proof.
  intros Hwf Hid. apply bytes_wf_size_nonneg in Hwf. unfold Replace.
  bounds_guard id (size c). rewrite index_negative by lia. reflexivity.
Qed.

Lemma bytes_Remove_negative (c : Bytes) (id : Z) :
  wf c -> id < 0 -> Remove c id = Panic.
Proof.
  intros Hwf Hid. apply bytes_wf_size_nonneg in Hwf. unfold Remove.
  bounds_guard id (size c). rewrite assign_negative by lia. reflexivity.
Qed.

(** *** Every cache in use has as many slots as [size] says *)

Lemma bytes_wf_alloc (sz megabytes : Z) (c : Bytes) :
  alloc sz megabytes = Ok c -> wf c.
Proof.
  unfold alloc, makeslice_panics.
  destruct (Z.ltb_spec sz 0); cbn [orb]; [discriminate|].
  destruct (maxAlloc <? 8 * sz); [discriminate|].
  intros [= <-]. unfold wf, len. cbn. rewrite length_replicate. lia.
Qed.

Lemma bytes_wf_insert (c : Bytes) (i : nat) (o : option entryBytes) (m : Z) :
  wf c ->
  wf {| vals := <[i := o]> (vals c); mem := m; max := max c;
        size := size c |}.
Proof. unfold wf, len. cbn. rewrite length_insert. trivial. Qed.

Lemma bytes_wf_Get (c c' : Bytes) (id tim : Z)
  (r : list Byte.byte * bool) :
  wf c -> Get c id tim = Ok (r, c') -> wf c'.
Proof.
  intros Hwf. unfold Get. destruct (id >=? size c); [congruence|].
  destruct (index (vals c) id) as [[e|]|]; cbn [bind];
    [|congruence|discriminate].
  intros [= _ <-]. now apply bytes_wf_insert.
Qed.

Lemma bytes_wf_Close (c : Bytes) : wf (Close c).
Proof. reflexivity. Qed.

Lemma bytes_wf_Purge (c : Bytes) (t : Z) : wf c -> wf (Purge c t).
Proof.
  rewrite bytes_Purge_eq. unfold wf, len, survivors. cbn.
  rewrite length_map. trivial.
Qed.

Lemma bytes_case_slot (c : Bytes) (id : Z) :
  wf c ->
  id < 0 \/ size c <= id
  \/ (0 <= id < size c /\ vals c !! Z.to_nat id = Some None)
  \/ (0 <= id < size c /\ exists e, vals c !! Z.to_nat id = Some (Some e)).
Proof.
  intros Hwf.
  destruct (Z.lt_ge_cases id 0) as [|Hlo]; [tauto|].
  destruct (Z.le_gt_cases (size c) id) as [|Hhi]; [tauto|].
  destruct (bytes_slot_in_range c id Hwf (conj Hlo Hhi)) as [[e|] Ho].
  - right. right. right. split; [lia|]. exists e. exact Ho.
  - right. right. left. split; [lia|]. exact Ho.
Qed.

Lemma bytes_wf_exec (c c' : Bytes) (k : call) :
  wf c -> exec c k = Ok c' -> wf c'.
Proof.
  intros Hwf.
  destruct k as [id p tim|id p tim|id|t]; cbn [exec].
  - destruct (bytes_case_slot c id Hwf) as [H|[H|[[H Ho]|[H [e Ho]]]]].
    + rewrite bytes_Store_negative by trivial. discriminate.
    + rewrite bytes_Store_above by trivial. congruence.
    + rewrite bytes_Store_empty by trivial. intros [= <-]. now apply bytes_wf_insert.
    + rewrite (bytes_Store_occupied _ _ _ _ e) by trivial. congruence.
  - destruct (bytes_case_slot c id Hwf) as [H|[H|[[H Ho]|[H [e Ho]]]]].
    + rewrite bytes_Replace_negative by trivial. discriminate.
    + rewrite bytes_Replace_above by trivial. congruence.
    + rewrite bytes_Replace_empty by trivial. intros [= <-]. now apply bytes_wf_insert.
    + rewrite (bytes_Replace_occupied _ _ _ _ e) by trivial.
      intros [= <-]. now apply bytes_wf_insert.
  - destruct (bytes_case_slot c id Hwf) as [H|[H|[[H Ho]|[H [e Ho]]]]].
    + rewrite bytes_Remove_negative by trivial. discriminate.
    + rewrite bytes_Remove_above by trivial. congruence.
    + rewrite bytes_Remove_in_range by trivial. intros [= <-]. now apply bytes_wf_insert.
    + rewrite bytes_Remove_in_range by trivial. intros [= <-]. now apply bytes_wf_insert.
  - intros [= <-]. now apply bytes_wf_Purge.
Qed.

(** *** The counter and the sizes of the entries *)

Lemma bytes_live_cons (o : option entryBytes) (vs : list (option entryBytes)) :
  live (o :: vs) = slot_size o + live vs.
Proof. reflexivity. Qed.

Lemma bytes_live_insert (vs : list (option entryBytes)) :
  forall (i : nat) (o o' : option entryBytes),
    vs !! i = Some o ->
    live (<[i := o']> vs) = live vs - slot_size o + slot_size o'.
Proof.
  induction vs as [|x vs IH]; intros [|i] o o' Hi; try discriminate.
  - injection Hi as ->. change (<[0%nat := o']> (o :: vs)) with (o' :: vs).
    rewrite !bytes_live_cons. lia.
  - change (<[S i := o']> (x :: vs)) with (x :: <[i := o']> vs).
    rewrite !bytes_live_cons, (IH i o o' Hi). lia.
Qed.

Lemma bytes_live_survivors (t : Z) (vs : list (option entryBytes)) :
  live (survivors t vs) = live vs - total (released t vs).
Proof.
  induction vs as [|[e|] vs IH]; [reflexivity| |].
  - change (survivors t (Some e :: vs))
      with ((if lastAccess e <? t then None else Some e) :: survivors t vs).
    cbn [released]. rewrite !bytes_live_cons, IH.
    destruct (lastAccess e <? t); cbn [slot_size total foldr];
      fold (total (released t vs)); lia.
  - change (survivors t (None :: vs)) with (None :: survivors t vs).
    cbn [released]. rewrite !bytes_live_cons, IH. lia.
Qed.

Lemma bytes_size_exec (c c' : Bytes) (k : call) :
  exec c k = Ok c' -> size c' = size c.
Proof.
  destruct k as [id p tim|id p tim|id|t]; cbn [exec].
  - unfold Store. destruct (id >=? size c); [congruence|].
    destruct (index (vals c) id) as [[e|]|]; cbn; try congruence.
    destruct (assign _ _ _); cbn; [intros [= <-]; reflexivity|discriminate].
  - unfold Replace. destruct (id >=? size c); [congruence|].
    destruct (index (vals c) id) as [[e|]|]; cbn; try congruence.
    + intros [= <-]; reflexivity.
    + destruct (assign _ _ _); cbn; [intros [= <-]; reflexivity|discriminate].
  - unfold Remove. destruct (id >=? size c); [congruence|].
    destruct (assign _ _ _); cbn; [intros [= <-]; reflexivity|discriminate].
  - intros [= <-]. rewrite bytes_Purge_eq. reflexivity.
Qed.

Lemma bytes_exec_returns (c : Bytes) (k : call) :
  wf c -> in_range (size c) k -> exists c', exec c k = Ok c'.
Proof.
  intros Hwf Hk.
  destruct k as [id p tim|id p tim|id|t]; cbn [exec in_range] in *.
  - destruct (bytes_slot_in_range c id Hwf Hk) as [[e|] Ho].
    + rewrite (bytes_Store_occupied _ _ _ _ e) by trivial. eauto.
    + rewrite bytes_Store_empty by trivial. eauto.
  - destruct (bytes_slot_in_range c id Hwf Hk) as [[e|] Ho].
    + rewrite (bytes_Replace_occupied _ _ _ _ e) by trivial. eauto.
    + rewrite bytes_Replace_empty by trivial. eauto.
  - rewrite bytes_Remove_in_range by trivial. eauto.
  - eauto.
Qed.

Lemma bytes_run_returns (ks : list call) :
  forall c : Bytes,
    wf c -> Forall (in_range (size c)) ks -> exists c', run c ks = Ok c'.
Proof.
  induction ks as [|k ks IH]; intros c Hwf Hks; cbn [run].
  - eauto.
  - apply Forall_cons in Hks as [Hk Hks].
    destruct (bytes_exec_returns c k Hwf Hk) as [c1 Hc1]. rewrite Hc1. cbn [bind].
    apply IH.
    + exact (bytes_wf_exec _ _ _ Hwf Hc1).
    + rewrite (bytes_size_exec _ _ _ Hc1). exact Hks.
Qed.

Lemma bytes_counted_exec (c c' : Bytes) (k : call) :
  wf c -> counted c -> is_remove k = false -> exec c k = Ok c' ->
  counted c'.
Proof.
  unfold counted. intros Hwf Hc Hk.
  destruct k as [id p tim|id p tim|id|t]; cbn [exec]; try discriminate.
  - destruct (bytes_case_slot c id Hwf) as [H|[H|[[H Ho]|[H [e Ho]]]]].
    + rewrite bytes_Store_negative by trivial. discriminate.
    + rewrite bytes_Store_above by trivial. congruence.
    + rewrite bytes_Store_empty by trivial. intros [= <-]. cbn [vals mem].
      rewrite (bytes_live_insert _ _ _ _ Ho), Hc. cbn [slot_size data].
      unfold add64. rewrite wrap64_add_l. f_equal. lia.
    + rewrite (bytes_Store_occupied _ _ _ _ e) by trivial. congruence.
  - destruct (bytes_case_slot c id Hwf) as [H|[H|[[H Ho]|[H [e Ho]]]]].
    + rewrite bytes_Replace_negative by trivial. discriminate.
    + rewrite bytes_Replace_above by trivial. congruence.
    + rewrite bytes_Replace_empty by trivial. intros [= <-]. cbn [vals mem].
      rewrite (bytes_live_insert _ _ _ _ Ho), Hc. cbn [slot_size data].
      unfold add64. rewrite wrap64_add_l. f_equal. lia.
    + rewrite (bytes_Replace_occupied _ _ _ _ e) by trivial.
      intros [= <-]. cbn [vals mem].
      rewrite (bytes_live_insert _ _ _ _ Ho), Hc. cbn [slot_size data].
      unfold add64, sub64. rewrite wrap64_add_l, wrap64_add_r. f_equal. lia.
  - intros [= <-]. rewrite bytes_Purge_eq. cbn [vals mem].
    rewrite Hc, decrement_total, bytes_live_survivors. reflexivity.
Qed.

Lemma bytes_counted_alloc (sz megabytes : Z) (c : Bytes) :
  alloc sz megabytes = Ok c -> counted c.
Proof.
  unfold alloc, makeslice_panics.
  destruct (Z.ltb_spec sz 0); cbn [orb]; [discriminate|].
  destruct (maxAlloc <? 8 * sz); [discriminate|].
  intros [= <-]. unfold counted. cbn [vals mem].
  induction (Z.to_nat sz) as [|n IH]; [reflexivity|exact IH].
Qed.

(** Without [Remove], the counter follows the entries. *)
Lemma bytes_counted_run (ks : list call) :
  forall c c' : Bytes,
    wf c -> counted c -> Forall (fun k => is_remove k = false) ks ->
    run c ks = Ok c' -> counted c'.
Proof.
  induction ks as [|k ks IH]; intros c c' Hwf Hc Hks; cbn [run].
  - congruence.
  - apply Forall_cons in Hks as [Hk Hks].
    destruct (exec c k) as [c1|] eqn:Hc1; cbn [bind]; [|discriminate].
    apply IH; [| |exact Hks].
    + exact (bytes_wf_exec _ _ _ Hwf Hc1).
    + exact (bytes_counted_exec _ _ _ Hwf Hc Hk Hc1).
Qed.

(** From construction on: a cache built by [alloc] and then used through
    [Store], [Replace] and [Purge] has its counter equal to the sum of
    the sizes of its entries. *)
Lemma bytes_counted_from_alloc (sz megabytes : Z) (ks : list call)
  (c c' : Bytes) :
  alloc sz megabytes = Ok c ->
  Forall (fun k => is_remove k = false) ks ->
  run c ks = Ok c' -> counted c'.
Proof.
  intros Hc Hks Hrun.
  exact (bytes_counted_run ks c c' (bytes_wf_alloc _ _ _ Hc)
           (bytes_counted_alloc _ _ _ Hc) Hks Hrun).
Qed.

End BytesFacts.

(** ** The cache of opaque values *)

Module InterfaceFacts.
Import Interface.
Section WithValues.

Context {V : Type}.
Implicit Types (c : Interface V) (e : entryInterface V).
Implicit Types (vs : list (option (entryInterface V))).

Lemma iface_purge_fold (t : Z) (mx sz : Z) vs :
  forall (prefix : list (option (entryInterface V))) (m : Z),
    fold_left (purge_step t) (seq (length prefix) (length vs))
      {| vals := prefix ++ vs; mem := m; max := mx; size := sz |}
    = {| vals := prefix ++ survivors t vs;
         mem := decrement m (released t vs);
         max := mx; size := sz |}.
Proof.
  induction vs as [|o vs IH]; intros prefix m; [reflexivity|].
  cbn [length seq fold_left].
  unfold purge_step at 2. cbn [vals mem max size].
  rewrite list_lookup_middle by reflexivity.
  pose proof (IH (prefix ++ [None])) as IHnone.
  pose proof (IH (prefix ++ [o])) as IHkeep.
  rewrite length_app, Nat.add_1_r, <- !app_assoc in IHkeep, IHnone.
  cbn [app] in IHkeep, IHnone.
  destruct o as [e|]; cbn [survivors map expired released];
    [destruct (lastAccess e <? t) eqn:Hold|].
  - rewrite insert_app_r_alt, Nat.sub_diag by lia. exact (IHnone _).
  - exact (IHkeep _).
  - exact (IHkeep _).
Qed.

Lemma iface_Purge_eq c (t : Z) :
  Purge c t = {| vals := survivors t (vals c);
                 mem := decrement (mem c) (released t (vals c));
                 max := max c; size := size c |}.
Proof.
  destruct c as [vs m mx sz]. unfold Purge. cbn [vals mem max size].
  exact (iface_purge_fold t mx sz vs [] m).
Qed.

Lemma iface_survivors_idem (t : Z) vs :
  survivors t (survivors t vs) = survivors t vs.
Proof.
  unfold survivors. rewrite map_map. apply map_ext.
  intros [e|]; cbn; [|reflexivity].
  destruct (lastAccess e <? t) eqn:Hold; cbn; rewrite ?Hold; reflexivity.
Qed.

Lemma iface_released_survivors (t : Z) vs : released t (survivors t vs) = [].
Proof.
  induction vs as [|[e|] vs IH]; cbn; [reflexivity| |exact IH].
  destruct (lastAccess e <? t) eqn:Hold; cbn; rewrite ?Hold; exact IH.
Qed.

Lemma iface_Purge_idem c (t : Z) : Purge (Purge c t) t = Purge c t.
Proof.
  rewrite (iface_Purge_eq (Purge c t)), (iface_Purge_eq c). cbn [vals mem max size].
  rewrite iface_survivors_idem, iface_released_survivors. reflexivity.
Qed.

Lemma iface_Purge_slot c (t : Z) (i : nat) :
  vals (Purge c t) !! i
  = match vals c !! i with
    | Some (Some e) => if lastAccess e <? t then Some None else Some (Some e)
    | o => o
    end.
Proof.
  rewrite iface_Purge_eq. cbn [vals]. unfold survivors.
  rewrite list_lookup_fmap.
  destruct (vals c !! i) as [[e|]|]; cbn; [|reflexivity..].
  destruct (lastAccess e <? t); reflexivity.
Qed.

(** *** The methods on a slot in range *)

Lemma iface_slot_in_range c (id : Z) :
  wf c -> 0 <= id < size c -> exists o, vals c !! Z.to_nat id = Some o.
Proof. unfold wf. intros Hwf Hid. apply lookup_in_range. lia. Qed.

Lemma iface_Get_empty c (id tim : Z) :
  0 <= id < size c -> vals c !! Z.to_nat id = Some None ->
  Get c id tim = Ok (Nil, false, c).
Proof.
  intros Hid Hslot. unfold Get. bounds_guard id (size c).
  rewrite (index_Ok _ _ _ (proj1 Hid) Hslot). reflexivity.
Qed.

Lemma iface_Get_occupied c (id tim : Z) e :
  0 <= id < size c -> vals c !! Z.to_nat id = Some (Some e) ->
  Get c id tim
  = Ok (data e, true,
        {| vals := <[Z.to_nat id := Some {| lastAccess := tim;
                                            data := data e;
                                            entry_size := entry_size e |}]>
                     (vals c);
           mem := mem c; max := max c; size := size c |}).
Proof.
  intros Hid Hslot. unfold Get. bounds_guard id (size c).
  rewrite (index_Ok _ _ _ (proj1 Hid) Hslot). reflexivity.
Qed.

Lemma iface_Store_empty c (id : Z) (p : any V) (sz tim : Z) :
  wf c -> 0 <= id < size c -> vals c !! Z.to_nat id = Some None ->
  Store c id p sz tim
  = Ok {| vals := <[Z.to_nat id := Some {| lastAccess := tim; data := p;
                                           entry_size := sz |}]> (vals c);
          mem := add64 (mem c) sz; max := max c; size := size c |}.
Proof.
  unfold wf. intros Hwf Hid Hslot. unfold Store. bounds_guard id (size c).
  rewrite (index_Ok _ _ _ (proj1 Hid) Hslot). cbn [bind].
  rewrite assign_Ok by lia. reflexivity.
Qed.

Lemma iface_Store_occupied c (id : Z) (p : any V) (sz tim : Z) e :
  0 <= id < size c -> vals c !! Z.to_nat id = Some (Some e) ->
  Store c id p sz tim = Ok c.
Proof.
  intros Hid Hslot. unfold Store. bounds_guard id (size c).
  rewrite (index_Ok _ _ _ (proj1 Hid) Hslot). reflexivity.
Qed.

Lemma iface_Replace_empty c (id : Z) (p : list Byte.byte) (sz tim : Z) :
  wf c -> 0 <= id < size c -> vals c !! Z.to_nat id = Some None ->
  Replace c id p sz tim
  = Ok {| vals := <[Z.to_nat id := Some {| lastAccess := tim;
                                           data := OfBytes p;
                                           entry_size := sz |}]> (vals c);
          mem := add64 (mem c) sz; max := max c; size := size c |}.
Proof.
  unfold wf. intros Hwf Hid Hslot. unfold Replace. bounds_guard id (size c).
  rewrite (index_Ok _ _ _ (proj1 Hid) Hslot). cbn [bind].
  rewrite assign_Ok by lia. reflexivity.
Qed.

Lemma iface_Replace_occupied c (id : Z) (p : list Byte.byte) (sz tim : Z) e :
  0 <= id < size c -> vals c !! Z.to_nat id = Some (Some e) ->
  Replace c id p sz tim
  = Ok {| vals := <[Z.to_nat id := Some {| lastAccess := tim;
                                           data := OfBytes p;
                                           entry_size := entry_size e |}]>
                    (vals c);
          mem := add64 (mem c) (sub64 sz (entry_size e));
          max := max c; size := size c |}.
Proof.
  intros Hid Hslot. unfold Replace. bounds_guard id (size c).
  rewrite (index_Ok _ _ _ (proj1 Hid) Hslot). reflexivity.
Qed.

Lemma iface_Remove_in_range c (id : Z) :
  wf c -> 0 <= id < size c ->
  Remove c id
  = Ok {| vals := <[Z.to_nat id := None]> (vals c);
          mem := mem c; max := max c; size := size c |}.
Proof.
  unfold wf. intros Hwf Hid. unfold Remove. bounds_guard id (size c).
  rewrite assign_Ok by lia. reflexivity.
Qed.

Lemma iface_written_slot c (id : Z) (o : option (entryInterface V)) :
  wf c -> 0 <= id < size c ->
  <[Z.to_nat id := o]> (vals c) !! Z.to_nat id = Some o.
Proof.
  unfold wf, len. intros Hwf Hid. apply list_lookup_insert_eq. lia.
Qed.

Lemma iface_Get_after_write c (id : Z) e (m tim : Z) :
  wf c -> 0 <= id < size c ->
  exists c'',
    Get {| vals := <[Z.to_nat id := Some e]> (vals c); mem := m;
           max := max c; size := size c |} id tim
    = Ok (data e, true, c'').
Proof.
  intros Hwf Hid. eexists. apply iface_Get_occupied; [exact Hid|].
  exact (iface_written_slot c id (Some e) Hwf Hid).
Qed.

(** *** Indices at or above [size], and below zero *)

Lemma iface_Get_above c (id tim : Z) :
  size c <= id -> Get c id tim = Ok (Nil, false, c).
Proof.
  intros Hid. unfold Get.
  destruct (Z.geb_spec id (size c)); [reflexivity|lia].
Qed.

Lemma iface_Store_above c (id : Z) (p : any V) (sz tim : Z) :
  size c <= id -> Store c id p sz tim = Ok c.
Proof.
  intros Hid. unfold Store.
  destruct (Z.geb_spec id (size c)); [reflexivity|lia].
Qed.

Lemma iface_Replace_above c (id : Z) (p : list Byte.byte) (sz tim : Z) :
  size c <= id -> Replace c id p sz tim = Ok c.
Proof.
  intros Hid. unfold Replace.
  destruct (Z.geb_spec id (size c)); [reflexivity|lia].
Qed.

Lemma iface_Remove_above c (id : Z) : size c <= id -> Remove c id = Ok c.
Proof.
  intros Hid. unfold Remove.
  destruct (Z.geb_spec id (size c)); [reflexivity|lia].
Qed.

Lemma iface_wf_size_nonneg c : wf c -> 0 <= size c.
Proof. unfold wf, len. lia. Qed.

Lemma iface_Get_negative c (id tim : Z) : wf c -> id < 0 -> Get c id tim = Panic.
Proof.
  intros Hwf Hid. apply iface_wf_size_nonneg in Hwf. unfold Get.
  bounds_guard id (size c). rewrite index_negative by lia. reflexivity.
Qed.

Lemma iface_Store_negative c (id : Z) (p : any V) (sz tim : Z) :
  wf c -> id < 0 -> Store c id p sz tim = Panic.
Proof.
  intros Hwf Hid. apply iface_wf_size_nonneg in Hwf. unfold Store.
  bounds_guard id (size c). rewrite index_negative by lia. reflexivity.
Qed.

Lemma iface_Replace_negative c (id : Z) (p : list Byte.byte) (sz tim : Z) :
  wf c -> id < 0 -> Replace c id p sz tim = Panic.
Proof.
  intros Hwf Hid. apply iface_wf_size_nonneg in Hwf. unfold Replace.
  bounds_guard id (size c). rewrite index_negative by lia. reflexivity.
Qed.

Lemma iface_Remove_negative c (id : Z) :
  wf c -> id < 0 -> Remove c id = Panic.
Proof.
  intros Hwf Hid. apply iface_wf_size_nonneg in Hwf. unfold Remove.
  bounds_guard id (size c). rewrite assign_negative by lia. reflexivity.
Qed.

Lemma iface_wf_alloc (sz megabytes : Z) c : alloc sz megabytes = Ok c -> wf c.
Proof.
  unfold alloc, makeslice_panics.
  destruct (Z.ltb_spec sz 0); cbn [orb]; [discriminate|].
  destruct (maxAlloc <? 8 * sz); [discriminate|].
  intros [= <-]. unfold wf, len. cbn. rewrite length_replicate. lia.
Qed.

Lemma iface_wf_insert c (i : nat) (o : option (entryInterface V)) (m : Z) :
  wf c ->
  wf {| vals := <[i := o]> (vals c); mem := m; max := max c;
        size := size c |}.
Proof. unfold wf, len. cbn. rewrite length_insert. trivial. Qed.

Lemma iface_wf_Get c c' (id tim : Z) (r : any V * bool) :
  wf c -> Get c id tim = Ok (r, c') -> wf c'.
Proof.
  intros Hwf. unfold Get. destruct (id >=? size c); [congruence|].
  destruct (index (vals c) id) as [[e|]|]; cbn [bind];
    [|congruence|discriminate].
  intros [= _ <-]. now apply iface_wf_insert.
Qed.

Lemma iface_wf_Purge c (t : Z) : wf c -> wf (Purge c t).
Proof.
  rewrite iface_Purge_eq. unfold wf, len, survivors. cbn.
  rewrite length_map. trivial.
Qed.

Lemma iface_wf_Close c : wf (Close c).
Proof. reflexivity. Qed.

Lemma iface_case_slot c (id : Z) :
  wf c ->
  id < 0 \/ size c <= id
  \/ (0 <= id < size c /\ vals c !! Z.to_nat id = Some None)
  \/ (0 <= id < size c /\ exists e, vals c !! Z.to_nat id = Some (Some e)).
Proof.
  intros Hwf.
  destruct (Z.lt_ge_cases id 0) as [|Hlo]; [tauto|].
  destruct (Z.le_gt_cases (size c) id) as [|Hhi]; [tauto|].
  destruct (iface_slot_in_range c id Hwf (conj Hlo Hhi)) as [[e|] Ho].
  - right. right. right. split; [lia|]. exists e. exact Ho.
  - right. right. left. split; [lia|]. exact Ho.
Qed.

Lemma iface_wf_exec c c' (k : call V) : wf c -> exec c k = Ok c' -> wf c'.
Proof.
  intros Hwf.
  destruct k as [id p sz tim|id p sz tim|id|t]; cbn [exec].
  - destruct (iface_case_slot c id Hwf) as [H|[H|[[H Ho]|[H [e Ho]]]]].
    + rewrite iface_Store_negative by trivial. discriminate.
    + rewrite iface_Store_above by trivial. congruence.
    + rewrite iface_Store_empty by trivial.
      intros [= <-]. now apply iface_wf_insert.
    + rewrite (iface_Store_occupied _ _ _ _ _ e) by trivial. congruence.
  - destruct (iface_case_slot c id Hwf) as [H|[H|[[H Ho]|[H [e Ho]]]]].
    + rewrite iface_Replace_negative by trivial. discriminate.
    + rewrite iface_Replace_above by trivial. congruence.
    + rewrite iface_Replace_empty by trivial.
      intros [= <-]. now apply iface_wf_insert.
    + rewrite (iface_Replace_occupied _ _ _ _ _ e) by trivial.
      intros [= <-]. now apply iface_wf_insert.
  - destruct (iface_case_slot c id Hwf) as [H|[H|[[H Ho]|[H [e Ho]]]]].
    + rewrite iface_Remove_negative by trivial. discriminate.
    + rewrite iface_Remove_above by trivial. congruence.
    + rewrite iface_Remove_in_range by trivial.
      intros [= <-]. now apply iface_wf_insert.
    + rewrite iface_Remove_in_range by trivial.
      intros [= <-]. now apply iface_wf_insert.
  - intros [= <-]. now apply iface_wf_Purge.
Qed.

End WithValues.
End InterfaceFacts.

(** ** The earlier cleaner *)

Module LegacyFacts.
Import Legacy.

Lemma legacy_purge_fold (t : Z) (mx : Z) (vs : list (option entry)) :
  forall (prefix : list (option entry)) (m : Z),
    fold_left (purge_step t) (seq (length prefix) (length vs))
      {| vals := prefix ++ vs; mem := m; max := mx |}
    = {| vals := prefix ++ survivors t vs;
         mem := decrement m (released t vs);
         max := mx |}.
Proof.
  induction vs as [|o vs IH]; intros prefix m; [reflexivity|].
  cbn [length seq fold_left].
  unfold purge_step at 2. cbn [vals mem max].
  rewrite list_lookup_middle by reflexivity.
  pose proof (IH (prefix ++ [None])) as IHnone.
  pose proof (IH (prefix ++ [o])) as IHkeep.
  rewrite length_app, Nat.add_1_r, <- !app_assoc in IHkeep, IHnone.
  cbn [app] in IHkeep, IHnone.
  destruct o as [e|]; cbn [survivors map expired released];
    [destruct (lastAccess e <? t) eqn:Hold|].
  - rewrite insert_app_r_alt, Nat.sub_diag by lia. exact (IHnone _).
  - exact (IHkeep _).
  - exact (IHkeep _).
Qed.

Lemma legacy_Purge_eq (c : cache) (t : Z) :
  Purge c t = {| vals := survivors t (vals c);
                 mem := decrement (mem c) (released t (vals c));
                 max := max c |}.
Proof.
  destruct c as [vs m mx]. unfold Purge. cbn [vals mem max].
  exact (legacy_purge_fold t mx vs [] m).
Qed.

End LegacyFacts.

(** * The claims *)

Lemma wrap64_decrement (sizes : list Z) (m : Z) :
  wrap64 (decrement m sizes) = wrap64 (m - total sizes).
Proof.
  destruct sizes as [|s sizes].
  - cbn. f_equal. lia.
  - unfold decrement. cbn [fold_left]. fold (decrement (add64 m (sub64 0 s)) sizes).
    rewrite add64_sub64_0, decrement_total, wrap64_idem.
    f_equal. cbn [total foldr]. fold (total sizes). lia.
Qed.

Lemma sample_alloc : Bytes.alloc 1 1 = Ok one_slot.
Proof. reflexivity. Qed.

Lemma sample_alloc_any : Interface.alloc 1 1 = Ok one_slot_any.
Proof. reflexivity. Qed.

(** Whatever the slot held, [Remove] leaves the counter as it was. *)
Lemma Bytes_Remove_counter (c c' : Bytes.Bytes) (id : Z) :
  Bytes.Remove c id = Ok c' -> Bytes.mem c' = Bytes.mem c.
Proof.
  unfold Bytes.Remove. destruct (id >=? Bytes.size c); [congruence|].
  destruct (assign _ _ _); cbn; [intros [= <-]; reflexivity|discriminate].
Qed.

Lemma Interface_Remove_counter {V : Type} (c c' : Interface.Interface V)
  (id : Z) :
  Interface.Remove c id = Ok c' -> Interface.mem c' = Interface.mem c.
Proof.
  unfold Interface.Remove. destruct (id >=? Interface.size c); [congruence|].
  destruct (assign _ _ _); cbn; [intros [= <-]; reflexivity|discriminate].
Qed.

(** [Remove] does empty the slot: a [Get] that follows finds nothing. *)
Lemma Bytes_Remove_then_Get (c : Bytes.Bytes) (id tim : Z) :
  Bytes.wf c -> 0 <= id < Bytes.size c ->
  exists c', Bytes.Remove c id = Ok c'
             /\ Bytes.Get c' id tim = Ok ([], false, c').
Proof.
  intros Hwf Hid. rewrite BytesFacts.bytes_Remove_in_range by trivial.
  eexists. split; [reflexivity|].
  apply BytesFacts.bytes_Get_empty; [exact Hid|].
  exact (BytesFacts.bytes_written_slot c id None Hwf Hid).
Qed.

Lemma Interface_Remove_then_Get {V : Type} (c : Interface.Interface V)
  (id tim : Z) :
  Interface.wf c -> 0 <= id < Interface.size c ->
  exists c', Interface.Remove c id = Ok c'
             /\ Interface.Get c' id tim = Ok (Nil, false, c').
Proof.
  intros Hwf Hid. rewrite InterfaceFacts.iface_Remove_in_range by trivial.
  eexists. split; [reflexivity|].
  apply InterfaceFacts.iface_Get_empty; [exact Hid|].
  exact (InterfaceFacts.iface_written_slot c id None Hwf Hid).
Qed.

(** C1.  On the cache of one slot holding the three bytes of "abc", in
    either variant, [Remove(0)] empties the slot, so that the [Get] that
    follows finds nothing, and the counter, 3 before the call, is still 3
    after it, where the claim has it go down to 0. *)
Theorem Remove_leaves_counter :
  (let* c := Bytes.Store one_slot 0 abc 100 in
   let* c' := Bytes.Remove c 0 in
   let* r := Bytes.Get c' 0 200 in
   Ok (Bytes.mem c, Bytes.vals c', Bytes.mem c', fst r))
  = Ok (3, [None], 3, ([], false))
  /\ (let* c := Interface.Store one_slot_any 0 (OfValue tt) 3 100 in
      let* c' := Interface.Remove c 0 in
      let* r := Interface.Get c' 0 200 in
      Ok (Interface.mem c, Interface.vals c', Interface.mem c', fst r))
     = Ok (3, [None], 3, (Nil, false)).
Proof. split; reflexivity. Qed.

(** What holds of the indices at or above [size]: [Get] finds nothing and
    the three writing methods change nothing. *)
Lemma Bytes_above_range (c : Bytes.Bytes) (id : Z) (p : list Byte.byte)
  (tim : Z) :
  Bytes.size c <= id ->
  Bytes.Get c id tim = Ok ([], false, c)
  /\ Bytes.Store c id p tim = Ok c
  /\ Bytes.Replace c id p tim = Ok c
  /\ Bytes.Remove c id = Ok c.
Proof.
  intros Hid. repeat split.
  - now apply BytesFacts.bytes_Get_above.
  - now apply BytesFacts.bytes_Store_above.
  - now apply BytesFacts.bytes_Replace_above.
  - now apply BytesFacts.bytes_Remove_above.
Qed.

Lemma Interface_above_range {V : Type} (c : Interface.Interface V) (id : Z)
  (v : any V) (p : list Byte.byte) (sz tim : Z) :
  Interface.size c <= id ->
  Interface.Get c id tim = Ok (Nil, false, c)
  /\ Interface.Store c id v sz tim = Ok c
  /\ Interface.Replace c id p sz tim = Ok c
  /\ Interface.Remove c id = Ok c.
Proof.
  intros Hid. repeat split.
  - now apply InterfaceFacts.iface_Get_above.
  - now apply InterfaceFacts.iface_Store_above.
  - now apply InterfaceFacts.iface_Replace_above.
  - now apply InterfaceFacts.iface_Remove_above.
Qed.

(** Below zero every method of a cache in use panics. *)
Lemma Bytes_below_zero (c : Bytes.Bytes) (id : Z) (p : list Byte.byte)
  (tim : Z) :
  Bytes.wf c -> id < 0 ->
  Bytes.Get c id tim = Panic
  /\ Bytes.Store c id p tim = Panic
  /\ Bytes.Replace c id p tim = Panic
  /\ Bytes.Remove c id = Panic.
Proof.
  intros Hwf Hid. repeat split.
  - now apply BytesFacts.bytes_Get_negative.
  - now apply BytesFacts.bytes_Store_negative.
  - now apply BytesFacts.bytes_Replace_negative.
  - now apply BytesFacts.bytes_Remove_negative.
Qed.

Lemma Interface_below_zero {V : Type} (c : Interface.Interface V) (id : Z)
  (v : any V) (p : list Byte.byte) (sz tim : Z) :
  Interface.wf c -> id < 0 ->
  Interface.Get c id tim = Panic
  /\ Interface.Store c id v sz tim = Panic
  /\ Interface.Replace c id p sz tim = Panic
  /\ Interface.Remove c id = Panic.
Proof.
  intros Hwf Hid. repeat split.
  - now apply InterfaceFacts.iface_Get_negative.
  - now apply InterfaceFacts.iface_Store_negative.
  - now apply InterfaceFacts.iface_Replace_negative.
  - now apply InterfaceFacts.iface_Remove_negative.
Qed.

(** C2.  At index -1 of a cache of one slot, in either variant, [Get],
    [Store], [Replace] and [Remove] all panic: the guard [id >= c.size]
    lets a negative index through to the slice. The claim has [Get] answer
    (empty, false) and the others do nothing. *)
Theorem negative_index_panics :
  (Bytes.Get one_slot (-1) 100 = Panic
   /\ Bytes.Store one_slot (-1) abc 100 = Panic
   /\ Bytes.Replace one_slot (-1) abc 100 = Panic
   /\ Bytes.Remove one_slot (-1) = Panic)
  /\ (Interface.Get one_slot_any (-1) 100 = Panic
      /\ Interface.Store one_slot_any (-1) (OfValue tt) 3 100 = Panic
      /\ Interface.Replace one_slot_any (-1) abc 3 100 = Panic
      /\ Interface.Remove one_slot_any (-1) = Panic).
Proof. repeat split. Qed.

(** C3.  In either variant, on a cache in use and an index in range.
    [Store] on an empty slot returns the cache with an entry made of the
    payload and the clock reading in that slot, the size of the entry (the
    length of the bytes, or the size the caller gives) added to the counter
    in [int64] arithmetic and nothing else changed; any [Get] that follows
    returns the payload with found = true.  [Store] on an occupied slot
    returns the cache as it was, payload, timestamp and counter included,
    and a [Get] that follows returns the payload that was there. *)
Theorem Store_once :
  (forall (c : Bytes.Bytes) (id : Z) (p : list Byte.byte) (tim : Z),
      Bytes.wf c -> 0 <= id < Bytes.size c ->
      (Bytes.vals c !! Z.to_nat id = Some None ->
       let e := {| Bytes.lastAccess := tim; Bytes.data := p |} in
       let c' := {| Bytes.vals := <[Z.to_nat id := Some e]> (Bytes.vals c);
                    Bytes.mem := add64 (Bytes.mem c) (len p);
                    Bytes.max := Bytes.max c;
                    Bytes.size := Bytes.size c |} in
       Bytes.Store c id p tim = Ok c'
       /\ Bytes.vals c' !! Z.to_nat id = Some (Some e)
       /\ forall tim', exists c'', Bytes.Get c' id tim' = Ok (p, true, c''))
      /\ (forall e, Bytes.vals c !! Z.to_nat id = Some (Some e) ->
          Bytes.Store c id p tim = Ok c
          /\ forall tim',
              exists c'', Bytes.Get c id tim' = Ok (Bytes.data e, true, c'')))
  /\ (forall (V : Type) (c : Interface.Interface V) (id : Z) (p : any V)
        (sz tim : Z),
      Interface.wf c -> 0 <= id < Interface.size c ->
      (Interface.vals c !! Z.to_nat id = Some None ->
       let e := {| Interface.lastAccess := tim; Interface.data := p;
                   Interface.entry_size := sz |} in
       let c' := {| Interface.vals :=
                      <[Z.to_nat id := Some e]> (Interface.vals c);
                    Interface.mem := add64 (Interface.mem c) sz;
                    Interface.max := Interface.max c;
                    Interface.size := Interface.size c |} in
       Interface.Store c id p sz tim = Ok c'
       /\ Interface.vals c' !! Z.to_nat id = Some (Some e)
       /\ forall tim',
           exists c'', Interface.Get c' id tim' = Ok (p, true, c''))
      /\ (forall e, Interface.vals c !! Z.to_nat id = Some (Some e) ->
          Interface.Store c id p sz tim = Ok c
          /\ forall tim',
              exists c'',
                Interface.Get c id tim' = Ok (Interface.data e, true, c''))).
Proof.
  split.
  - intros c id p tim Hwf Hid. split.
    + intros Hslot e c'. split; [now apply BytesFacts.bytes_Store_empty|].
      split; [exact (BytesFacts.bytes_written_slot c id (Some e) Hwf Hid)|].
      intros tim'.
      exact (BytesFacts.bytes_Get_after_write c id e _ tim' Hwf Hid).
    + intros e Hslot.
      split; [exact (BytesFacts.bytes_Store_occupied c id p tim e Hid Hslot)|].
      intros tim'. eexists.
      exact (BytesFacts.bytes_Get_occupied c id tim' e Hid Hslot).
  - intros V c id p sz tim Hwf Hid. split.
    + intros Hslot e c'.
      split; [now apply InterfaceFacts.iface_Store_empty|].
      split;
        [exact (InterfaceFacts.iface_written_slot c id (Some e) Hwf Hid)|].
      intros tim'.
      exact (InterfaceFacts.iface_Get_after_write c id e _ tim' Hwf Hid).
    + intros e Hslot.
      split;
        [exact (InterfaceFacts.iface_Store_occupied c id p sz tim e Hid Hslot)|].
      intros tim'. eexists.
      exact (InterfaceFacts.iface_Get_occupied c id tim' e Hid Hslot).
Qed.

Lemma Store_once_witness :
  Bytes.Store one_slot 0 abc 100 = Ok one_entry
  /\ Bytes.Store one_entry 0 [] 200 = Ok one_entry
  /\ Interface.Store one_slot_any 0 (OfBytes abc) 3 100 = Ok one_entry_any
  /\ Interface.Store one_entry_any 0 Nil 7 200 = Ok one_entry_any.
Proof.
  pose proof (proj1 Store_once) as HB. pose proof (proj2 Store_once) as HI.
  split; [|split; [|split]].
  - refine (proj1 (proj1 (HB one_slot 0 abc 100 _ _) _)).
    + reflexivity.
    + cbn. lia.
    + reflexivity.
  - refine (proj1 (proj2 (HB one_entry 0 [] 200 _ _) _ _)).
    + reflexivity.
    + cbn. lia.
    + reflexivity.
  - refine (proj1 (proj1 (HI unit one_slot_any 0 (OfBytes abc) 3 100 _ _) _)).
    + reflexivity.
    + cbn. lia.
    + reflexivity.
  - refine (proj1 (proj2 (HI unit one_entry_any 0 Nil 7 200 _ _) _ _)).
    + reflexivity.
    + cbn. lia.
    + reflexivity.
Defined.

(** The claim C4 as it is worded covers every index; at index 1 of a cache
    of one slot [Replace] returns the cache as it was and the [Get] that
    follows finds nothing. *)
Lemma Replace_any_index_counterexample :
  Bytes.size one_slot <= 1
  /\ Bytes.Replace one_slot 1 abc 100 = Ok one_slot
  /\ Bytes.Get one_slot 1 200 = Ok ([], false, one_slot).
Proof. repeat split. cbn. lia. Qed.

(** C4, amended to the indices in range, and for the cache of opaque
    values to the first [Replace] of an entry after the [Store] that
    created it.  In either variant, on a cache in use, [Replace] at an
    index in range returns the cache with the new payload and the clock
    reading in that slot, budget, [size] and the other slots unchanged, and
    any [Get] that follows returns the new payload with found = true.  On
    an empty slot the counter grows by the size of the new entry.  On an
    occupied slot of the byte cache it moves by the length of the new
    payload minus the length of the old one, in [int64] arithmetic.  On the
    cache of opaque values, [Store] with size [s0] on an empty slot and
    then [Replace] with size [s1] leave the counter raised by [s1]: raised
    by [s0], then moved by [s1 - s0].  (What the code does on an occupied
    slot of that cache in general is stated as it is: it subtracts the
    size recorded in the entry and keeps that record.) *)
Theorem Replace_in_range :
  (forall (c : Bytes.Bytes) (id : Z) (p : list Byte.byte) (tim : Z),
      Bytes.wf c -> 0 <= id < Bytes.size c ->
      let e' := {| Bytes.lastAccess := tim; Bytes.data := p |} in
      let c' := {| Bytes.vals := <[Z.to_nat id := Some e']> (Bytes.vals c);
                   Bytes.mem :=
                     match Bytes.vals c !! Z.to_nat id with
                     | Some (Some e) =>
                         wrap64 (Bytes.mem c + (len p - len (Bytes.data e)))
                     | _ => wrap64 (Bytes.mem c + len p)
                     end;
                   Bytes.max := Bytes.max c;
                   Bytes.size := Bytes.size c |} in
      Bytes.Replace c id p tim = Ok c'
      /\ Bytes.vals c' !! Z.to_nat id = Some (Some e')
      /\ forall tim', exists c'', Bytes.Get c' id tim' = Ok (p, true, c''))
  /\ (forall (V : Type) (c : Interface.Interface V) (id : Z)
        (p : list Byte.byte) (sz tim : Z),
      Interface.wf c -> 0 <= id < Interface.size c ->
      let e' := {| Interface.lastAccess := tim;
                   Interface.data := OfBytes p;
                   Interface.entry_size :=
                     match Interface.vals c !! Z.to_nat id with
                     | Some (Some e) => Interface.entry_size e
                     | _ => sz
                     end |} in
      let c' := {| Interface.vals :=
                     <[Z.to_nat id := Some e']> (Interface.vals c);
                   Interface.mem :=
                     match Interface.vals c !! Z.to_nat id with
                     | Some (Some e) =>
                         wrap64 (Interface.mem c
                                 + (sz - Interface.entry_size e))
                     | _ => wrap64 (Interface.mem c + sz)
                     end;
                   Interface.max := Interface.max c;
                   Interface.size := Interface.size c |} in
      Interface.Replace c id p sz tim = Ok c'
      /\ Interface.vals c' !! Z.to_nat id = Some (Some e')
      /\ forall tim',
          exists c'',
            Interface.Get c' id tim' = Ok (OfBytes p, true, c''))
  /\ (forall (V : Type) (c : Interface.Interface V) (id : Z) (v : any V)
        (p : list Byte.byte) (s0 s1 t0 t1 : Z),
      Interface.wf c -> 0 <= id < Interface.size c ->
      Interface.vals c !! Z.to_nat id = Some None ->
      let e' := {| Interface.lastAccess := t1;
                   Interface.data := OfBytes p;
                   Interface.entry_size := s0 |} in
      let c' := {| Interface.vals :=
                     <[Z.to_nat id := Some e']> (Interface.vals c);
                   Interface.mem := wrap64 (Interface.mem c + s1);
                   Interface.max := Interface.max c;
                   Interface.size := Interface.size c |} in
      (let* c1 := Interface.Store c id v s0 t0 in
       Interface.Replace c1 id p s1 t1) = Ok c'
      /\ Interface.mem c'
         = wrap64 (add64 (Interface.mem c) s0 + (s1 - s0))
      /\ forall tim',
          exists c'',
            Interface.Get c' id tim' = Ok (OfBytes p, true, c'')).
Proof.
  split; [|split].
  - intros c id p tim Hwf Hid e' c'. split; [|split].
    + subst c'.
      destruct (BytesFacts.bytes_slot_in_range c id Hwf Hid)
        as [[e|] Hslot]; rewrite Hslot.
      * rewrite (BytesFacts.bytes_Replace_occupied c id p tim e) by trivial.
        unfold add64, sub64. rewrite wrap64_add_r. reflexivity.
      * now rewrite BytesFacts.bytes_Replace_empty.
    + exact (BytesFacts.bytes_written_slot c id (Some e') Hwf Hid).
    + intros tim'.
      exact (BytesFacts.bytes_Get_after_write c id e' _ tim' Hwf Hid).
  - intros V c id p sz tim Hwf Hid e' c'. split; [|split].
    + subst c' e'.
      destruct (InterfaceFacts.iface_slot_in_range c id Hwf Hid)
        as [[e|] Hslot]; rewrite Hslot.
      * rewrite (InterfaceFacts.iface_Replace_occupied c id p sz tim e)
          by trivial.
        unfold add64, sub64. rewrite wrap64_add_r. reflexivity.
      * now rewrite InterfaceFacts.iface_Replace_empty.
    + exact (InterfaceFacts.iface_written_slot c id (Some e') Hwf Hid).
    + intros tim'.
      exact (InterfaceFacts.iface_Get_after_write c id e' _ tim' Hwf Hid).
  - intros V c id v p s0 s1 t0 t1 Hwf Hid Hslot e' c'.
    set (e0 := {| Interface.lastAccess := t0; Interface.data := v;
                  Interface.entry_size := s0 |}
          : Interface.entryInterface V).
    split; [|split].
    + rewrite InterfaceFacts.iface_Store_empty by trivial. cbn [bind].
      rewrite (InterfaceFacts.iface_Replace_occupied _ id p s1 t1 e0);
        [|exact Hid
         |exact (InterfaceFacts.iface_written_slot c id (Some e0) Hwf Hid)].
      cbn [Interface.vals Interface.mem Interface.max Interface.size
           Interface.entry_size e0].
      subst c' e'. rewrite list_insert_insert_eq. do 2 f_equal.
      unfold add64, sub64. rewrite wrap64_add_r, wrap64_add_l.
      f_equal. lia.
    + subst c'. cbn [Interface.mem]. unfold add64.
      rewrite wrap64_add_l. f_equal. lia.
    + intros tim'.
      exact (InterfaceFacts.iface_Get_after_write c id e' _ tim' Hwf Hid).
Qed.

Lemma Replace_in_range_witness :
  Bytes.Replace one_slot 0 abc 100 = Ok one_entry
  /\ Bytes.Replace one_entry 0 [] 200
     = Ok {| Bytes.vals := [Some {| Bytes.lastAccess := 200;
                                    Bytes.data := [] |}];
             Bytes.mem := 0; Bytes.max := 1048576; Bytes.size := 1 |}
  /\ Interface.Replace one_slot_any 0 abc 3 100 = Ok one_entry_any
  /\ Interface.Replace one_entry_any 0 [] 30 200
     = Ok {| Interface.vals := [Some {| Interface.lastAccess := 200;
                                        Interface.data := OfBytes [];
                                        Interface.entry_size := 3 |}];
             Interface.mem := 30; Interface.max := 1024;
             Interface.size := 1 |}
  /\ (let* c1 := Interface.Store one_slot_any 0 (OfValue tt) 10 100 in
      Interface.Replace c1 0 abc 30 200)
     = Ok {| Interface.vals := [Some {| Interface.lastAccess := 200;
                                        Interface.data := OfBytes abc;
                                        Interface.entry_size := 10 |}];
             Interface.mem := 30; Interface.max := 1024;
             Interface.size := 1 |}.
Proof.
  destruct Replace_in_range as (HB & HI & HS).
  split; [|split; [|split; [|split]]].
  - refine (proj1 (HB one_slot 0 abc 100 _ _)); [reflexivity|cbn; lia].
  - refine (proj1 (HB one_entry 0 [] 200 _ _)); [reflexivity|cbn; lia].
  - refine (proj1 (HI unit one_slot_any 0 abc 3 100 _ _));
      [reflexivity|cbn; lia].
  - refine (proj1 (HI unit one_entry_any 0 [] 30 200 _ _));
      [reflexivity|cbn; lia].
  - refine (proj1 (HS unit one_slot_any 0 (OfValue tt) abc 10 30 100 200
                     _ _ _)); [reflexivity|cbn; lia|reflexivity].
Defined.

(** The adjustment may be negative: replacing "abc" by nothing takes the
    counter from 3 back to 0. *)
Lemma Replace_shrinks :
  (let* c := Bytes.Store one_slot 0 abc 100 in
   let* c' := Bytes.Replace c 0 [] 200 in
   Ok (Bytes.mem c, Bytes.mem c'))
  = Ok (3, 0).
Proof. reflexivity. Qed.

(** C5.  In either variant [Purge(olderThan)] keeps the number of slots,
    the budget and [size]; slot by slot, an entry whose [lastAccess] is
    below [olderThan] leaves and every other slot is what it was, payload
    and timestamp included; the counter is taken down by the size of each
    entry that leaves, one atomic subtraction each in slot order, which
    amounts to the sum of those sizes in [int64] arithmetic. *)
Theorem Purge_exactly_the_old :
  (forall (c : Bytes.Bytes) (olderThan : Z),
      (forall i : nat,
          Bytes.vals (Bytes.Purge c olderThan) !! i
          = match Bytes.vals c !! i with
            | Some (Some e) =>
                if Bytes.lastAccess e <? olderThan then Some None
                else Some (Some e)
            | o => o
            end)
      /\ length (Bytes.vals (Bytes.Purge c olderThan))
         = length (Bytes.vals c)
      /\ Bytes.mem (Bytes.Purge c olderThan)
         = decrement (Bytes.mem c) (Bytes.released olderThan (Bytes.vals c))
      /\ wrap64 (Bytes.mem (Bytes.Purge c olderThan))
         = wrap64 (Bytes.mem c
                   - total (Bytes.released olderThan (Bytes.vals c)))
      /\ Bytes.max (Bytes.Purge c olderThan) = Bytes.max c
      /\ Bytes.size (Bytes.Purge c olderThan) = Bytes.size c)
  /\ (forall (V : Type) (c : Interface.Interface V) (olderThan : Z),
      (forall i : nat,
          Interface.vals (Interface.Purge c olderThan) !! i
          = match Interface.vals c !! i with
            | Some (Some e) =>
                if Interface.lastAccess e <? olderThan then Some None
                else Some (Some e)
            | o => o
            end)
      /\ length (Interface.vals (Interface.Purge c olderThan))
         = length (Interface.vals c)
      /\ Interface.mem (Interface.Purge c olderThan)
         = decrement (Interface.mem c)
             (Interface.released olderThan (Interface.vals c))
      /\ wrap64 (Interface.mem (Interface.Purge c olderThan))
         = wrap64 (Interface.mem c
                   - total (Interface.released olderThan (Interface.vals c)))
      /\ Interface.max (Interface.Purge c olderThan) = Interface.max c
      /\ Interface.size (Interface.Purge c olderThan) = Interface.size c).
Proof.
  split.
  - intros c t. split; [intros i; apply BytesFacts.bytes_Purge_slot|].
    rewrite BytesFacts.bytes_Purge_eq.
    cbn [Bytes.vals Bytes.mem Bytes.max Bytes.size].
    unfold Bytes.survivors. rewrite length_map, wrap64_decrement. tauto.
  - intros V c t. split; [intros i; apply InterfaceFacts.iface_Purge_slot|].
    rewrite InterfaceFacts.iface_Purge_eq.
    cbn [Interface.vals Interface.mem Interface.max Interface.size].
    unfold Interface.survivors. rewrite length_map, wrap64_decrement. tauto.
Qed.

(** C10.  In either variant a second [Purge] with the same threshold
    changes nothing: the cache it returns is the one the first returned,
    counter included, since no entry left by the first is expired and so
    none is released by the second. *)
Theorem Purge_twice :
  (forall (c : Bytes.Bytes) (t : Z),
      Bytes.Purge (Bytes.Purge c t) t = Bytes.Purge c t
      /\ Bytes.released t (Bytes.vals (Bytes.Purge c t)) = []
      /\ Forall (fun o => Bytes.expired t o = false)
           (Bytes.vals (Bytes.Purge c t)))
  /\ (forall (V : Type) (c : Interface.Interface V) (t : Z),
      Interface.Purge (Interface.Purge c t) t = Interface.Purge c t
      /\ Interface.released t (Interface.vals (Interface.Purge c t)) = []
      /\ Forall (fun o => Interface.expired t o = false)
           (Interface.vals (Interface.Purge c t))).
Proof.
  split.
  - intros c t. split; [apply BytesFacts.bytes_Purge_idem|].
    rewrite BytesFacts.bytes_Purge_eq. cbn [Bytes.vals].
    split; [apply BytesFacts.bytes_released_survivors|].
    unfold Bytes.survivors. apply Forall_fmap, Forall_true.
    intros [e|]; cbn; [|reflexivity].
    destruct (Bytes.lastAccess e <? t) eqn:Hold; cbn; rewrite ?Hold;
      reflexivity.
  - intros V c t. split; [apply InterfaceFacts.iface_Purge_idem|].
    rewrite InterfaceFacts.iface_Purge_eq. cbn [Interface.vals].
    split; [apply InterfaceFacts.iface_released_survivors|].
    unfold Interface.survivors. apply Forall_fmap, Forall_true.
    intros [e|]; cbn; [|reflexivity].
    destruct (Interface.lastAccess e <? t) eqn:Hold; cbn; rewrite ?Hold;
      reflexivity.
Qed.

(** [Close] zeroes the three fields and drops the slots; from index 0 up
    a [Get] on the closed cache finds nothing. *)
Lemma Bytes_Close_inert (c : Bytes.Bytes) (id tim : Z) :
  Bytes.size (Bytes.Close c) = 0
  /\ Bytes.max (Bytes.Close c) = 0
  /\ Bytes.mem (Bytes.Close c) = 0
  /\ Bytes.vals (Bytes.Close c) = []
  /\ (0 <= id ->
      Bytes.Get (Bytes.Close c) id tim = Ok ([], false, Bytes.Close c)).
Proof.
  repeat split. intros Hid. apply BytesFacts.bytes_Get_above. cbn. lia.
Qed.

Lemma Interface_Close_inert {V : Type} (c : Interface.Interface V)
  (id tim : Z) :
  Interface.size (Interface.Close c) = 0
  /\ Interface.max (Interface.Close c) = 0
  /\ Interface.mem (Interface.Close c) = 0
  /\ Interface.vals (Interface.Close c) = []
  /\ (0 <= id ->
      Interface.Get (Interface.Close c) id tim
      = Ok (Nil, false, Interface.Close c)).
Proof.
  repeat split. intros Hid. apply InterfaceFacts.iface_Get_above. cbn. lia.
Qed.

(** C9.  After [Close], in either variant and whatever the cache held,
    the three fields are zero and [Get] at index -1 panics, where the
    claim has it answer found = false at every index. *)
Theorem Get_after_Close_negative :
  (forall (c : Bytes.Bytes) (tim : Z),
      Bytes.size (Bytes.Close c) = 0
      /\ Bytes.max (Bytes.Close c) = 0
      /\ Bytes.mem (Bytes.Close c) = 0
      /\ Bytes.Get (Bytes.Close c) (-1) tim = Panic)
  /\ (forall (V : Type) (c : Interface.Interface V) (tim : Z),
      Interface.size (Interface.Close c) = 0
      /\ Interface.max (Interface.Close c) = 0
      /\ Interface.mem (Interface.Close c) = 0
      /\ Interface.Get (Interface.Close c) (-1) tim = Panic).
Proof. repeat split. Qed.

(** C8.  On the byte cache of one slot, [Store(0, "abc")] followed by
    [Remove(0)], both in range, leave the counter at 3 over slots that hold
    nothing: the counter is not the sum of the sizes of the entries.  In
    the other variant the same run does the same, and so does a [Replace]
    of an entry stored with size 10 by one of size 30: the counter is 30
    and the size recorded in the entry still 10. *)
Theorem counter_drifts :
  (exists c,
      Forall (Bytes.in_range (Bytes.size one_slot))
        [Bytes.CallStore 0 abc 100; Bytes.CallRemove 0]
      /\ Bytes.run one_slot [Bytes.CallStore 0 abc 100; Bytes.CallRemove 0]
         = Ok c
      /\ Bytes.mem c = 3
      /\ Bytes.live (Bytes.vals c) = 0
      /\ ~ Bytes.counted c)
  /\ (exists c,
         Interface.run one_slot_any
           [Interface.CallStore 0 (OfValue tt) 3 100; Interface.CallRemove 0]
         = Ok c
         /\ Interface.mem c = 3
         /\ Interface.live (Interface.vals c) = 0
         /\ ~ Interface.counted c)
  /\ (exists c,
         Interface.run one_slot_any
           [Interface.CallStore 0 (OfValue tt) 10 100;
            Interface.CallReplace 0 abc 30 200]
         = Ok c
         /\ Interface.mem c = 30
         /\ Interface.live (Interface.vals c) = 10
         /\ ~ Interface.counted c).
Proof.
  split; [|split]; eexists.
  - split; [repeat constructor; cbn; lia|].
    split; [reflexivity|]. split; [reflexivity|]. split; [reflexivity|].
    intros H. discriminate H.
  - split; [reflexivity|]. split; [reflexivity|]. split; [reflexivity|].
    intros H. discriminate H.
  - split; [reflexivity|]. split; [reflexivity|]. split; [reflexivity|].
    intros H. discriminate H.
Qed.

(** ** Construction *)






(** [New] multiplies by 1024 where [NewBytes] multiplies by 1048576. *)
Lemma New_budget {V : Type} (size megabytes : Z)
  (c : Interface.Interface V) :
  Interface.alloc size megabytes = Ok c ->
  Interface.max c = mul64 megabytes 1024.
Proof.
  unfold Interface.alloc. destruct (makeslice_panics size); [discriminate|].
  intros [= <-]. reflexivity.
Qed.

(** ** The cleaner *)

Section SweeperFacts.

Context {V : Type}.
Implicit Types (w : World V) (st : nat * World V).

Lemma graduated_within_budget {C : Type} (over_budget : C -> bool)
  (purge : C -> Z -> C) (clk : nat -> Z) (k : nat) (offsets : list Z)
  (c : C) :
  over_budget c = false ->
  graduated over_budget purge clk k offsets c = (k, c).
Proof. intros Hc. destruct offsets; cbn; rewrite ?Hc; reflexivity. Qed.

Lemma cleaner_body1_graduated (clk : nat -> Z) (k : nat) (c : Bytes.Bytes) :
  cleaner_body1 clk k c
  = graduated (fun c => Bytes.mem c >? Bytes.max c) Bytes.Purge clk k
      stages c.
Proof. reflexivity. Qed.

Lemma cleaner_body2_graduated (clk : nat -> Z) (k : nat)
  (c : Interface.Interface V) :
  cleaner_body2 clk k c
  = graduated (fun c => Interface.mem c >? Interface.max c) Interface.Purge
      clk k stages c.
Proof. reflexivity. Qed.

Lemma visit1_store2 (clk : nat -> Z) st (a : nat) :
  store2 (snd (visit1 clk st a)) = store2 (snd st)
  /\ caches2 (snd (visit1 clk st a)) = caches2 (snd st).
Proof.
  destruct st as [k w]. unfold visit1.
  destruct (store1 w !! a) as [c|]; [|split; reflexivity].
  destruct (cleaner_body1 clk k c). split; reflexivity.
Qed.

Lemma visit2_store1 (clk : nat -> Z) st (a : nat) :
  store1 (snd (visit2 clk st a)) = store1 (snd st).
Proof.
  destruct st as [k w]. unfold visit2.
  destruct (store2 w !! a) as [c|]; [|reflexivity].
  destruct (cleaner_body2 clk k c). reflexivity.
Qed.

Lemma sweep2_store1 (clk : nat -> Z) (l : list nat) :
  forall st, store1 (snd (fold_left (visit2 clk) l st)) = store1 (snd st).
Proof.
  induction l as [|a l IH]; intros st; cbn [fold_left]; [reflexivity|].
  rewrite IH. apply visit2_store1.
Qed.

Lemma sweep1_store2 (clk : nat -> Z) (l : list nat) :
  forall st,
    store2 (snd (fold_left (visit1 clk) l st)) = store2 (snd st)
    /\ caches2 (snd (fold_left (visit1 clk) l st)) = caches2 (snd st).
Proof.
  induction l as [|a l IH]; intros st; cbn [fold_left]; [split; reflexivity|].
  destruct (IH (visit1 clk st a)) as [-> ->]. apply visit1_store2.
Qed.

Lemma visit1_other (clk : nat -> Z) st (a b : nat) :
  a <> b ->
  store1 (snd (visit1 clk st a)) !! b = store1 (snd st) !! b.
Proof.
  intros Hab. destruct st as [k w]. unfold visit1.
  destruct (store1 w !! a) as [c|]; [|reflexivity].
  destruct (cleaner_body1 clk k c). cbn [snd store1].
  now apply list_lookup_insert_ne.
Qed.

Lemma visit2_other (clk : nat -> Z) st (a b : nat) :
  a <> b ->
  store2 (snd (visit2 clk st a)) !! b = store2 (snd st) !! b.
Proof.
  intros Hab. destruct st as [k w]. unfold visit2.
  destruct (store2 w !! a) as [c|]; [|reflexivity].
  destruct (cleaner_body2 clk k c). cbn [snd store2].
  now apply list_lookup_insert_ne.
Qed.

Lemma visit1_here (clk : nat -> Z) (k : nat) w (a : nat) (c : Bytes.Bytes) :
  store1 w !! a = Some c ->
  store1 (snd (visit1 clk (k, w) a)) !! a
  = Some (snd (cleaner_body1 clk k c)).
Proof.
  intros Hc. unfold visit1. rewrite Hc.
  destruct (cleaner_body1 clk k c) as [k' c']. cbn [snd store1].
  apply list_lookup_insert_eq. now apply lookup_lt_Some in Hc.
Qed.

Lemma visit2_here (clk : nat -> Z) (k : nat) w (a : nat)
  (c : Interface.Interface V) :
  store2 w !! a = Some c ->
  store2 (snd (visit2 clk (k, w) a)) !! a
  = Some (snd (cleaner_body2 clk k c)).
Proof.
  intros Hc. unfold visit2. rewrite Hc.
  destruct (cleaner_body2 clk k c) as [k' c']. cbn [snd store2].
  apply list_lookup_insert_eq. now apply lookup_lt_Some in Hc.
Qed.

Lemma body1_within_budget (clk : nat -> Z) (k : nat) (c : Bytes.Bytes) :
  Bytes.mem c <= Bytes.max c -> cleaner_body1 clk k c = (k, c).
Proof.
  intros Hc. rewrite cleaner_body1_graduated.
  apply graduated_within_budget.
  destruct (Z.gtb_spec (Bytes.mem c) (Bytes.max c)); [lia|reflexivity].
Qed.

Lemma body2_within_budget (clk : nat -> Z) (k : nat)
  (c : Interface.Interface V) :
  Interface.mem c <= Interface.max c -> cleaner_body2 clk k c = (k, c).
Proof.
  intros Hc. rewrite cleaner_body2_graduated.
  apply graduated_within_budget.
  destruct (Z.gtb_spec (Interface.mem c) (Interface.max c));
    [lia|reflexivity].
Qed.

Lemma sweep1_skips (clk : nat -> Z) (l : list nat) (b : nat)
  (c : Bytes.Bytes) :
  Bytes.mem c <= Bytes.max c ->
  forall st,
    store1 (snd st) !! b = Some c ->
    store1 (snd (fold_left (visit1 clk) l st)) !! b = Some c.
Proof.
  intros Hc. induction l as [|a l IH]; intros st Hb; cbn [fold_left];
    [exact Hb|].
  apply IH. destruct (decide (a = b)) as [->|Hab].
  - destruct st as [k w]. cbn [snd] in Hb.
    rewrite (visit1_here clk k w b c Hb), body1_within_budget by trivial.
    reflexivity.
  - rewrite visit1_other by trivial. exact Hb.
Qed.

Lemma sweep2_skips (clk : nat -> Z) (l : list nat) (b : nat)
  (c : Interface.Interface V) :
  Interface.mem c <= Interface.max c ->
  forall st,
    store2 (snd st) !! b = Some c ->
    store2 (snd (fold_left (visit2 clk) l st)) !! b = Some c.
Proof.
  intros Hc. induction l as [|a l IH]; intros st Hb; cbn [fold_left];
    [exact Hb|].
  apply IH. destruct (decide (a = b)) as [->|Hab].
  - destruct st as [k w]. cbn [snd] in Hb.
    rewrite (visit2_here clk k w b c Hb), body2_within_budget by trivial.
    reflexivity.
  - rewrite visit2_other by trivial. exact Hb.
Qed.

Lemma sweep1_other (clk : nat -> Z) (l : list nat) (b : nat) :
  b ∉ l ->
  forall st,
    store1 (snd (fold_left (visit1 clk) l st)) !! b = store1 (snd st) !! b.
Proof.
  induction l as [|a l IH]; intros Hb st; cbn [fold_left]; [reflexivity|].
  apply not_elem_of_cons in Hb as [Hba Hb].
  rewrite IH by trivial. apply visit1_other. congruence.
Qed.

Lemma sweep2_other (clk : nat -> Z) (l : list nat) (b : nat) :
  b ∉ l ->
  forall st,
    store2 (snd (fold_left (visit2 clk) l st)) !! b = store2 (snd st) !! b.
Proof.
  induction l as [|a l IH]; intros Hb st; cbn [fold_left]; [reflexivity|].
  apply not_elem_of_cons in Hb as [Hba Hb].
  rewrite IH by trivial. apply visit2_other. congruence.
Qed.

Lemma sweep1_visits (clk : nat -> Z) (l : list nat) (b : nat)
  (c : Bytes.Bytes) :
  NoDup l -> b ∈ l ->
  forall st,
    store1 (snd st) !! b = Some c ->
    exists k,
      store1 (snd (fold_left (visit1 clk) l st)) !! b
      = Some (snd (cleaner_body1 clk k c)).
Proof.
  induction l as [|a l IH]; intros Hnd Hb st Hc; [inversion Hb|].
  apply NoDup_cons in Hnd as [Ha Hnd]. cbn [fold_left].
  destruct (decide (a = b)) as [->|Hab].
  - destruct st as [k w]. cbn [snd] in Hc. exists k.
    rewrite sweep1_other by trivial. now apply visit1_here.
  - apply elem_of_cons in Hb as [->|Hb]; [congruence|].
    apply IH; [exact Hnd|exact Hb|].
    rewrite visit1_other by trivial. exact Hc.
Qed.

Lemma sweep2_visits (clk : nat -> Z) (l : list nat) (b : nat)
  (c : Interface.Interface V) :
  NoDup l -> b ∈ l ->
  forall st,
    store2 (snd st) !! b = Some c ->
    exists k,
      store2 (snd (fold_left (visit2 clk) l st)) !! b
      = Some (snd (cleaner_body2 clk k c)).
Proof.
  induction l as [|a l IH]; intros Hnd Hb st Hc; [inversion Hb|].
  apply NoDup_cons in Hnd as [Ha Hnd]. cbn [fold_left].
  destruct (decide (a = b)) as [->|Hab].
  - destruct st as [k w]. cbn [snd] in Hc. exists k.
    rewrite sweep2_other by trivial. now apply visit2_here.
  - apply elem_of_cons in Hb as [->|Hb]; [congruence|].
    apply IH; [exact Hnd|exact Hb|].
    rewrite visit2_other by trivial. exact Hc.
Qed.

End SweeperFacts.

Section TickFacts.

Context {V : Type}.
Implicit Types (st : nat * World V).

Lemma tick_skips1 (clk : nat -> Z) st (a : nat) (c : Bytes.Bytes) :
  store1 (snd st) !! a = Some c -> Bytes.mem c <= Bytes.max c ->
  store1 (snd (cleaner_tick clk st)) !! a = Some c.
Proof.
  intros Ha Hc. unfold cleaner_tick. rewrite sweep2_store1.
  now apply sweep1_skips.
Qed.

Lemma tick_skips2 (clk : nat -> Z) st (a : nat)
  (c : Interface.Interface V) :
  store2 (snd st) !! a = Some c -> Interface.mem c <= Interface.max c ->
  store2 (snd (cleaner_tick clk st)) !! a = Some c.
Proof.
  intros Ha Hc. unfold cleaner_tick. apply sweep2_skips; [exact Hc|].
  destruct (sweep1_store2 clk (caches1 (snd st)) st) as [-> _]. exact Ha.
Qed.

Lemma tick_visits1 (clk : nat -> Z) st (a : nat) (c : Bytes.Bytes) :
  NoDup (caches1 (snd st)) -> a ∈ caches1 (snd st) ->
  store1 (snd st) !! a = Some c ->
  exists k,
    store1 (snd (cleaner_tick clk st)) !! a
    = Some (snd (cleaner_body1 clk k c)).
Proof.
  intros Hnd Ha Hc. unfold cleaner_tick. rewrite sweep2_store1.
  now apply sweep1_visits.
Qed.

Lemma tick_visits2 (clk : nat -> Z) st (a : nat)
  (c : Interface.Interface V) :
  NoDup (caches2 (snd st)) -> a ∈ caches2 (snd st) ->
  store2 (snd st) !! a = Some c ->
  exists k,
    store2 (snd (cleaner_tick clk st)) !! a
    = Some (snd (cleaner_body2 clk k c)).
Proof.
  intros Hnd Ha Hc. unfold cleaner_tick.
  destruct (sweep1_store2 clk (caches1 (snd st)) st) as [Hs2 Hc2].
  apply sweep2_visits; rewrite ?Hc2, ?Hs2; trivial.
Qed.

Lemma rounds_skip1 (clk : nat -> Z) (n : nat) (a : nat) (c : Bytes.Bytes) :
  Bytes.mem c <= Bytes.max c ->
  forall st,
    store1 (snd st) !! a = Some c ->
    store1 (snd (cleaner clk n st)) !! a = Some c.
Proof.
  intros Hc. induction n as [|n IH]; intros st Ha; cbn [cleaner];
    [exact Ha|].
  apply IH. now apply tick_skips1.
Qed.

Lemma rounds_skip2 (clk : nat -> Z) (n : nat) (a : nat)
  (c : Interface.Interface V) :
  Interface.mem c <= Interface.max c ->
  forall st,
    store2 (snd st) !! a = Some c ->
    store2 (snd (cleaner clk n st)) !! a = Some c.
Proof.
  intros Hc. induction n as [|n IH]; intros st Ha; cbn [cleaner];
    [exact Ha|].
  apply IH. now apply tick_skips2.
Qed.

End TickFacts.

(** A threshold [now + d] that does not overflow sorts the entries by how
    long ago they were accessed: below it are those idle for more than
    [-d] seconds at the reading [now]. *)
Lemma threshold_idle (now d la : Z) :
  int64 (now + d) -> (la <? add64 now d) = (- d <? now - la).
Proof.
  intros Hr. unfold add64. rewrite wrap64_small by exact Hr.
  destruct (Z.ltb_spec la (now + d)), (Z.ltb_spec (- d) (now - la));
    reflexivity || lia.
Qed.

(** With a clock that does not go back, and no overflow, each stage has a
    higher threshold than the one before. *)
Lemma thresholds_increase (r0 r1 r2 r3 r4 : Z) :
  r0 <= r1 -> r1 <= r2 -> r2 <= r3 -> r3 <= r4 ->
  int64 (r0 - 432000) -> int64 (r4 + 3600) ->
  sub64 r0 432000 < sub64 r1 86400
  /\ sub64 r1 86400 < sub64 r2 3600
  /\ sub64 r2 3600 < sub64 r3 600
  /\ sub64 r3 600 < add64 r4 3600.
Proof.
  unfold int64, sub64, add64. intros H01 H12 H23 H34 Hlo Hhi.
  rewrite !wrap64_small by (unfold int64; lia). lia.
Qed.

(** A higher threshold expires whatever a lower one does. *)
Lemma Bytes_expired_mono (t t' : Z) (o : option Bytes.entryBytes) :
  t <= t' -> Bytes.expired t o = true -> Bytes.expired t' o = true.
Proof.
  intros Ht. destruct o as [e|]; cbn; [|trivial].
  intros H. apply Z.ltb_lt in H. apply Z.ltb_lt. lia.
Qed.

Lemma Interface_expired_mono {V : Type} (t t' : Z)
  (o : option (Interface.entryInterface V)) :
  t <= t' -> Interface.expired t o = true -> Interface.expired t' o = true.
Proof.
  intros Ht. destruct o as [e|]; cbn; [|trivial].
  intros H. apply Z.ltb_lt in H. apply Z.ltb_lt. lia.
Qed.

(** A threshold above every timestamp empties every slot. *)
Lemma Bytes_Purge_all (c : Bytes.Bytes) (t : Z) :
  Forall (fun o => match o with
                   | Some e => Bytes.lastAccess e < t
                   | None => True
                   end) (Bytes.vals c) ->
  Bytes.vals (Bytes.Purge c t) = replicate (length (Bytes.vals c)) None.
Proof.
  rewrite BytesFacts.bytes_Purge_eq. cbn [Bytes.vals].
  induction 1 as [|o vs Ho _ IH]; [reflexivity|].
  cbn [Bytes.survivors map length replicate]. f_equal; [|exact IH].
  destruct o as [e|]; cbn; [|reflexivity].
  apply Z.ltb_lt in Ho. rewrite Ho. reflexivity.
Qed.

Lemma Interface_Purge_all {V : Type} (c : Interface.Interface V) (t : Z) :
  Forall (fun o => match o with
                   | Some e => Interface.lastAccess e < t
                   | None => True
                   end) (Interface.vals c) ->
  Interface.vals (Interface.Purge c t)
  = replicate (length (Interface.vals c)) None.
Proof.
  rewrite InterfaceFacts.iface_Purge_eq. cbn [Interface.vals].
  induction 1 as [|o vs Ho _ IH]; [reflexivity|].
  cbn [Interface.survivors map length replicate]. f_equal; [|exact IH].
  destruct o as [e|]; cbn; [|reflexivity].
  apply Z.ltb_lt in Ho. rewrite Ho. reflexivity.
Qed.

Lemma legacy_body_graduated (clk : nat -> Z) (k : nat) (c : Legacy.cache) :
  Legacy.cleaner_body clk k c
  = graduated (fun c => Legacy.mem c >? Legacy.max c) Legacy.Purge clk k
      (tail stages) c.
Proof. reflexivity. Qed.

(** The claim C7 has the first stage purge the entries idle for at least
    five days.  On a cache over budget (2048 against 1024) whose slot 0 was
    last accessed 432000 seconds before the clock reading, the sweep purges
    slot 1 only, finds the cache within budget and stops: the entry idle for
    five days to the second is still there. *)
Lemma five_days_sharp_counterexample :
  exists (c c' : Interface.Interface unit)
         (e : Interface.entryInterface unit),
    two_entries = Ok c
    /\ Interface.mem c > Interface.max c
    /\ Interface.vals c !! 0%nat = Some (Some e)
    /\ frozen_clock 0 - Interface.lastAccess e >= 432000
    /\ cleaner_body2 frozen_clock 0 c = (1%nat, c')
    /\ Interface.vals c' !! 0%nat = Some (Some e)
    /\ Interface.vals c' !! 1%nat = Some None
    /\ Interface.mem c' <= Interface.max c'.
Proof.
  eexists _, _, _.
  split; [reflexivity|]. split; [reflexivity|]. split; [reflexivity|].
  split; [intros H; vm_compute in H; discriminate H|].
  split; [reflexivity|]. split; [reflexivity|]. split; [reflexivity|].
  intros H. vm_compute in H. discriminate H.
Qed.

(** C7, amended: a stage purges the entries idle for more than its age,
    not at least.  For every clock and every count [k] of earlier
    readings:
    - the body of either loop of the cleaner is the graduated purge over
      the five [stages], each threshold being a fresh clock reading plus
      the offset of the stage, and a cache is purged at a stage only if its
      counter is above its budget then; the cleaner of cache.go does the
      same over the last four stages;
    - a cache whose counter is at or below its budget is returned as it
      was, with no clock reading, and over a whole round such a cache in
      either store is left as it was; a cache registered once is left by
      the round as the body leaves it;
    - below a threshold [now + d] that does not overflow are the entries
      with [now - lastAccess > -d]: idle for more than 432000, 86400, 3600
      and 600 seconds, and for the last stage accessed less than 3600
      seconds after the reading;
    - with a clock that does not go back the thresholds increase strictly,
      a higher threshold expires whatever a lower one does, and a threshold
      above every timestamp empties every slot. *)
Theorem sweep_in_stages :
  forall (V : Type) (clk : nat -> Z) (k : nat),
    (forall c : Bytes.Bytes,
        cleaner_body1 clk k c
        = graduated (fun c => Bytes.mem c >? Bytes.max c) Bytes.Purge clk k
            stages c)
    /\ (forall c : Interface.Interface V,
        cleaner_body2 clk k c
        = graduated (fun c => Interface.mem c >? Interface.max c)
            Interface.Purge clk k stages c)
    /\ (forall c : Legacy.cache,
        Legacy.cleaner_body clk k c
        = graduated (fun c => Legacy.mem c >? Legacy.max c) Legacy.Purge
            clk k (tail stages) c)
    /\ (forall c : Bytes.Bytes,
        Bytes.mem c <= Bytes.max c -> cleaner_body1 clk k c = (k, c))
    /\ (forall c : Interface.Interface V,
        Interface.mem c <= Interface.max c -> cleaner_body2 clk k c = (k, c))
    /\ (forall (st : nat * World V) (a : nat) (c : Bytes.Bytes),
        store1 (snd st) !! a = Some c -> Bytes.mem c <= Bytes.max c ->
        store1 (snd (cleaner_tick clk st)) !! a = Some c)
    /\ (forall (st : nat * World V) (a : nat) (c : Interface.Interface V),
        store2 (snd st) !! a = Some c ->
        Interface.mem c <= Interface.max c ->
        store2 (snd (cleaner_tick clk st)) !! a = Some c)
    /\ (forall (st : nat * World V) (a : nat) (c : Bytes.Bytes),
        NoDup (caches1 (snd st)) -> a ∈ caches1 (snd st) ->
        store1 (snd st) !! a = Some c ->
        exists k',
          store1 (snd (cleaner_tick clk st)) !! a
          = Some (snd (cleaner_body1 clk k' c)))
    /\ (forall (st : nat * World V) (a : nat) (c : Interface.Interface V),
        NoDup (caches2 (snd st)) -> a ∈ caches2 (snd st) ->
        store2 (snd st) !! a = Some c ->
        exists k',
          store2 (snd (cleaner_tick clk st)) !! a
          = Some (snd (cleaner_body2 clk k' c)))
    /\ (forall d la : Z,
        int64 (clk k + d) ->
        (la <? add64 (clk k) d) = (- d <? clk k - la))
    /\ (clk k <= clk (S k) -> clk (S k) <= clk (S (S k)) ->
        clk (S (S k)) <= clk (S (S (S k))) ->
        clk (S (S (S k))) <= clk (S (S (S (S k)))) ->
        int64 (clk k - 432000) -> int64 (clk (S (S (S (S k)))) + 3600) ->
        sub64 (clk k) 432000 < sub64 (clk (S k)) 86400
        /\ sub64 (clk (S k)) 86400 < sub64 (clk (S (S k))) 3600
        /\ sub64 (clk (S (S k))) 3600 < sub64 (clk (S (S (S k)))) 600
        /\ sub64 (clk (S (S (S k)))) 600
           < add64 (clk (S (S (S (S k))))) 3600)
    /\ (forall (t t' : Z) (o : option Bytes.entryBytes)
          (o' : option (Interface.entryInterface V)),
        t <= t' ->
        (Bytes.expired t o = true -> Bytes.expired t' o = true)
        /\ (Interface.expired t o' = true -> Interface.expired t' o' = true))
    /\ (forall (c : Bytes.Bytes) (t : Z),
        Forall (fun o => match o with
                         | Some e => Bytes.lastAccess e < t
                         | None => True
                         end) (Bytes.vals c) ->
        Bytes.vals (Bytes.Purge c t)
        = replicate (length (Bytes.vals c)) None)
    /\ (forall (c : Interface.Interface V) (t : Z),
        Forall (fun o => match o with
                         | Some e => Interface.lastAccess e < t
                         | None => True
                         end) (Interface.vals c) ->
        Interface.vals (Interface.Purge c t)
        = replicate (length (Interface.vals c)) None).
Proof.
  intros V clk k.
  split; [intros c; apply cleaner_body1_graduated|].
  split; [intros c; apply cleaner_body2_graduated|].
  split; [intros c; apply legacy_body_graduated|].
  split; [intros c; apply body1_within_budget|].
  split; [intros c; apply body2_within_budget|].
  split; [intros st a c; apply tick_skips1|].
  split; [intros st a c; apply tick_skips2|].
  split; [intros st a c; apply tick_visits1|].
  split; [intros st a c; apply tick_visits2|].
  split; [intros d la; apply threshold_idle|].
  split; [apply thresholds_increase|].
  split.
  { intros t t' o o' Ht. split.
    - now apply Bytes_expired_mono.
    - now apply Interface_expired_mono. }
  split; [intros c t; apply Bytes_Purge_all|].
  intros c t; apply Interface_Purge_all.
Qed.

Lemma sweep_in_stages_witness :
  graduated (fun c => Bytes.mem c >? Bytes.max c) Bytes.Purge frozen_clock 0
    stages fresh_tight = (5%nat, swept_tight)
  /\ graduated (fun c => Interface.mem c >? Interface.max c) Interface.Purge
       frozen_clock 0 stages two_entries_built
     = (1%nat,
        {| Interface.vals :=
             [Some {| Interface.lastAccess := 568000;
                      Interface.data := OfValue tt;
                      Interface.entry_size := 1024 |}; None];
           Interface.mem := 1024; Interface.max := 1024;
           Interface.size := 2 |})
  /\ graduated (fun c => Legacy.mem c >? Legacy.max c) Legacy.Purge
       frozen_clock 0 (tail stages) tight_legacy
     = (1%nat, {| Legacy.vals := [None]; Legacy.mem := 0; Legacy.max := 0 |})
  /\ cleaner_body1 frozen_clock 0 one_entry = (0%nat, one_entry)
  /\ cleaner_body2 frozen_clock 0 one_entry_any = (0%nat, one_entry_any)
  /\ store1 (snd (cleaner_tick frozen_clock (0%nat, two_caches))) !! 0%nat
     = Some one_entry
  /\ store2 (snd (cleaner_tick frozen_clock (0%nat, two_caches))) !! 0%nat
     = Some one_entry_any
  /\ (exists k,
        store1 (snd (cleaner_tick frozen_clock (0%nat, tight_world))) !! 0%nat
        = Some (snd (cleaner_body1 frozen_clock k tight_entry)))
  /\ (exists k,
        store2 (snd (cleaner_tick frozen_clock (0%nat, tight_world))) !! 0%nat
        = Some (snd (cleaner_body2 frozen_clock k two_entries_built)))
  /\ (568000 <? add64 (frozen_clock 0) (-432000))
     = (- -432000 <? frozen_clock 0 - 568000)
  /\ (sub64 (frozen_clock 0) 432000 < sub64 (frozen_clock 1) 86400
      /\ sub64 (frozen_clock 1) 86400 < sub64 (frozen_clock 2) 3600
      /\ sub64 (frozen_clock 2) 3600 < sub64 (frozen_clock 3) 600
      /\ sub64 (frozen_clock 3) 600 < add64 (frozen_clock 4) 3600)
  /\ Bytes.expired 200 (Some {| Bytes.lastAccess := 100;
                                Bytes.data := abc |}) = true
  /\ Bytes.vals (Bytes.Purge fresh_tight (add64 (frozen_clock 4) 3600))
     = [None]
  /\ Interface.vals
       (Interface.Purge two_entries_built (add64 (frozen_clock 4) 3600))
     = [None; None].
Proof.
  destruct (sweep_in_stages unit frozen_clock 0)
    as (Hbody1 & Hbody2 & Hlegacy & Hskip1 & Hskip2 & Htick1 & Htick2
        & Hvisit1 & Hvisit2 & Hidle & Hup & Hmono & Hall1 & Hall2).
  assert (Hdup : NoDup [0%nat]) by (apply NoDup_singleton).
  assert (Hin : 0%nat ∈ [0%nat]) by (apply list_elem_of_singleton; reflexivity).
  split; [exact (eq_trans (eq_sym (Hbody1 fresh_tight)) eq_refl)|].
  split; [exact (eq_trans (eq_sym (Hbody2 two_entries_built)) eq_refl)|].
  split; [exact (eq_trans (eq_sym (Hlegacy tight_legacy)) eq_refl)|].
  split; [apply Hskip1; cbn; lia|].
  split; [apply Hskip2; cbn; lia|].
  split; [apply Htick1; [reflexivity|cbn; lia]|].
  split; [apply Htick2; [reflexivity|cbn; lia]|].
  split; [apply Hvisit1; [exact Hdup|exact Hin|reflexivity]|].
  split; [apply Hvisit2; [exact Hdup|exact Hin|reflexivity]|].
  split; [apply Hidle; unfold int64, frozen_clock; lia|].
  split; [apply Hup; unfold int64, frozen_clock; lia|].
  split.
  { refine (proj1 (Hmono 150 200 _ None _) _); [lia|reflexivity]. }
  split.
  - apply (Hall1 fresh_tight). repeat constructor.
  - apply (Hall2 two_entries_built). repeat constructor.
Defined.

(** * Further properties of the methods *)

Lemma decrement_range (sizes : list Z) (m : Z) :
  int64 m -> int64 (decrement m sizes).
Proof.
  intros Hm. rewrite decrement_int64 by exact Hm. apply wrap64_range.
Qed.

Lemma add64_assoc_sub (m a b c : Z) :
  add64 (add64 m (sub64 a b)) (sub64 c a) = add64 m (sub64 c b).
Proof.
  unfold add64, sub64.
  rewrite (wrap64_add_r _ (c - a)), wrap64_add_l, (wrap64_add_r m (c - b)).
  replace (m + wrap64 (a - b) + (c - a))
    with (m + (c - a) + wrap64 (a - b)) by lia.
  rewrite wrap64_add_r. f_equal. lia.
Qed.

Lemma add64_then_sub (m a c : Z) :
  add64 (add64 m a) (sub64 c a) = add64 m c.
Proof.
  unfold add64, sub64. rewrite wrap64_add_r, wrap64_add_l. f_equal. lia.
Qed.

(** [Replace] is last write wins on the byte cache: a second [Replace]
    at the same slot in range gives the cache, counter included, that it
    would have given alone. *)
Theorem Bytes_Replace_last_wins (c : Bytes.Bytes) (id : Z)
  (p1 p2 : list Byte.byte) (t1 t2 : Z) :
  Bytes.wf c -> 0 <= id < Bytes.size c ->
  (let* c1 := Bytes.Replace c id p1 t1 in Bytes.Replace c1 id p2 t2)
  = Bytes.Replace c id p2 t2.
Proof.
  intros Hwf Hid.
  set (e1 := {| Bytes.lastAccess := t1; Bytes.data := p1 |}).
  pose proof (BytesFacts.bytes_written_slot c id (Some e1) Hwf Hid) as Hw.
  destruct (BytesFacts.bytes_slot_in_range c id Hwf Hid) as [[e|] Hslot].
  - rewrite (BytesFacts.bytes_Replace_occupied c id p1 t1 e),
      (BytesFacts.bytes_Replace_occupied c id p2 t2 e) by trivial.
    cbn [bind].
    rewrite (BytesFacts.bytes_Replace_occupied _ id p2 t2 e1)
      by (cbn [Bytes.vals Bytes.size]; trivial).
    cbn [Bytes.vals Bytes.mem Bytes.max Bytes.size Bytes.data e1].
    rewrite list_insert_insert_eq, add64_assoc_sub. reflexivity.
  - rewrite (BytesFacts.bytes_Replace_empty c id p1 t1),
      (BytesFacts.bytes_Replace_empty c id p2 t2) by trivial.
    cbn [bind].
    rewrite (BytesFacts.bytes_Replace_occupied _ id p2 t2 e1)
      by (cbn [Bytes.vals Bytes.size]; trivial).
    cbn [Bytes.vals Bytes.mem Bytes.max Bytes.size Bytes.data e1].
    rewrite list_insert_insert_eq, add64_then_sub. reflexivity.
Qed.

Lemma Bytes_Replace_last_wins_witness :
  (let* c1 := Bytes.Replace one_entry 0 [] 200 in Bytes.Replace c1 0 abc 300)
  = Bytes.Replace one_entry 0 abc 300.
Proof.
  refine (Bytes_Replace_last_wins one_entry 0 [] abc 200 300 _ _).
  - reflexivity.
  - cbn. lia.
Defined.

(** On the cache of opaque values every [Replace] of an occupied slot
    measures the new size against the size recorded when the entry was
    created: two in a row, of sizes [s1] and [s2], leave that recorded size
    in the entry and move the counter by [(s1 - s0) + (s2 - s0)], not by
    [s2 - s0]. *)
Theorem Interface_Replace_measures_first_size {V : Type}
  (c : Interface.Interface V) (id : Z) (e : Interface.entryInterface V)
  (p1 p2 : list Byte.byte) (s1 s2 t1 t2 : Z) :
  Interface.wf c -> 0 <= id < Interface.size c ->
  Interface.vals c !! Z.to_nat id = Some (Some e) ->
  (let* c1 := Interface.Replace c id p1 s1 t1 in
   Interface.Replace c1 id p2 s2 t2)
  = Ok {| Interface.vals :=
            <[Z.to_nat id := Some {| Interface.lastAccess := t2;
                                     Interface.data := OfBytes p2;
                                     Interface.entry_size :=
                                       Interface.entry_size e |}]>
              (Interface.vals c);
          Interface.mem :=
            wrap64 (Interface.mem c
                    + (s1 - Interface.entry_size e)
                    + (s2 - Interface.entry_size e));
          Interface.max := Interface.max c;
          Interface.size := Interface.size c |}.
Proof.
  intros Hwf Hid Hslot.
  set (e1 := {| Interface.lastAccess := t1; Interface.data := OfBytes p1;
                Interface.entry_size := Interface.entry_size e |}
        : Interface.entryInterface V).
  pose proof (InterfaceFacts.iface_written_slot c id (Some e1) Hwf Hid) as Hw.
  rewrite (InterfaceFacts.iface_Replace_occupied c id p1 s1 t1 e) by trivial.
  cbn [bind].
  rewrite (InterfaceFacts.iface_Replace_occupied _ id p2 s2 t2 e1)
    by (cbn [Interface.vals Interface.size]; trivial).
  cbn [Interface.vals Interface.mem Interface.max Interface.size
       Interface.entry_size e1].
  rewrite list_insert_insert_eq. do 2 f_equal.
  unfold add64, sub64.
  rewrite (wrap64_add_r _ (s2 - Interface.entry_size e)), wrap64_add_l.
  replace (Interface.mem c + wrap64 (s1 - Interface.entry_size e)
           + (s2 - Interface.entry_size e))
    with (Interface.mem c + (s2 - Interface.entry_size e)
          + wrap64 (s1 - Interface.entry_size e)) by lia.
  rewrite wrap64_add_r. f_equal. lia.
Qed.

Lemma Interface_Replace_measures_first_size_witness :
  (let* c1 := Interface.Replace one_entry_any 0 abc 30 200 in
   Interface.Replace c1 0 abc 30 300)
  = Ok {| Interface.vals :=
            [Some {| Interface.lastAccess := 300;
                     Interface.data := OfBytes abc;
                     Interface.entry_size := 3 |}];
          Interface.mem := 57; Interface.max := 1024;
          Interface.size := 1 |}.
Proof.
  refine (Interface_Replace_measures_first_size one_entry_any 0
            {| Interface.lastAccess := 100; Interface.data := OfBytes abc;
               Interface.entry_size := 3 |} abc abc 30 30 200 300 _ _ _).
  - reflexivity.
  - cbn. lia.
  - reflexivity.
Defined.

(** A [Get] that finds an entry stamps it with the clock reading, and that
    reading alone decides what a [Purge] that follows does to it: the entry
    stays, payload intact, unless the reading is below the threshold. *)
Theorem Get_refreshes_against_Purge :
  (forall (c : Bytes.Bytes) (id tim olderThan : Z) (e : Bytes.entryBytes),
      Bytes.wf c -> 0 <= id < Bytes.size c ->
      Bytes.vals c !! Z.to_nat id = Some (Some e) ->
      exists c',
        Bytes.Get c id tim = Ok (Bytes.data e, true, c')
        /\ Bytes.vals (Bytes.Purge c' olderThan) !! Z.to_nat id
           = if tim <? olderThan then Some None
             else Some (Some {| Bytes.lastAccess := tim;
                                Bytes.data := Bytes.data e |}))
  /\ (forall (V : Type) (c : Interface.Interface V) (id tim olderThan : Z)
        (e : Interface.entryInterface V),
      Interface.wf c -> 0 <= id < Interface.size c ->
      Interface.vals c !! Z.to_nat id = Some (Some e) ->
      exists c',
        Interface.Get c id tim = Ok (Interface.data e, true, c')
        /\ Interface.vals (Interface.Purge c' olderThan) !! Z.to_nat id
           = if tim <? olderThan then Some None
             else Some (Some {| Interface.lastAccess := tim;
                                Interface.data := Interface.data e;
                                Interface.entry_size :=
                                  Interface.entry_size e |})).
Proof.
  split.
  - intros c id tim t e Hwf Hid Hslot.
    rewrite (BytesFacts.bytes_Get_occupied c id tim e Hid Hslot).
    eexists. split; [reflexivity|].
    rewrite BytesFacts.bytes_Purge_slot. cbn [Bytes.vals].
    rewrite (BytesFacts.bytes_written_slot c id _ Hwf Hid). reflexivity.
  - intros V c id tim t e Hwf Hid Hslot.
    rewrite (InterfaceFacts.iface_Get_occupied c id tim e Hid Hslot).
    eexists. split; [reflexivity|].
    rewrite InterfaceFacts.iface_Purge_slot. cbn [Interface.vals].
    rewrite (InterfaceFacts.iface_written_slot c id _ Hwf Hid). reflexivity.
Qed.

Lemma Get_refreshes_against_Purge_witness :
  exists c',
    Bytes.Get one_entry 0 500 = Ok (abc, true, c')
    /\ Bytes.vals (Bytes.Purge c' 400) !! Z.to_nat 0
       = Some (Some {| Bytes.lastAccess := 500; Bytes.data := abc |}).
Proof.
  refine (proj1 Get_refreshes_against_Purge one_entry 0 500 400
            {| Bytes.lastAccess := 100; Bytes.data := abc |} _ _ _).
  - reflexivity.
  - cbn. lia.
  - reflexivity.
Defined.

(** [Get] changes nothing but the timestamp of the slot it reads: when it
    returns, the counter, the budget, [size], the number of slots, every
    payload and the sum of the sizes are what they were, and so is every
    other slot. *)
Theorem Bytes_Get_only_stamps (c c' : Bytes.Bytes) (id tim : Z)
  (r : list Byte.byte * bool) :
  Bytes.Get c id tim = Ok (r, c') ->
  Bytes.mem c' = Bytes.mem c
  /\ Bytes.max c' = Bytes.max c
  /\ Bytes.size c' = Bytes.size c
  /\ fmap (M := list) (fmap (M := option) Bytes.data) (Bytes.vals c')
     = fmap (M := list) (fmap (M := option) Bytes.data) (Bytes.vals c)
  /\ Bytes.live (Bytes.vals c') = Bytes.live (Bytes.vals c)
  /\ (forall j : nat, j <> Z.to_nat id ->
      Bytes.vals c' !! j = Bytes.vals c !! j).
Proof.
  unfold Bytes.Get. destruct (id >=? Bytes.size c).
  { intros [= _ <-]. tauto. }
  unfold index. destruct (id <? 0); [discriminate|].
  destruct (Bytes.vals c !! Z.to_nat id) as [[e|]|] eqn:Hslot; cbn [bind];
    [|intros [= _ <-]; tauto|discriminate].
  intros [= _ <-]. cbn [Bytes.vals Bytes.mem Bytes.max Bytes.size].
  do 3 (split; [reflexivity|]). split; [|split].
  - rewrite list_fmap_insert. cbn [fmap option_fmap option_map Bytes.data].
    apply list_insert_id. rewrite list_lookup_fmap, Hslot. reflexivity.
  - rewrite (BytesFacts.bytes_live_insert _ _ _ _ Hslot). cbn. lia.
  - intros j Hj. now apply list_lookup_insert_ne.
Qed.

Lemma Bytes_Get_only_stamps_witness :
  let c' := {| Bytes.vals := [Some {| Bytes.lastAccess := 500;
                                      Bytes.data := abc |}];
               Bytes.mem := 3; Bytes.max := 1048576; Bytes.size := 1 |} in
  Bytes.mem c' = Bytes.mem one_entry
  /\ Bytes.max c' = Bytes.max one_entry
  /\ Bytes.size c' = Bytes.size one_entry
  /\ fmap (M := list) (fmap (M := option) Bytes.data) (Bytes.vals c')
     = fmap (M := list) (fmap (M := option) Bytes.data) (Bytes.vals one_entry)
  /\ Bytes.live (Bytes.vals c') = Bytes.live (Bytes.vals one_entry)
  /\ (forall j : nat, j <> Z.to_nat 0 ->
      Bytes.vals c' !! j = Bytes.vals one_entry !! j).
Proof.
  intros c'.
  refine (Bytes_Get_only_stamps one_entry c' 0 500 (abc, true) _).
  reflexivity.
Defined.

Lemma total_cons (s : Z) (sizes : list Z) : total (s :: sizes) = s + total sizes.
Proof. reflexivity. Qed.

Lemma Bytes_insert_expired (t : Z) (e : Bytes.entryBytes)
  (vs : list (option Bytes.entryBytes)) :
  Bytes.lastAccess e < t ->
  forall i : nat,
    vs !! i = Some None ->
    Bytes.survivors t (<[i := Some e]> vs) = Bytes.survivors t vs
    /\ total (Bytes.released t (<[i := Some e]> vs))
       = total (Bytes.released t vs) + len (Bytes.data e).
Proof.
  intros He. apply Z.ltb_lt in He.
  induction vs as [|o vs IH]; intros [|i] Hi; try discriminate.
  - injection Hi as ->. cbn. rewrite He. cbn. split; [reflexivity|].
    fold (total (Bytes.released t vs)). lia.
  - destruct (IH i Hi) as [IHs IHr].
    change (<[S i := Some e]> (o :: vs)) with (o :: <[i := Some e]> vs).
    unfold Bytes.survivors in *. cbn [map]. rewrite IHs.
    split; [reflexivity|].
    destruct o as [e0|]; cbn [Bytes.released]; [|exact IHr].
    destruct (Bytes.lastAccess e0 <? t); [|exact IHr].
    rewrite !total_cons, IHr. lia.
Qed.

Lemma Interface_insert_expired {V : Type} (t : Z)
  (e : Interface.entryInterface V)
  (vs : list (option (Interface.entryInterface V))) :
  Interface.lastAccess e < t ->
  forall i : nat,
    vs !! i = Some None ->
    Interface.survivors t (<[i := Some e]> vs) = Interface.survivors t vs
    /\ total (Interface.released t (<[i := Some e]> vs))
       = total (Interface.released t vs) + Interface.entry_size e.
Proof.
  intros He. apply Z.ltb_lt in He.
  induction vs as [|o vs IH]; intros [|i] Hi; try discriminate.
  - injection Hi as ->. cbn. rewrite He. cbn. split; [reflexivity|].
    fold (total (Interface.released t vs)). lia.
  - destruct (IH i Hi) as [IHs IHr].
    change (<[S i := Some e]> (o :: vs)) with (o :: <[i := Some e]> vs).
    unfold Interface.survivors in *. cbn [map]. rewrite IHs.
    split; [reflexivity|].
    destruct o as [e0|]; cbn [Interface.released]; [|exact IHr].
    destruct (Interface.lastAccess e0 <? t); [|exact IHr].
    rewrite !total_cons, IHr. lia.
Qed.

(** An entry stored and then purged leaves no trace: with a counter in the
    [int64] range, [Store] on an empty slot in range followed by a [Purge]
    whose threshold is above the clock reading of the [Store] gives the
    cache, counter included, that the [Purge] alone gives. *)
Theorem Store_then_Purge_leaves_no_trace :
  (forall (c : Bytes.Bytes) (id : Z) (p : list Byte.byte) (tim t : Z),
      Bytes.wf c -> 0 <= id < Bytes.size c ->
      Bytes.vals c !! Z.to_nat id = Some None ->
      int64 (Bytes.mem c) -> tim < t ->
      exists c1,
        Bytes.Store c id p tim = Ok c1
        /\ Bytes.Purge c1 t = Bytes.Purge c t)
  /\ (forall (V : Type) (c : Interface.Interface V) (id : Z) (p : any V)
        (sz tim t : Z),
      Interface.wf c -> 0 <= id < Interface.size c ->
      Interface.vals c !! Z.to_nat id = Some None ->
      int64 (Interface.mem c) -> tim < t ->
      exists c1,
        Interface.Store c id p sz tim = Ok c1
        /\ Interface.Purge c1 t = Interface.Purge c t).
Proof.
  split.
  - intros c id p tim t Hwf Hid Hslot Hm Ht.
    rewrite BytesFacts.bytes_Store_empty by trivial.
    eexists. split; [reflexivity|].
    rewrite !BytesFacts.bytes_Purge_eq.
    cbn [Bytes.vals Bytes.mem Bytes.max Bytes.size].
    destruct (Bytes_insert_expired t
                {| Bytes.lastAccess := tim; Bytes.data := p |}
                (Bytes.vals c) Ht (Z.to_nat id) Hslot) as [Hs Hr].
    rewrite Hs. f_equal.
    unfold add64. rewrite decrement_total, Hr, decrement_int64 by exact Hm.
    cbn [Bytes.data]. f_equal. lia.
  - intros V c id p sz tim t Hwf Hid Hslot Hm Ht.
    rewrite InterfaceFacts.iface_Store_empty by trivial.
    eexists. split; [reflexivity|].
    rewrite !InterfaceFacts.iface_Purge_eq.
    cbn [Interface.vals Interface.mem Interface.max Interface.size].
    destruct (Interface_insert_expired t
                {| Interface.lastAccess := tim; Interface.data := p;
                   Interface.entry_size := sz |}
                (Interface.vals c) Ht (Z.to_nat id) Hslot) as [Hs Hr].
    rewrite Hs. f_equal.
    unfold add64. rewrite decrement_total, Hr, decrement_int64 by exact Hm.
    cbn [Interface.entry_size]. f_equal. lia.
Qed.

Lemma Store_then_Purge_leaves_no_trace_witness :
  exists c1,
    Bytes.Store one_slot 0 abc 100 = Ok c1
    /\ Bytes.Purge c1 200 = Bytes.Purge one_slot 200.
Proof.
  refine (proj1 Store_then_Purge_leaves_no_trace one_slot 0 abc 100 200
            _ _ _ _ _).
  - reflexivity.
  - cbn. lia.
  - reflexivity.
  - unfold int64. cbn. lia.
  - lia.
Defined.

Lemma Bytes_purge_compose (t1 t2 : Z) (vs : list (option Bytes.entryBytes)) :
  Bytes.survivors t2 (Bytes.survivors t1 vs)
  = Bytes.survivors (Z.max t1 t2) vs
  /\ total (Bytes.released (Z.max t1 t2) vs)
     = total (Bytes.released t1 vs)
       + total (Bytes.released t2 (Bytes.survivors t1 vs)).
Proof.
  induction vs as [|o vs [IHs IHr]]; [split; reflexivity|].
  unfold Bytes.survivors in *. cbn [map]. rewrite IHs.
  destruct o as [e|]; cbn [Bytes.expired Bytes.released];
    [|split; [reflexivity|exact IHr]].
  destruct (Z.ltb_spec (Bytes.lastAccess e) t1),
           (Z.ltb_spec (Bytes.lastAccess e) (Z.max t1 t2));
    try lia; cbn [Bytes.expired Bytes.released].
  - split; [reflexivity|]. rewrite !total_cons, IHr. lia.
  - destruct (Z.ltb_spec (Bytes.lastAccess e) t2); [|lia].
    split; [reflexivity|]. rewrite !total_cons, IHr. lia.
  - destruct (Z.ltb_spec (Bytes.lastAccess e) t2); [lia|].
    split; [reflexivity|exact IHr].
Qed.

Lemma Interface_purge_compose {V : Type} (t1 t2 : Z)
  (vs : list (option (Interface.entryInterface V))) :
  Interface.survivors t2 (Interface.survivors t1 vs)
  = Interface.survivors (Z.max t1 t2) vs
  /\ total (Interface.released (Z.max t1 t2) vs)
     = total (Interface.released t1 vs)
       + total (Interface.released t2 (Interface.survivors t1 vs)).
Proof.
  induction vs as [|o vs [IHs IHr]]; [split; reflexivity|].
  unfold Interface.survivors in *. cbn [map]. rewrite IHs.
  destruct o as [e|]; cbn [Interface.expired Interface.released];
    [|split; [reflexivity|exact IHr]].
  destruct (Z.ltb_spec (Interface.lastAccess e) t1),
           (Z.ltb_spec (Interface.lastAccess e) (Z.max t1 t2));
    try lia; cbn [Interface.expired Interface.released].
  - split; [reflexivity|]. rewrite !total_cons, IHr. lia.
  - destruct (Z.ltb_spec (Interface.lastAccess e) t2); [|lia].
    split; [reflexivity|]. rewrite !total_cons, IHr. lia.
  - destruct (Z.ltb_spec (Interface.lastAccess e) t2); [lia|].
    split; [reflexivity|exact IHr].
Qed.

(** Two purges in a row amount to one at the higher threshold: with a
    counter in the [int64] range, [Purge(t1)] then [Purge(t2)] gives the
    cache, counter included, that [Purge(max(t1, t2))] gives, in either
    order. *)
Theorem Purge_then_Purge :
  (forall (c : Bytes.Bytes) (t1 t2 : Z),
      int64 (Bytes.mem c) ->
      Bytes.Purge (Bytes.Purge c t1) t2 = Bytes.Purge c (Z.max t1 t2))
  /\ (forall (V : Type) (c : Interface.Interface V) (t1 t2 : Z),
      int64 (Interface.mem c) ->
      Interface.Purge (Interface.Purge c t1) t2
      = Interface.Purge c (Z.max t1 t2)).
Proof.
  split.
  - intros c t1 t2 Hm.
    rewrite (BytesFacts.bytes_Purge_eq (Bytes.Purge c t1)),
      !(BytesFacts.bytes_Purge_eq c).
    cbn [Bytes.vals Bytes.mem Bytes.max Bytes.size].
    destruct (Bytes_purge_compose t1 t2 (Bytes.vals c)) as [Hs Hr].
    rewrite Hs. f_equal.
    rewrite (decrement_int64 (Bytes.mem c)), decrement_total,
      (decrement_int64 (Bytes.mem c)), Hr by exact Hm.
    f_equal. lia.
  - intros V c t1 t2 Hm.
    rewrite (InterfaceFacts.iface_Purge_eq (Interface.Purge c t1)),
      !(InterfaceFacts.iface_Purge_eq c).
    cbn [Interface.vals Interface.mem Interface.max Interface.size].
    destruct (Interface_purge_compose t1 t2 (Interface.vals c)) as [Hs Hr].
    rewrite Hs. f_equal.
    rewrite (decrement_int64 (Interface.mem c)), decrement_total,
      (decrement_int64 (Interface.mem c)), Hr by exact Hm.
    f_equal. lia.
Qed.

Lemma Purge_then_Purge_witness :
  Bytes.Purge (Bytes.Purge one_entry 50) 200 = Bytes.Purge one_entry 200.
Proof.
  refine (proj1 Purge_then_Purge one_entry 50 200 _).
  unfold int64. cbn. lia.
Defined.

(** A closed cache takes no more writes: from index 0 up [Store], [Replace]
    and [Remove] return it as it is, [Purge] and a second [Close] leave it
    as it is, and the cleaner passes over it without reading the clock. *)
Theorem Close_makes_inert :
  (forall (c : Bytes.Bytes) (id : Z) (p : list Byte.byte) (tim t : Z)
      (clk : nat -> Z) (k : nat),
      0 <= id ->
      Bytes.Store (Bytes.Close c) id p tim = Ok (Bytes.Close c)
      /\ Bytes.Replace (Bytes.Close c) id p tim = Ok (Bytes.Close c)
      /\ Bytes.Remove (Bytes.Close c) id = Ok (Bytes.Close c)
      /\ Bytes.Purge (Bytes.Close c) t = Bytes.Close c
      /\ Bytes.Close (Bytes.Close c) = Bytes.Close c
      /\ cleaner_body1 clk k (Bytes.Close c) = (k, Bytes.Close c))
  /\ (forall (V : Type) (c : Interface.Interface V) (id : Z) (v : any V)
        (p : list Byte.byte) (sz tim t : Z) (clk : nat -> Z) (k : nat),
      0 <= id ->
      Interface.Store (Interface.Close c) id v sz tim
      = Ok (Interface.Close c)
      /\ Interface.Replace (Interface.Close c) id p sz tim
         = Ok (Interface.Close c)
      /\ Interface.Remove (Interface.Close c) id = Ok (Interface.Close c)
      /\ Interface.Purge (Interface.Close c) t = Interface.Close c
      /\ Interface.Close (Interface.Close c) = Interface.Close c
      /\ cleaner_body2 clk k (Interface.Close c) = (k, Interface.Close c)).
Proof.
  split.
  - intros c id p tim t clk k Hid.
    assert (Hsz : Bytes.size (Bytes.Close c) <= id) by (cbn; lia).
    split; [now apply BytesFacts.bytes_Store_above|].
    split; [now apply BytesFacts.bytes_Replace_above|].
    split; [now apply BytesFacts.bytes_Remove_above|].
    repeat split.
  - intros V c id v p sz tim t clk k Hid.
    assert (Hsz : Interface.size (Interface.Close c) <= id) by (cbn; lia).
    split; [now apply InterfaceFacts.iface_Store_above|].
    split; [now apply InterfaceFacts.iface_Replace_above|].
    split; [now apply InterfaceFacts.iface_Remove_above|].
    repeat split.
Qed.

Lemma Close_makes_inert_witness :
  Bytes.Store (Bytes.Close one_entry) 0 abc 200 = Ok (Bytes.Close one_entry)
  /\ Bytes.Replace (Bytes.Close one_entry) 0 abc 200
     = Ok (Bytes.Close one_entry)
  /\ Bytes.Remove (Bytes.Close one_entry) 0 = Ok (Bytes.Close one_entry)
  /\ Bytes.Purge (Bytes.Close one_entry) 300 = Bytes.Close one_entry
  /\ Bytes.Close (Bytes.Close one_entry) = Bytes.Close one_entry
  /\ cleaner_body1 frozen_clock 0 (Bytes.Close one_entry)
     = (0%nat, Bytes.Close one_entry).
Proof.
  refine (proj1 Close_makes_inert one_entry 0 abc 200 300 frozen_clock
            0%nat _).
  lia.
Defined.

(** The counter of a byte cache stays in the [int64] range. *)
Lemma Bytes_mem_int64_exec (c c' : Bytes.Bytes) (k : Bytes.call) :
  int64 (Bytes.mem c) -> Bytes.exec c k = Ok c' -> int64 (Bytes.mem c').
Proof.
  intros Hm. destruct k as [id p tim|id p tim|id|t]; cbn [Bytes.exec].
  - unfold Bytes.Store. destruct (id >=? Bytes.size c); [congruence|].
    destruct (index _ _) as [[e|]|]; cbn [bind]; try congruence.
    destruct (assign _ _ _); cbn [bind]; [|discriminate].
    intros [= <-]. apply wrap64_range.
  - unfold Bytes.Replace. destruct (id >=? Bytes.size c); [congruence|].
    destruct (index _ _) as [[e|]|]; cbn [bind]; try congruence.
    + intros [= <-]. apply wrap64_range.
    + destruct (assign _ _ _); cbn [bind]; [|discriminate].
      intros [= <-]. apply wrap64_range.
  - intros H. rewrite (Bytes_Remove_counter _ _ _ H). exact Hm.
  - intros [= <-]. rewrite BytesFacts.bytes_Purge_eq. cbn [Bytes.mem].
    now apply decrement_range.
Qed.

(** Without [Remove] the counter of a byte cache is always the sum of
    the sizes of its entries: after [NewBytes] and any run of [Store],
    [Replace] and [Purge] that returns, whatever the indices, the counter is
    that sum, as an [int64]. *)
Theorem Bytes_counter_accurate_without_Remove (size megabytes : Z)
  (ks : list Bytes.call) (c c' : Bytes.Bytes) :
  Bytes.alloc size megabytes = Ok c ->
  Forall (fun k => Bytes.is_remove k = false) ks ->
  Bytes.run c ks = Ok c' ->
  Bytes.counted c'.
Proof.
  intros Hc Hks Hrun.
  exact (BytesFacts.bytes_counted_run ks c c'
           (BytesFacts.bytes_wf_alloc _ _ _ Hc)
           (BytesFacts.bytes_counted_alloc _ _ _ Hc) Hks Hrun).
Qed.

Lemma Bytes_counter_accurate_without_Remove_witness :
  Bytes.counted one_entry.
Proof.
  refine (Bytes_counter_accurate_without_Remove 1 1
            [Bytes.CallStore 0 abc 100; Bytes.CallPurge 50;
             Bytes.CallReplace 0 abc 100]
            one_slot one_entry _ _ _).
  - reflexivity.
  - repeat constructor.
  - reflexivity.
Defined.

Lemma Bytes_max_exec (c c' : Bytes.Bytes) (k : Bytes.call) :
  Bytes.exec c k = Ok c' -> Bytes.max c' = Bytes.max c.
Proof.
  destruct k as [id p tim|id p tim|id|t]; cbn [Bytes.exec].
  - unfold Bytes.Store. destruct (id >=? Bytes.size c); [congruence|].
    destruct (index _ _) as [[e|]|]; cbn [bind]; try congruence.
    destruct (assign _ _ _); cbn [bind]; [|discriminate].
    intros [= <-]. reflexivity.
  - unfold Bytes.Replace. destruct (id >=? Bytes.size c); [congruence|].
    destruct (index _ _) as [[e|]|]; cbn [bind]; try congruence.
    + intros [= <-]. reflexivity.
    + destruct (assign _ _ _); cbn [bind]; [|discriminate].
      intros [= <-]. reflexivity.
  - unfold Bytes.Remove. destruct (id >=? Bytes.size c); [congruence|].
    destruct (assign _ _ _); cbn [bind]; [|discriminate].
    intros [= <-]. reflexivity.
  - intros [= <-]. rewrite BytesFacts.bytes_Purge_eq. reflexivity.
Qed.

(** A run within range never panics.  On a byte cache in use, any run of
    [Store], [Replace], [Remove] and [Purge] whose indices are within
    [0, size) returns, and the cache it returns is in use too: same [size],
    same budget, as many slots as [size] says, counter in the [int64]
    range if it was. *)
Theorem Bytes_run_in_range_returns (ks : list Bytes.call) :
  forall c : Bytes.Bytes,
    Bytes.wf c -> Forall (Bytes.in_range (Bytes.size c)) ks ->
    exists c',
      Bytes.run c ks = Ok c'
      /\ Bytes.wf c'
      /\ Bytes.size c' = Bytes.size c
      /\ Bytes.max c' = Bytes.max c
      /\ (int64 (Bytes.mem c) -> int64 (Bytes.mem c')).
Proof.
  induction ks as [|k ks IH]; intros c Hwf Hks; cbn [Bytes.run].
  - exists c. split; [reflexivity|]. split; [exact Hwf|].
    split; [reflexivity|]. split; [reflexivity|]. intros H; exact H.
  - apply Forall_cons in Hks as [Hk Hks].
    destruct (BytesFacts.bytes_exec_returns c k Hwf Hk) as [c1 Hc1].
    rewrite Hc1. cbn [bind].
    pose proof (BytesFacts.bytes_wf_exec _ _ _ Hwf Hc1) as Hwf1.
    pose proof (BytesFacts.bytes_size_exec _ _ _ Hc1) as Hsz1.
    rewrite <- Hsz1 in Hks.
    destruct (IH c1 Hwf1 Hks) as (c' & Hrun & Hwf' & Hsz' & Hmax' & Hm').
    exists c'. split; [exact Hrun|]. split; [exact Hwf'|].
    split; [congruence|].
    split; [rewrite Hmax'; exact (Bytes_max_exec _ _ _ Hc1)|].
    intros Hm. apply Hm'. exact (Bytes_mem_int64_exec _ _ _ Hm Hc1).
Qed.

(** * Further properties of the cleaner *)

(** What follows from the shape of the graduated purge alone, for any kind
    of cache whose purge empties the slots stamped below the threshold and
    leaves the budget alone. *)
Section GraduatedFacts.

Context {C E : Type}.
Variables (cmem cmax : C -> Z) (slots : C -> list (option E)).
Variables (stamp : E -> Z) (purge : C -> Z -> C).

Hypothesis purge_slots : forall (c : C) (t : Z),
  slots (purge c t)
  = map (fun o => if match o with
                     | Some e => stamp e <? t
                     | None => false
                     end then None else o) (slots c).
Hypothesis purge_max : forall (c : C) (t : Z), cmax (purge c t) = cmax c.

Lemma purge_slot_cases (c : C) (t : Z) (i : nat) :
  slots (purge c t) !! i = slots c !! i
  \/ slots (purge c t) !! i = Some None.
Proof.
  rewrite purge_slots, list_lookup_fmap.
  destruct (slots c !! i) as [[e|]|]; cbn; [|tauto..].
  destruct (stamp e <? t); tauto.
Qed.

Lemma purge_slot_kept (c : C) (t : Z) (i : nat) (e : E) :
  slots c !! i = Some (Some e) -> t <= stamp e ->
  slots (purge c t) !! i = Some (Some e).
Proof.
  intros Hi He. rewrite purge_slots, list_lookup_fmap, Hi. cbn.
  destruct (Z.ltb_spec (stamp e) t); [lia|reflexivity].
Qed.

Lemma purge_stamps_below (c : C) (t t' : Z) :
  Forall (fun o => match o with
                   | Some e => stamp e < t'
                   | None => True
                   end) (slots c) ->
  Forall (fun o => match o with
                   | Some e => stamp e < t'
                   | None => True
                   end) (slots (purge c t)).
Proof.
  intros H. rewrite purge_slots. apply Forall_fmap.
  eapply Forall_impl; [exact H|].
  intros [e|] Ho; cbn; [|trivial].
  destruct (stamp e <? t); cbn; trivial.
Qed.

Lemma purge_all_empty (c : C) (t : Z) :
  Forall (fun o => match o with
                   | Some e => stamp e < t
                   | None => True
                   end) (slots c) ->
  Forall (fun o => o = None) (slots (purge c t)).
Proof.
  intros H. rewrite purge_slots. apply Forall_fmap.
  eapply Forall_impl; [exact H|].
  intros [e|] Ho; cbn; [|reflexivity].
  apply Z.ltb_lt in Ho. rewrite Ho. reflexivity.
Qed.

Lemma graduated_frame (clk : nat -> Z) (offsets : list Z) :
  forall (k : nat) (c : C),
    let r := graduated (fun c => cmem c >? cmax c) purge clk k offsets c in
    (k <= fst r <= k + length offsets)%nat
    /\ cmax (snd r) = cmax c
    /\ length (slots (snd r)) = length (slots c)
    /\ forall i : nat,
        slots (snd r) !! i = slots c !! i \/ slots (snd r) !! i = Some None.
Proof.
  induction offsets as [|d rest IH]; intros k c; cbn [graduated length].
  - cbn. repeat split; [lia..|tauto].
  - destruct (cmem c >? cmax c).
    + destruct (IH (S k) (purge c (add64 (clk k) d)))
        as (Hk & Hmax & Hlen & Hslots).
      cbn zeta in *. split; [lia|]. split; [now rewrite Hmax|].
      split; [rewrite Hlen, purge_slots; apply length_map|].
      intros i. destruct (Hslots i) as [H|H]; [|tauto].
      rewrite H. apply purge_slot_cases.
    + cbn. repeat split; [lia..|tauto].
Qed.

Lemma graduated_stops (clk : nat -> Z) (offsets : list Z) :
  forall (k : nat) (c : C),
    let r := graduated (fun c => cmem c >? cmax c) purge clk k offsets c in
    (fst r < k + length offsets)%nat -> cmem (snd r) <= cmax (snd r).
Proof.
  induction offsets as [|d rest IH]; intros k c; cbn [graduated length].
  - cbn. lia.
  - destruct (Z.gtb_spec (cmem c) (cmax c)) as [Hover|Hok].
    + cbn zeta. intros Hk. apply IH. lia.
    + cbn. intros _. exact Hok.
Qed.

Lemma graduated_keeps_recent (clk : nat -> Z) (offsets : list Z) (i : nat)
  (e : E) :
  forall (k : nat) (c : C),
    let r := graduated (fun c => cmem c >? cmax c) purge clk k offsets c in
    slots c !! i = Some (Some e) ->
    (forall (j : nat) (d : Z),
        offsets !! j = Some d -> (S j < length offsets)%nat ->
        add64 (clk (j + k)%nat) d <= stamp e) ->
    (fst r < k + length offsets)%nat ->
    slots (snd r) !! i = Some (Some e).
Proof.
  induction offsets as [|d rest IH]; intros k c; cbn [graduated length].
  - cbn. lia.
  - destruct (cmem c >? cmax c); [|cbn; tauto].
    cbn zeta. intros Hi Hrecent Hk.
    pose proof (graduated_frame clk rest (S k) (purge c (add64 (clk k) d)))
      as (Hlo & _).
    cbn zeta in Hlo.
    destruct rest as [|d' rest'].
    { cbn [length] in *. lia. }
    apply IH; [| |lia].
    + apply purge_slot_kept; [exact Hi|].
      apply (Hrecent 0%nat d); [reflexivity|cbn [length]; lia].
    + intros j dj Hj Hlen.
      replace (j + S k)%nat with (S j + k)%nat by lia.
      apply Hrecent; [exact Hj|cbn [length] in *; lia].
Qed.

Variable accurate : C -> Prop.
Hypothesis purge_accurate : forall (c : C) (t : Z),
  accurate c -> accurate (purge c t).
Hypothesis accurate_empty : forall c : C,
  accurate c -> Forall (fun o => o = None) (slots c) -> cmem c = 0.

Lemma graduated_settles (clk : nat -> Z) (offsets : list Z) :
  forall (k : nat) (c : C),
    let r := graduated (fun c => cmem c >? cmax c) purge clk k offsets c in
    offsets <> [] -> accurate c -> 0 <= cmax c ->
    Forall (fun o => match o with
                     | Some e =>
                         stamp e < add64 (clk (length offsets - 1 + k)%nat)
                                     (List.last offsets 0)
                     | None => True
                     end) (slots c) ->
    cmem (snd r) <= cmax (snd r).
Proof.
  induction offsets as [|d rest IH]; intros k c; [cbn; congruence|].
  cbn [graduated].
  destruct (Z.gtb_spec (cmem c) (cmax c)) as [Hover|Hok]; [|cbn; tauto].
  cbn zeta. intros _ Hacc Hmax Hall.
  destruct rest as [|d' rest'].
  - cbn [graduated snd length List.last Nat.sub Nat.add] in *.
    rewrite purge_max,
      (accurate_empty _ (purge_accurate _ _ Hacc) (purge_all_empty _ _ Hall)).
    exact Hmax.
  - apply IH; [discriminate|now apply purge_accurate|now rewrite purge_max|].
    apply purge_stamps_below.
    replace (length (d' :: rest') - 1 + S k)%nat
      with (length (d :: d' :: rest') - 1 + k)%nat by (cbn [length]; lia).
    exact Hall.
Qed.

End GraduatedFacts.

Lemma Interface_live_survivors {V : Type} (t : Z)
  (vs : list (option (Interface.entryInterface V))) :
  Interface.live (Interface.survivors t vs)
  = Interface.live vs - total (Interface.released t vs).
Proof.
  induction vs as [|[e|] vs IH]; [reflexivity| |].
  - change (Interface.survivors t (Some e :: vs))
      with ((if Interface.lastAccess e <? t then None else Some e)
              :: Interface.survivors t vs).
    cbn [Interface.released].
    change (Interface.live (?o :: ?l))
      with (Interface.slot_size o + Interface.live l).
    rewrite IH.
    destruct (Interface.lastAccess e <? t); cbn [Interface.slot_size];
      rewrite ?total_cons; lia.
  - change (Interface.survivors t (None :: vs))
      with (None :: Interface.survivors t vs).
    cbn [Interface.released].
    change (Interface.live (?o :: ?l))
      with (Interface.slot_size o + Interface.live l).
    rewrite IH. cbn [Interface.slot_size]. lia.
Qed.

Lemma Legacy_live_survivors (t : Z) (vs : list (option Legacy.entry)) :
  Legacy.live (Legacy.survivors t vs)
  = Legacy.live vs - total (Legacy.released t vs).
Proof.
  induction vs as [|[e|] vs IH]; [reflexivity| |].
  - change (Legacy.survivors t (Some e :: vs))
      with ((if Legacy.lastAccess e <? t then None else Some e)
              :: Legacy.survivors t vs).
    cbn [Legacy.released].
    change (Legacy.live (?o :: ?l)) with (Legacy.slot_size o + Legacy.live l).
    rewrite IH.
    destruct (Legacy.lastAccess e <? t); cbn [Legacy.slot_size];
      rewrite ?total_cons; lia.
  - change (Legacy.survivors t (None :: vs))
      with (None :: Legacy.survivors t vs).
    cbn [Legacy.released].
    change (Legacy.live (?o :: ?l)) with (Legacy.slot_size o + Legacy.live l).
    rewrite IH. cbn [Legacy.slot_size]. lia.
Qed.

(** [Purge] keeps an accurate counter accurate. *)
Lemma Bytes_Purge_counted (c : Bytes.Bytes) (t : Z) :
  Bytes.counted c -> Bytes.counted (Bytes.Purge c t).
Proof.
  unfold Bytes.counted. intros Hc. rewrite BytesFacts.bytes_Purge_eq.
  cbn [Bytes.vals Bytes.mem].
  rewrite Hc, decrement_total, BytesFacts.bytes_live_survivors. reflexivity.
Qed.

Lemma Interface_Purge_counted {V : Type} (c : Interface.Interface V) (t : Z) :
  Interface.counted c -> Interface.counted (Interface.Purge c t).
Proof.
  unfold Interface.counted. intros Hc. rewrite InterfaceFacts.iface_Purge_eq.
  cbn [Interface.vals Interface.mem].
  rewrite Hc, decrement_total, Interface_live_survivors. reflexivity.
Qed.

Lemma Legacy_Purge_counted (c : Legacy.cache) (t : Z) :
  Legacy.counted c -> Legacy.counted (Legacy.Purge c t).
Proof.
  unfold Legacy.counted. intros Hc. rewrite LegacyFacts.legacy_Purge_eq.
  cbn [Legacy.vals Legacy.mem].
  rewrite Hc, decrement_total, Legacy_live_survivors. reflexivity.
Qed.

Lemma Bytes_counted_empty (c : Bytes.Bytes) :
  Bytes.counted c -> Forall (fun o => o = None) (Bytes.vals c) ->
  Bytes.mem c = 0.
Proof.
  unfold Bytes.counted. intros -> H.
  induction H as [|o vs -> _ IH]; [reflexivity|exact IH].
Qed.

Lemma Interface_counted_empty {V : Type} (c : Interface.Interface V) :
  Interface.counted c -> Forall (fun o => o = None) (Interface.vals c) ->
  Interface.mem c = 0.
Proof.
  unfold Interface.counted. intros -> H.
  induction H as [|o vs -> _ IH]; [reflexivity|exact IH].
Qed.

Lemma Legacy_counted_empty (c : Legacy.cache) :
  Legacy.counted c -> Forall (fun o => o = None) (Legacy.vals c) ->
  Legacy.mem c = 0.
Proof.
  unfold Legacy.counted. intros -> H.
  induction H as [|o vs -> _ IH]; [reflexivity|exact IH].
Qed.

Lemma Bytes_Purge_slots (c : Bytes.Bytes) (t : Z) :
  Bytes.vals (Bytes.Purge c t)
  = map (fun o => if match o with
                     | Some e => Bytes.lastAccess e <? t
                     | None => false
                     end then None else o) (Bytes.vals c).
Proof. rewrite BytesFacts.bytes_Purge_eq. reflexivity. Qed.

Lemma Interface_Purge_slots {V : Type} (c : Interface.Interface V) (t : Z) :
  Interface.vals (Interface.Purge c t)
  = map (fun o => if match o with
                     | Some e => Interface.lastAccess e <? t
                     | None => false
                     end then None else o) (Interface.vals c).
Proof. rewrite InterfaceFacts.iface_Purge_eq. reflexivity. Qed.

Lemma Legacy_Purge_slots (c : Legacy.cache) (t : Z) :
  Legacy.vals (Legacy.Purge c t)
  = map (fun o => if match o with
                     | Some e => Legacy.lastAccess e <? t
                     | None => false
                     end then None else o) (Legacy.vals c).
Proof. rewrite LegacyFacts.legacy_Purge_eq. reflexivity. Qed.

Lemma Bytes_Purge_max (c : Bytes.Bytes) (t : Z) :
  Bytes.max (Bytes.Purge c t) = Bytes.max c.
Proof. rewrite BytesFacts.bytes_Purge_eq. reflexivity. Qed.

Lemma Interface_Purge_max {V : Type} (c : Interface.Interface V) (t : Z) :
  Interface.max (Interface.Purge c t) = Interface.max c.
Proof. rewrite InterfaceFacts.iface_Purge_eq. reflexivity. Qed.

Lemma Legacy_Purge_max (c : Legacy.cache) (t : Z) :
  Legacy.max (Legacy.Purge c t) = Legacy.max c.
Proof. rewrite LegacyFacts.legacy_Purge_eq. reflexivity. Qed.

(** The sweep brings a cache whose counter is accurate within its budget.
    When the counter is the sum of the sizes of the entries, the budget is
    not negative and every timestamp is below the threshold of the last
    stage (an hour past its clock reading), the cache the body of either
    loop returns has its counter at or below its budget; so has the one the
    body of the loop of cache.go returns. *)
Theorem sweep_settles_accurate_cache :
  (forall (clk : nat -> Z) (k : nat) (c : Bytes.Bytes),
      Bytes.counted c -> 0 <= Bytes.max c ->
      Forall (fun o => match o with
                       | Some e =>
                           Bytes.lastAccess e
                           < add64 (clk (S (S (S (S k))))) 3600
                       | None => True
                       end) (Bytes.vals c) ->
      Bytes.mem (snd (cleaner_body1 clk k c))
      <= Bytes.max (snd (cleaner_body1 clk k c)))
  /\ (forall (V : Type) (clk : nat -> Z) (k : nat)
        (c : Interface.Interface V),
      Interface.counted c -> 0 <= Interface.max c ->
      Forall (fun o => match o with
                       | Some e =>
                           Interface.lastAccess e
                           < add64 (clk (S (S (S (S k))))) 3600
                       | None => True
                       end) (Interface.vals c) ->
      Interface.mem (snd (cleaner_body2 clk k c))
      <= Interface.max (snd (cleaner_body2 clk k c)))
  /\ (forall (clk : nat -> Z) (k : nat) (c : Legacy.cache),
      Legacy.counted c -> 0 <= Legacy.max c ->
      Forall (fun o => match o with
                       | Some e =>
                           Legacy.lastAccess e
                           < add64 (clk (S (S (S k)))) 3600
                       | None => True
                       end) (Legacy.vals c) ->
      Legacy.mem (snd (Legacy.cleaner_body clk k c))
      <= Legacy.max (snd (Legacy.cleaner_body clk k c))).
Proof.
  split; [|split].
  - intros clk k c Hc Hmax Hall.
    refine (graduated_settles Bytes.mem Bytes.max Bytes.vals
              Bytes.lastAccess Bytes.Purge Bytes_Purge_slots Bytes_Purge_max
              Bytes.counted Bytes_Purge_counted Bytes_counted_empty
              clk stages k c _ Hc Hmax Hall).
    discriminate.
  - intros V clk k c Hc Hmax Hall.
    refine (graduated_settles Interface.mem Interface.max Interface.vals
              Interface.lastAccess Interface.Purge Interface_Purge_slots
              Interface_Purge_max Interface.counted Interface_Purge_counted
              Interface_counted_empty clk stages k c _ Hc Hmax Hall).
    discriminate.
  - intros clk k c Hc Hmax Hall.
    refine (graduated_settles Legacy.mem Legacy.max Legacy.vals
              Legacy.lastAccess Legacy.Purge Legacy_Purge_slots
              Legacy_Purge_max Legacy.counted Legacy_Purge_counted
              Legacy_counted_empty clk (tail stages) k c _ Hc Hmax Hall).
    discriminate.
Qed.

Lemma samples_are_built :
  two_entries = Ok two_entries_built
  /\ (let* c := Bytes.alloc 1 0 in Bytes.Store c 0 abc 100) = Ok tight_entry
  /\ (let* c := Legacy.alloc 1 0 in Legacy.Store c 0 abc 100)
     = Ok tight_legacy
  /\ (let* c := Bytes.alloc 1 0 in
      let* c := Bytes.Store c 0 abc 100 in Bytes.Remove c 0) = Ok drifted.
Proof. repeat split. Qed.

Lemma sweep_settles_accurate_cache_witness :
  Bytes.mem (snd (cleaner_body1 frozen_clock 0 tight_entry))
  <= Bytes.max (snd (cleaner_body1 frozen_clock 0 tight_entry))
  /\ Interface.mem (snd (cleaner_body2 frozen_clock 0 two_entries_built))
     <= Interface.max (snd (cleaner_body2 frozen_clock 0 two_entries_built))
  /\ Legacy.mem (snd (Legacy.cleaner_body frozen_clock 0 tight_legacy))
     <= Legacy.max (snd (Legacy.cleaner_body frozen_clock 0 tight_legacy)).
Proof.
  destruct sweep_settles_accurate_cache as (HB & HI & HL).
  split; [|split].
  - apply HB; [reflexivity|cbn; lia|].
    repeat constructor.
  - apply HI; [reflexivity|cbn; lia|].
    repeat constructor.
  - apply HL; [reflexivity|cbn; lia|].
    repeat constructor.
Defined.

Lemma Bytes_Purge_size (c : Bytes.Bytes) (t : Z) :
  Bytes.size (Bytes.Purge c t) = Bytes.size c.
Proof. rewrite BytesFacts.bytes_Purge_eq. reflexivity. Qed.

Lemma Interface_Purge_size {V : Type} (c : Interface.Interface V) (t : Z) :
  Interface.size (Interface.Purge c t) = Interface.size c.
Proof. rewrite InterfaceFacts.iface_Purge_eq. reflexivity. Qed.

(** What the sweep of one cache never does.  The body of either loop
    reads the clock at most five times; it returns a cache with the same
    budget, the same [size] and the same number of slots, in which every
    slot is what it was or empty: no entry is added, moved or altered.  If
    it read the clock fewer than five times, the cache it returns is within
    budget. *)
Theorem sweep_only_empties_slots :
  (forall (clk : nat -> Z) (k : nat) (c : Bytes.Bytes),
      let r := cleaner_body1 clk k c in
      (k <= fst r <= k + 5)%nat
      /\ Bytes.max (snd r) = Bytes.max c
      /\ Bytes.size (snd r) = Bytes.size c
      /\ length (Bytes.vals (snd r)) = length (Bytes.vals c)
      /\ (forall i : nat,
             Bytes.vals (snd r) !! i = Bytes.vals c !! i
             \/ Bytes.vals (snd r) !! i = Some None)
      /\ ((fst r < k + 5)%nat -> Bytes.mem (snd r) <= Bytes.max (snd r)))
  /\ (forall (V : Type) (clk : nat -> Z) (k : nat)
        (c : Interface.Interface V),
      let r := cleaner_body2 clk k c in
      (k <= fst r <= k + 5)%nat
      /\ Interface.max (snd r) = Interface.max c
      /\ Interface.size (snd r) = Interface.size c
      /\ length (Interface.vals (snd r)) = length (Interface.vals c)
      /\ (forall i : nat,
             Interface.vals (snd r) !! i = Interface.vals c !! i
             \/ Interface.vals (snd r) !! i = Some None)
      /\ ((fst r < k + 5)%nat ->
          Interface.mem (snd r) <= Interface.max (snd r))).
Proof.
  split.
  - intros clk k c r.
    destruct (graduated_frame Bytes.mem Bytes.max Bytes.vals
                Bytes.lastAccess Bytes.Purge Bytes_Purge_slots
                Bytes_Purge_max clk stages k c) as (Hk & Hmax & Hlen & Hsl).
    split; [exact Hk|]. split; [exact Hmax|]. split.
    { subst r. unfold cleaner_body1.
      repeat match goal with
             | |- context [if ?b then _ else _] => destruct b
             end; cbn [snd]; rewrite ?Bytes_Purge_size; reflexivity. }
    split; [exact Hlen|]. split; [exact Hsl|].
    exact (graduated_stops Bytes.mem Bytes.max Bytes.Purge clk stages k c).
  - intros V clk k c r.
    destruct (graduated_frame Interface.mem Interface.max Interface.vals
                Interface.lastAccess Interface.Purge Interface_Purge_slots
                Interface_Purge_max clk stages k c)
      as (Hk & Hmax & Hlen & Hsl).
    split; [exact Hk|]. split; [exact Hmax|]. split.
    { subst r. unfold cleaner_body2.
      repeat match goal with
             | |- context [if ?b then _ else _] => destruct b
             end; cbn [snd]; rewrite ?Interface_Purge_size; reflexivity. }
    split; [exact Hlen|]. split; [exact Hsl|].
    exact (graduated_stops Interface.mem Interface.max Interface.Purge clk
             stages k c).
Qed.

Lemma sweep_only_empties_slots_witness :
  Interface.mem (snd (cleaner_body2 frozen_clock 0 two_entries_built))
  <= Interface.max (snd (cleaner_body2 frozen_clock 0 two_entries_built)).
Proof.
  destruct (proj2 sweep_only_empties_slots unit frozen_clock 0%nat
              two_entries_built) as (_ & _ & _ & _ & _ & Hstop).
  apply Hstop. apply Nat.ltb_lt. vm_compute. reflexivity.
Defined.

(** An entry used within the last ten minutes is only ever evicted by the
    last stage.  With a clock that does not go back over the first four
    readings and thresholds that do not overflow, an entry whose timestamp
    is at most 600 seconds before the fourth reading is still in its slot,
    unchanged, after the sweep of either loop, unless the sweep went through
    all five stages. *)
Theorem sweep_spares_recent_entries :
  (forall (clk : nat -> Z) (k : nat) (c : Bytes.Bytes) (i : nat)
      (e : Bytes.entryBytes),
      let r := cleaner_body1 clk k c in
      Bytes.vals c !! i = Some (Some e) ->
      clk k <= clk (S k) -> clk (S k) <= clk (S (S k)) ->
      clk (S (S k)) <= clk (S (S (S k))) ->
      int64 (clk k - 432000) -> int64 (clk (S (S (S k))) - 600) ->
      clk (S (S (S k))) - Bytes.lastAccess e <= 600 ->
      (fst r < k + 5)%nat ->
      Bytes.vals (snd r) !! i = Some (Some e))
  /\ (forall (V : Type) (clk : nat -> Z) (k : nat)
        (c : Interface.Interface V) (i : nat)
        (e : Interface.entryInterface V),
      let r := cleaner_body2 clk k c in
      Interface.vals c !! i = Some (Some e) ->
      clk k <= clk (S k) -> clk (S k) <= clk (S (S k)) ->
      clk (S (S k)) <= clk (S (S (S k))) ->
      int64 (clk k - 432000) -> int64 (clk (S (S (S k))) - 600) ->
      clk (S (S (S k))) - Interface.lastAccess e <= 600 ->
      (fst r < k + 5)%nat ->
      Interface.vals (snd r) !! i = Some (Some e)).
Proof.
  assert (Hthr : forall (clk : nat -> Z) (k : nat) (la : Z),
             clk k <= clk (S k) -> clk (S k) <= clk (S (S k)) ->
             clk (S (S k)) <= clk (S (S (S k))) ->
             int64 (clk k - 432000) -> int64 (clk (S (S (S k))) - 600) ->
             clk (S (S (S k))) - la <= 600 ->
             forall (j : nat) (d : Z),
               stages !! j = Some d -> (S j < length stages)%nat ->
               add64 (clk (j + k)%nat) d <= la).
  { intros clk k la H01 H12 H23 Hlo Hhi Hla j d Hj Hlen.
    unfold int64 in *.
    destruct j as [|[|[|[|j]]]]; cbn [length stages] in Hlen; try lia;
      injection Hj as <-; cbn [Nat.add]; unfold add64;
      rewrite wrap64_small by (unfold int64; lia); lia. }
  split.
  - intros clk k c i e r Hi H01 H12 H23 Hlo Hhi Hla Hk.
    exact (graduated_keeps_recent Bytes.mem Bytes.max Bytes.vals
             Bytes.lastAccess Bytes.Purge Bytes_Purge_slots Bytes_Purge_max
             clk stages i e k c Hi
             (Hthr clk k _ H01 H12 H23 Hlo Hhi Hla) Hk).
  - intros V clk k c i e r Hi H01 H12 H23 Hlo Hhi Hla Hk.
    exact (graduated_keeps_recent Interface.mem Interface.max Interface.vals
             Interface.lastAccess Interface.Purge Interface_Purge_slots
             Interface_Purge_max clk stages i e k c Hi
             (Hthr clk k _ H01 H12 H23 Hlo Hhi Hla) Hk).
Qed.

(** An entry stored at 999500, 500 seconds before the frozen clock. *)
Lemma sweep_spares_recent_entries_witness :
  let e := {| Interface.lastAccess := 999500;
              Interface.data := OfValue tt;
              Interface.entry_size := 1024 |} in
  let c := {| Interface.vals := [Some e;
                Some {| Interface.lastAccess := 500000;
                        Interface.data := OfValue tt;
                        Interface.entry_size := 1024 |}];
              Interface.mem := 2048; Interface.max := 1024;
              Interface.size := 2 |} in
  Interface.vals (snd (cleaner_body2 frozen_clock 0 c)) !! 0%nat
  = Some (Some e).
Proof.
  intros e c.
  refine (proj2 sweep_spares_recent_entries unit frozen_clock 0%nat c 0%nat e
            _ _ _ _ _ _ _ _).
  - reflexivity.
  - unfold frozen_clock. lia.
  - unfold frozen_clock. lia.
  - unfold frozen_clock. lia.
  - unfold frozen_clock, int64. lia.
  - unfold frozen_clock, int64. lia.
  - unfold frozen_clock. cbn. lia.
  - apply Nat.ltb_lt. vm_compute. reflexivity.
Defined.

Lemma Bytes_Purge_empty_slots (c : Bytes.Bytes) (t : Z) :
  Forall (fun o => o = None) (Bytes.vals c) -> Bytes.Purge c t = c.
Proof.
  rewrite BytesFacts.bytes_Purge_eq. destruct c as [vs m mx sz].
  cbn [Bytes.vals Bytes.mem Bytes.max Bytes.size]. intros H.
  assert (Bytes.survivors t vs = vs /\ Bytes.released t vs = []) as [-> ->].
  { induction H as [|o vs' -> _ [IHs IHr]]; [split; reflexivity|].
    unfold Bytes.survivors in *. cbn. rewrite IHs. split; [reflexivity|].
    exact IHr. }
  reflexivity.
Qed.

Lemma Interface_Purge_empty_slots {V : Type} (c : Interface.Interface V)
  (t : Z) :
  Forall (fun o => o = None) (Interface.vals c) -> Interface.Purge c t = c.
Proof.
  rewrite InterfaceFacts.iface_Purge_eq. destruct c as [vs m mx sz].
  cbn [Interface.vals Interface.mem Interface.max Interface.size]. intros H.
  assert (Interface.survivors t vs = vs /\ Interface.released t vs = [])
    as [-> ->].
  { induction H as [|o vs' -> _ [IHs IHr]]; [split; reflexivity|].
    unfold Interface.survivors in *. cbn. rewrite IHs. split; [reflexivity|].
    exact IHr. }
  reflexivity.
Qed.

(** The sweep cannot repair a counter that has drifted.  A cache with no
    entry left whose counter is still above its budget, as [Remove] leaves
    one, goes through all five stages at every sweep, reading the clock
    five times, and comes out as it went in, still over budget. *)
Theorem sweep_cannot_repair_drift :
  (forall (clk : nat -> Z) (k : nat) (c : Bytes.Bytes),
      Forall (fun o => o = None) (Bytes.vals c) ->
      Bytes.mem c > Bytes.max c ->
      cleaner_body1 clk k c = (S (S (S (S (S k)))), c))
  /\ (forall (V : Type) (clk : nat -> Z) (k : nat)
        (c : Interface.Interface V),
      Forall (fun o => o = None) (Interface.vals c) ->
      Interface.mem c > Interface.max c ->
      cleaner_body2 clk k c = (S (S (S (S (S k)))), c)).
Proof.
  split.
  - intros clk k c Hempty Hover. unfold cleaner_body1.
    assert (Hgt : (Bytes.mem c >? Bytes.max c) = true)
      by (destruct (Z.gtb_spec (Bytes.mem c) (Bytes.max c)); [trivial|lia]).
    cbv zeta.
    repeat (rewrite Hgt || rewrite (Bytes_Purge_empty_slots c) by exact Hempty).
    reflexivity.
  - intros V clk k c Hempty Hover. unfold cleaner_body2.
    assert (Hgt : (Interface.mem c >? Interface.max c) = true)
      by (destruct (Z.gtb_spec (Interface.mem c) (Interface.max c));
          [trivial|lia]).
    cbv zeta.
    repeat (rewrite Hgt
            || rewrite (Interface_Purge_empty_slots c) by exact Hempty).
    reflexivity.
Qed.

Lemma sweep_cannot_repair_drift_witness :
  cleaner_body1 frozen_clock 0 drifted = (5%nat, drifted).
Proof.
  refine (proj1 sweep_cannot_repair_drift frozen_clock 0%nat drifted _ _).
  - repeat constructor.
  - reflexivity.
Defined.

(** * Further properties of the registries *)

Section RegistryFacts.

Context {V : Type}.
Implicit Types (w : World V) (st : nat * World V).

Lemma visit1_shape (clk : nat -> Z) st (a : nat) :
  caches1 (snd (visit1 clk st a)) = caches1 (snd st)
  /\ length (store1 (snd (visit1 clk st a))) = length (store1 (snd st)).
Proof.
  destruct st as [k w]. unfold visit1.
  destruct (store1 w !! a) as [c|]; [|split; reflexivity].
  destruct (cleaner_body1 clk k c). cbn [snd caches1 store1].
  split; [reflexivity|apply length_insert].
Qed.

Lemma visit2_shape (clk : nat -> Z) st (a : nat) :
  caches1 (snd (visit2 clk st a)) = caches1 (snd st)
  /\ caches2 (snd (visit2 clk st a)) = caches2 (snd st)
  /\ length (store2 (snd (visit2 clk st a))) = length (store2 (snd st)).
Proof.
  destruct st as [k w]. unfold visit2.
  destruct (store2 w !! a) as [c|]; [|repeat split; reflexivity].
  destruct (cleaner_body2 clk k c). cbn [snd caches1 caches2 store2].
  repeat split. apply length_insert.
Qed.

Lemma sweep1_shape (clk : nat -> Z) (l : list nat) :
  forall st,
    caches1 (snd (fold_left (visit1 clk) l st)) = caches1 (snd st)
    /\ length (store1 (snd (fold_left (visit1 clk) l st)))
       = length (store1 (snd st)).
Proof.
  induction l as [|a l IH]; intros st; cbn [fold_left]; [split; reflexivity|].
  destruct (IH (visit1 clk st a)) as [-> ->]. apply visit1_shape.
Qed.

Lemma sweep2_shape (clk : nat -> Z) (l : list nat) :
  forall st,
    caches1 (snd (fold_left (visit2 clk) l st)) = caches1 (snd st)
    /\ caches2 (snd (fold_left (visit2 clk) l st)) = caches2 (snd st)
    /\ length (store2 (snd (fold_left (visit2 clk) l st)))
       = length (store2 (snd st)).
Proof.
  induction l as [|a l IH]; intros st; cbn [fold_left];
    [repeat split; reflexivity|].
  destruct (IH (visit2 clk st a)) as (-> & -> & ->). apply visit2_shape.
Qed.

Lemma tick_shape (clk : nat -> Z) st :
  caches1 (snd (cleaner_tick clk st)) = caches1 (snd st)
  /\ caches2 (snd (cleaner_tick clk st)) = caches2 (snd st)
  /\ length (store1 (snd (cleaner_tick clk st))) = length (store1 (snd st))
  /\ length (store2 (snd (cleaner_tick clk st))) = length (store2 (snd st)).
Proof.
  unfold cleaner_tick.
  set (st1 := fold_left (visit1 clk) (caches1 (snd st)) st).
  destruct (sweep2_shape clk (caches2 (snd st1)) st1) as (-> & -> & ->).
  rewrite sweep2_store1. subst st1.
  destruct (sweep1_shape clk (caches1 (snd st)) st) as [-> ->].
  destruct (sweep1_store2 clk (caches1 (snd st)) st) as [-> ->].
  repeat split.
Qed.

Lemma perform_shape st st' (act : action) :
  perform st act = Ok st' ->
  caches1 (snd st) `prefix_of` caches1 (snd st')
  /\ caches2 (snd st) `prefix_of` caches2 (snd st')
  /\ (caches1 (snd st) = seq 0 (length (store1 (snd st))) ->
      caches1 (snd st') = seq 0 (length (store1 (snd st'))))
  /\ (caches2 (snd st) = seq 0 (length (store2 (snd st))) ->
      caches2 (snd st') = seq 0 (length (store2 (snd st')))).
Proof.
  destruct st as [k w]. cbn [snd fst].
  destruct act as [size mb|size mb|a|a|clk]; cbn [perform snd fst].
  - unfold NewBytes. destruct (Bytes.alloc size mb) as [c|]; cbn [bind];
      [|discriminate].
    intros [= <-]. cbn [snd caches1 caches2 store1 store2].
    split; [now apply prefix_app_r|]. split; [reflexivity|].
    split; [|trivial].
    intros ->. rewrite length_app. cbn [length].
    rewrite Nat.add_1_r, seq_S. reflexivity.
  - unfold New. destruct (Interface.alloc size mb) as [c|]; cbn [bind];
      [|discriminate].
    intros [= <-]. cbn [snd caches1 caches2 store1 store2].
    split; [reflexivity|]. split; [now apply prefix_app_r|].
    split; [trivial|].
    intros ->. rewrite length_app. cbn [length].
    rewrite Nat.add_1_r, seq_S. reflexivity.
  - intros [= <-]. cbn [snd close1 caches1 caches2 store1 store2].
    rewrite length_alter. repeat split; trivial.
  - intros [= <-]. cbn [snd close2 caches1 caches2 store1 store2].
    rewrite length_alter. repeat split; trivial.
  - intros [= <-].
    destruct (tick_shape clk (k, w)) as (-> & -> & -> & ->).
    cbn [snd]. repeat split; trivial.
Qed.

Lemma perform_all_shape (acts : list action) :
  forall st st',
    perform_all st acts = Ok st' ->
    caches1 (snd st) `prefix_of` caches1 (snd st')
    /\ caches2 (snd st) `prefix_of` caches2 (snd st')
    /\ (caches1 (snd st) = seq 0 (length (store1 (snd st))) ->
        caches1 (snd st') = seq 0 (length (store1 (snd st'))))
    /\ (caches2 (snd st) = seq 0 (length (store2 (snd st))) ->
        caches2 (snd st') = seq 0 (length (store2 (snd st')))).
Proof.
  induction acts as [|act acts IH]; intros st st'; cbn [perform_all].
  - intros [= <-]. repeat split; trivial.
  - destruct (perform st act) as [st1|] eqn:H1; cbn [bind]; [|discriminate].
    intros H2.
    destruct (perform_shape _ _ _ H1) as (Hp1 & Hp2 & Hi1 & Hi2).
    destruct (IH _ _ H2) as (Hq1 & Hq2 & Hj1 & Hj2).
    split; [now transitivity (caches1 (snd st1))|].
    split; [now transitivity (caches2 (snd st1))|].
    split; auto.
Qed.

End RegistryFacts.

(** No cache is ever taken off a registry.  Whatever a program does next
    (build caches, close some through their pointers, let the cleaner go
    round), each registry it ends with starts with the registry it had:
    [Close] does not deregister and the cleaner only reads the
    registries. *)
Theorem registries_only_grow {V : Type} (acts : list action)
  (st st' : nat * World V) :
  perform_all st acts = Ok st' ->
  caches1 (snd st) `prefix_of` caches1 (snd st')
  /\ caches2 (snd st) `prefix_of` caches2 (snd st').
Proof.
  intros H. destruct (perform_all_shape acts st st' H) as (H1 & H2 & _).
  split; assumption.
Qed.

Lemma registries_only_grow_witness :
  caches1 two_caches `prefix_of` [0%nat; 1%nat]
  /\ caches2 two_caches `prefix_of` [0%nat].
Proof.
  refine (registries_only_grow
            [ActCloseBytes 0; ActNewBytes 4 100; ActTick frozen_clock]
            (0%nat, two_caches)
            (0%nat,
             {| store1 := [Bytes.Close one_entry;
                           {| Bytes.vals := replicate 4 None; Bytes.mem := 0;
                              Bytes.max := 104857600; Bytes.size := 4 |}];
                caches1 := [0%nat; 1%nat];
                store2 := [one_entry_any];
                caches2 := [0%nat] |}) _).
  reflexivity.
Defined.

(** Every cache built is registered exactly once.  In a program that
    starts with no cache, after any run that returns, the registry of each
    variant lists the addresses of all the caches of that variant, closed
    ones included, once each and in the order they were built. *)
Theorem registries_list_every_cache {V : Type} (acts : list action)
  (st' : nat * World V) :
  perform_all (0%nat, empty_world) acts = Ok st' ->
  caches1 (snd st') = seq 0 (length (store1 (snd st')))
  /\ caches2 (snd st') = seq 0 (length (store2 (snd st')))
  /\ NoDup (caches1 (snd st')) /\ NoDup (caches2 (snd st')).
Proof.
  intros H.
  destruct (perform_all_shape acts _ st' H) as (_ & _ & H1 & H2).
  specialize (H1 eq_refl). specialize (H2 eq_refl).
  rewrite H1, H2. repeat split; apply NoDup_seq.
Qed.

Lemma registries_list_every_cache_witness :
  let w := {| store1 := [Bytes.Close one_slot]; caches1 := [0%nat];
              store2 := [one_slot_any]; caches2 := [0%nat] |} in
  caches1 w = seq 0 (length (store1 w))
  /\ caches2 w = seq 0 (length (store2 w))
  /\ NoDup (caches1 w) /\ NoDup (caches2 w).
Proof.
  intros w.
  refine (registries_list_every_cache
            [ActNewBytes 1 1; ActNew 1 1; ActCloseBytes 0;
             ActTick frozen_clock] (0%nat, w) _).
  reflexivity.
Defined.

(** * The methods of cache.go *)

Lemma index_inv {A : Type} (s : list A) (i : Z) (x : A) :
  index s i = Ok x -> 0 <= i /\ s !! Z.to_nat i = Some x.
Proof.
  unfold index. destruct (Z.ltb_spec i 0); [discriminate|].
  destruct (s !! Z.to_nat i); [|discriminate].
  intros [= ->]. split; [lia|reflexivity].
Qed.

Lemma assign_inv {A : Type} (s s' : list A) (i : Z) (x : A) :
  assign s i x = Ok s' -> s' = <[Z.to_nat i := x]> s.
Proof.
  unfold assign. destruct (i <? 0); [discriminate|].
  destruct (Z.to_nat i <? length s)%nat; [|discriminate].
  intros [= <-]. reflexivity.
Qed.

Lemma index_above {A : Type} (s : list A) (i : Z) :
  len s <= i -> index s i = Panic.
Proof.
  unfold len, index. intros Hi. destruct (i <? 0); [reflexivity|].
  rewrite lookup_ge_None_2 by lia. reflexivity.
Qed.

(** The methods of cache.go have no bounds check: at any index below zero
    or at or above the number of slots, [Get], [Store] and [Replace] panic,
    where those of the later package return at or above [size]. *)
Theorem Legacy_out_of_range_panics (c : Legacy.cache) (id : Z)
  (p : list Byte.byte) (tim : Z) :
  id < 0 \/ len (Legacy.vals c) <= id ->
  Legacy.Get c id tim = Panic
  /\ Legacy.Store c id p tim = Panic
  /\ Legacy.Replace c id p tim = Panic.
Proof.
  intros Hid.
  assert (Hidx : index (Legacy.vals c) id = Panic).
  { destruct Hid; [now apply index_negative|now apply index_above]. }
  unfold Legacy.Get, Legacy.Store, Legacy.Replace. rewrite Hidx.
  repeat split.
Qed.

Lemma Legacy_out_of_range_panics_witness :
  Legacy.Get tight_legacy 999 200 = Panic
  /\ Legacy.Store tight_legacy 999 abc 200 = Panic
  /\ Legacy.Replace tight_legacy 999 abc 200 = Panic.
Proof.
  refine (Legacy_out_of_range_panics tight_legacy 999 abc 200 _).
  right. unfold len. cbn. lia.
Defined.

Lemma Legacy_live_insert (vs : list (option Legacy.entry)) :
  forall (i : nat) (o o' : option Legacy.entry),
    vs !! i = Some o ->
    Legacy.live (<[i := o']> vs)
    = Legacy.live vs - Legacy.slot_size o + Legacy.slot_size o'.
Proof.
  induction vs as [|x vs IH]; intros [|i] o o' Hi; try discriminate.
  - injection Hi as ->. change (<[0%nat := o']> (o :: vs)) with (o' :: vs).
    change (Legacy.live (?a :: ?l)) with (Legacy.slot_size a + Legacy.live l).
    lia.
  - change (<[S i := o']> (x :: vs)) with (x :: <[i := o']> vs).
    change (Legacy.live (?a :: ?l)) with (Legacy.slot_size a + Legacy.live l).
    rewrite (IH i o o' Hi). lia.
Qed.

Lemma Legacy_counted_exec (c c' : Legacy.cache) (k : Legacy.call) :
  Legacy.counted c -> Legacy.exec c k = Ok c' -> Legacy.counted c'.
Proof.
  unfold Legacy.counted. intros Hc.
  destruct k as [id tim|id p tim|id p tim|t]; cbn [Legacy.exec].
  - unfold Legacy.Get.
    destruct (index (Legacy.vals c) id) as [[e|]|] eqn:Hidx; cbn [bind snd];
      [|congruence|discriminate].
    apply index_inv in Hidx as [_ Hslot].
    intros [= <-]. cbn [Legacy.vals Legacy.mem].
    rewrite (Legacy_live_insert _ _ _ _ Hslot), Hc.
    cbn [Legacy.slot_size Legacy.data]. f_equal. lia.
  - unfold Legacy.Store.
    destruct (index (Legacy.vals c) id) as [[e|]|] eqn:Hidx; cbn [bind];
      [congruence| |discriminate].
    apply index_inv in Hidx as [_ Hslot].
    destruct (assign _ _ _) as [vs|] eqn:Hvs; cbn [bind]; [|discriminate].
    apply assign_inv in Hvs as ->.
    intros [= <-]. cbn [Legacy.vals Legacy.mem].
    rewrite (Legacy_live_insert _ _ _ _ Hslot), Hc.
    cbn [Legacy.slot_size Legacy.data].
    unfold add64. rewrite wrap64_add_l. f_equal. lia.
  - unfold Legacy.Replace.
    destruct (index (Legacy.vals c) id) as [[e|]|] eqn:Hidx; cbn [bind];
      [| |discriminate]; apply index_inv in Hidx as [_ Hslot].
    + intros [= <-]. cbn [Legacy.vals Legacy.mem].
      rewrite (Legacy_live_insert _ _ _ _ Hslot), Hc.
      cbn [Legacy.slot_size Legacy.data].
      unfold add64, sub64. rewrite wrap64_add_l, wrap64_add_r. f_equal. lia.
    + destruct (assign _ _ _) as [vs|] eqn:Hvs; cbn [bind]; [|discriminate].
      apply assign_inv in Hvs as ->.
      intros [= <-]. cbn [Legacy.vals Legacy.mem].
      rewrite (Legacy_live_insert _ _ _ _ Hslot), Hc.
      cbn [Legacy.slot_size Legacy.data].
      unfold add64. rewrite wrap64_add_l. f_equal. lia.
  - intros [= <-]. now apply Legacy_Purge_counted.
Qed.

(** In cache.go, which has no [Remove], the counter is always the sum of
    the sizes of the entries: after [New] and any run of [Get], [Store],
    [Replace] and [Purge] that returns, the counter of the cache is that
    sum, as an [int64]. *)
Theorem Legacy_counter_is_accurate (size megabytes : Z)
  (ks : list Legacy.call) (c c' : Legacy.cache) :
  Legacy.alloc size megabytes = Ok c ->
  Legacy.run c ks = Ok c' ->
  Legacy.counted c'.
Proof.
  intros Halloc.
  assert (Hc : Legacy.counted c).
  { unfold Legacy.alloc in Halloc.
    destruct (makeslice_panics size); [discriminate|].
    injection Halloc as <-. unfold Legacy.counted. cbn [Legacy.vals Legacy.mem].
    induction (Z.to_nat size) as [|n IH]; [reflexivity|exact IH]. }
  clear Halloc. revert c Hc.
  induction ks as [|k ks IH]; intros c Hc; cbn [Legacy.run].
  - congruence.
  - destruct (Legacy.exec c k) as [c1|] eqn:H1; cbn [bind]; [|discriminate].
    apply IH. exact (Legacy_counted_exec _ _ _ Hc H1).
Qed.

Lemma Legacy_counter_is_accurate_witness : Legacy.counted tight_legacy.
Proof.
  refine (Legacy_counter_is_accurate 1 0
            [Legacy.CallStore 0 abc 50; Legacy.CallGet 0 100;
             Legacy.CallPurge 80]
            {| Legacy.vals := [None]; Legacy.mem := 0; Legacy.max := 0 |}
            tight_legacy _ _); reflexivity.
Defined.

(** In cache.go, at an index within the slots: [Store] on an empty slot
    returns the cache with the entry in that slot and the length of the
    payload added to the counter, and a [Get] that follows returns the
    payload with found = true; [Store] on an occupied slot returns the
    cache as it was. *)
Theorem Legacy_Store_once (c : Legacy.cache) (id : Z) (p : list Byte.byte)
  (tim : Z) :
  0 <= id < len (Legacy.vals c) ->
  (Legacy.vals c !! Z.to_nat id = Some None ->
   let e := {| Legacy.lastAccess := tim; Legacy.data := p |} in
   let c' := {| Legacy.vals := <[Z.to_nat id := Some e]> (Legacy.vals c);
                Legacy.mem := add64 (Legacy.mem c) (len p);
                Legacy.max := Legacy.max c |} in
   Legacy.Store c id p tim = Ok c'
   /\ forall tim', exists c'', Legacy.Get c' id tim' = Ok (p, true, c''))
  /\ (forall e, Legacy.vals c !! Z.to_nat id = Some (Some e) ->
      Legacy.Store c id p tim = Ok c).
Proof.
  intros Hid. split.
  - intros Hslot e c'. split.
    + unfold Legacy.Store.
      rewrite (index_Ok _ _ _ (proj1 Hid) Hslot). cbn [bind].
      rewrite assign_Ok by exact Hid. reflexivity.
    + intros tim'. eexists. unfold Legacy.Get. subst c'. cbn [Legacy.vals].
      rewrite (index_Ok _ id (Some e)); [reflexivity|lia|].
      apply list_lookup_insert_eq. unfold len in Hid. lia.
  - intros e Hslot. unfold Legacy.Store.
    rewrite (index_Ok _ _ _ (proj1 Hid) Hslot). reflexivity.
Qed.

Lemma Legacy_Store_once_witness :
  Legacy.Store {| Legacy.vals := [None]; Legacy.mem := 0; Legacy.max := 0 |}
    0 abc 100 = Ok tight_legacy
  /\ Legacy.Store tight_legacy 0 [] 200 = Ok tight_legacy.
Proof.
  split.
  - refine (proj1 (proj1 (Legacy_Store_once
              {| Legacy.vals := [None]; Legacy.mem := 0; Legacy.max := 0 |}
              0 abc 100 _) _)).
    + unfold len. cbn. lia.
    + reflexivity.
  - refine (proj2 (Legacy_Store_once tight_legacy 0 [] 200 _) _ _).
    + unfold len. cbn. lia.
    + reflexivity.
Defined.

(** * Further compositions *)

Lemma Interface_live_insert {V : Type}
  (vs : list (option (Interface.entryInterface V))) :
  forall (i : nat) (o o' : option (Interface.entryInterface V)),
    vs !! i = Some o ->
    Interface.live (<[i := o']> vs)
    = Interface.live vs - Interface.slot_size o + Interface.slot_size o'.
Proof.
  induction vs as [|x vs IH]; intros [|i] o o' Hi; try discriminate.
  - injection Hi as ->. change (<[0%nat := o']> (o :: vs)) with (o' :: vs).
    change (Interface.live (?a :: ?l))
      with (Interface.slot_size a + Interface.live l).
    lia.
  - change (<[S i := o']> (x :: vs)) with (x :: <[i := o']> vs).
    change (Interface.live (?a :: ?l))
      with (Interface.slot_size a + Interface.live l).
    rewrite (IH i o o' Hi). lia.
Qed.

(** [Get] on the cache of opaque values changes nothing but the timestamp
    of the slot it reads: when it returns, the counter, the budget, [size],
    every payload, every recorded size and every other slot are what they
    were. *)
Theorem Interface_Get_only_stamps {V : Type} (c c' : Interface.Interface V)
  (id tim : Z) (r : any V * bool) :
  Interface.Get c id tim = Ok (r, c') ->
  Interface.mem c' = Interface.mem c
  /\ Interface.max c' = Interface.max c
  /\ Interface.size c' = Interface.size c
  /\ fmap (M := list)
       (fmap (M := option)
          (fun e => (Interface.data e, Interface.entry_size e)))
       (Interface.vals c')
     = fmap (M := list)
         (fmap (M := option)
            (fun e => (Interface.data e, Interface.entry_size e)))
         (Interface.vals c)
  /\ Interface.live (Interface.vals c') = Interface.live (Interface.vals c)
  /\ (forall j : nat, j <> Z.to_nat id ->
      Interface.vals c' !! j = Interface.vals c !! j).
Proof.
  unfold Interface.Get. destruct (id >=? Interface.size c).
  { intros [= _ <-]. tauto. }
  unfold index. destruct (id <? 0); [discriminate|].
  destruct (Interface.vals c !! Z.to_nat id) as [[e|]|] eqn:Hslot;
    cbn [bind]; [|intros [= _ <-]; tauto|discriminate].
  intros [= _ <-].
  cbn [Interface.vals Interface.mem Interface.max Interface.size].
  do 3 (split; [reflexivity|]). split; [|split].
  - rewrite list_fmap_insert.
    cbn [fmap option_fmap option_map Interface.data Interface.entry_size].
    apply list_insert_id. rewrite list_lookup_fmap, Hslot. reflexivity.
  - rewrite (Interface_live_insert _ _ _ _ Hslot). cbn. lia.
  - intros j Hj. now apply list_lookup_insert_ne.
Qed.

Lemma Interface_Get_only_stamps_witness :
  let c' := {| Interface.vals :=
                 [Some {| Interface.lastAccess := 500;
                          Interface.data := OfBytes abc;
                          Interface.entry_size := 3 |}];
               Interface.mem := 3; Interface.max := 1024;
               Interface.size := 1 |} in
  Interface.mem c' = Interface.mem one_entry_any
  /\ Interface.max c' = Interface.max one_entry_any
  /\ Interface.size c' = Interface.size one_entry_any
  /\ fmap (M := list)
       (fmap (M := option)
          (fun e => (Interface.data e, Interface.entry_size e)))
       (Interface.vals c')
     = fmap (M := list)
         (fmap (M := option)
            (fun e => (Interface.data e, Interface.entry_size e)))
         (Interface.vals one_entry_any)
  /\ Interface.live (Interface.vals c')
     = Interface.live (Interface.vals one_entry_any)
  /\ (forall j : nat, j <> Z.to_nat 0 ->
      Interface.vals c' !! j = Interface.vals one_entry_any !! j).
Proof.
  intros c'.
  refine (Interface_Get_only_stamps one_entry_any c' 0 500
            (OfBytes abc, true) _).
  reflexivity.
Defined.

(** A slot emptied by [Remove] can be filled again, and the counter then
    counts both payloads: on an empty slot in range of a byte cache,
    [Store(p)], [Remove] and [Store(q)] leave [q] in the slot and the
    counter raised by the lengths of [p] and [q] together. *)
Theorem Remove_then_Store_counts_twice (c : Bytes.Bytes) (id : Z)
  (p q : list Byte.byte) (t1 t2 : Z) :
  Bytes.wf c -> 0 <= id < Bytes.size c ->
  Bytes.vals c !! Z.to_nat id = Some None ->
  (let* c1 := Bytes.Store c id p t1 in
   let* c2 := Bytes.Remove c1 id in
   Bytes.Store c2 id q t2)
  = Ok {| Bytes.vals :=
            <[Z.to_nat id := Some {| Bytes.lastAccess := t2;
                                     Bytes.data := q |}]> (Bytes.vals c);
          Bytes.mem := wrap64 (Bytes.mem c + len p + len q);
          Bytes.max := Bytes.max c;
          Bytes.size := Bytes.size c |}.
Proof.
  intros Hwf Hid Hslot.
  rewrite BytesFacts.bytes_Store_empty by trivial. cbn [bind].
  set (e1 := {| Bytes.lastAccess := t1; Bytes.data := p |}).
  assert (Hwf1 : Bytes.wf {| Bytes.vals := <[Z.to_nat id := Some e1]>
                                             (Bytes.vals c);
                             Bytes.mem := add64 (Bytes.mem c) (len p);
                             Bytes.max := Bytes.max c;
                             Bytes.size := Bytes.size c |})
    by now apply BytesFacts.bytes_wf_insert.
  rewrite BytesFacts.bytes_Remove_in_range by trivial.
  cbn [bind Bytes.vals Bytes.mem Bytes.max Bytes.size].
  rewrite list_insert_insert_eq.
  assert (Hwf2 : Bytes.wf {| Bytes.vals := <[Z.to_nat id := None]>
                                             (Bytes.vals c);
                             Bytes.mem := add64 (Bytes.mem c) (len p);
                             Bytes.max := Bytes.max c;
                             Bytes.size := Bytes.size c |})
    by now apply BytesFacts.bytes_wf_insert.
  rewrite BytesFacts.bytes_Store_empty;
    [|exact Hwf2|exact Hid
     |exact (BytesFacts.bytes_written_slot c id None Hwf Hid)].
  cbn [Bytes.vals Bytes.mem Bytes.max Bytes.size].
  rewrite list_insert_insert_eq. do 2 f_equal.
  unfold add64. apply wrap64_add_l.
Qed.

Lemma Remove_then_Store_counts_twice_witness :
  (let* c1 := Bytes.Store one_slot 0 abc 100 in
   let* c2 := Bytes.Remove c1 0 in
   Bytes.Store c2 0 abc 300)
  = Ok {| Bytes.vals := [Some {| Bytes.lastAccess := 300;
                                 Bytes.data := abc |}];
          Bytes.mem := 6; Bytes.max := 1048576; Bytes.size := 1 |}.
Proof.
  refine (Remove_then_Store_counts_twice one_slot 0 abc abc 100 300 _ _ _).
  - reflexivity.
  - cbn. lia.
  - reflexivity.
Defined.

Lemma Bytes_run_in_range_returns_witness :
  exists c',
    Bytes.run one_slot
      [Bytes.CallStore 0 abc 100; Bytes.CallRemove 0; Bytes.CallPurge 200]
    = Ok c'
    /\ Bytes.wf c'
    /\ Bytes.size c' = Bytes.size one_slot
    /\ Bytes.max c' = Bytes.max one_slot
    /\ (int64 (Bytes.mem one_slot) -> int64 (Bytes.mem c')).
Proof.
  refine (Bytes_run_in_range_returns
            [Bytes.CallStore 0 abc 100; Bytes.CallRemove 0;
             Bytes.CallPurge 200] one_slot _ _).
  - reflexivity.
  - repeat constructor; cbn; lia.
Defined.

Section RoundFacts.

Context {V : Type}.

Lemma rounds_shape (clk : nat -> Z) (n : nat) :
  forall st : nat * World V,
    caches1 (snd (cleaner clk n st)) = caches1 (snd st)
    /\ caches2 (snd (cleaner clk n st)) = caches2 (snd st).
Proof.
  induction n as [|n IH]; intros st; cbn [cleaner]; [split; reflexivity|].
  destruct (IH (cleaner_tick clk st)) as [-> ->].
  destruct (tick_shape clk st) as (-> & -> & _). split; reflexivity.
Qed.

End RoundFacts.

(** A closed cache stays behind as a husk: once [Close] is called through
    the pointer, the cache at that address is the zeroed one after any
    number of rounds of the cleaner, and its address is still in the
    registry. *)
Theorem closed_cache_stays_registered {V : Type} (clk : nat -> Z) (n k : nat)
  (w : World V) (a : nat) (c : Bytes.Bytes) :
  store1 w !! a = Some c -> a ∈ caches1 w ->
  let st' := cleaner clk n (k, close1 w a) in
  store1 (snd st') !! a = Some (Bytes.Close c)
  /\ a ∈ caches1 (snd st').
Proof.
  intros Ha Hin st'. subst st'. split.
  - apply rounds_skip1; [cbn; lia|].
    cbn [snd close1 store1]. rewrite list_lookup_alter_eq, Ha. reflexivity.
  - destruct (rounds_shape clk n (k, close1 w a)) as [-> _]. exact Hin.
Qed.

Lemma closed_cache_stays_registered_witness :
  store1 (snd (cleaner frozen_clock 3 (0%nat, close1 two_caches 0))) !! 0%nat
  = Some (Bytes.Close one_entry)
  /\ 0%nat ∈ caches1 (snd (cleaner frozen_clock 3
                             (0%nat, close1 two_caches 0))).
Proof.
  refine (closed_cache_stays_registered frozen_clock 3 0 two_caches 0
            one_entry _ _).
  - reflexivity.
  - apply list_elem_of_singleton. reflexivity.
Defined.

(** One round of the cleaner settles every registered byte cache whose
    counter is accurate.  If each cache is registered once, then a cache in
    the registry whose counter is the sum of the sizes of its entries,
    whose budget is not negative and whose timestamps are below every
    clock reading plus an hour is within budget after the round. *)
Theorem tick_settles_registered_cache {V : Type} (clk : nat -> Z)
  (st : nat * World V) (a : nat) (c : Bytes.Bytes) :
  NoDup (caches1 (snd st)) -> a ∈ caches1 (snd st) ->
  store1 (snd st) !! a = Some c ->
  Bytes.counted c -> 0 <= Bytes.max c ->
  (forall j : nat,
      Forall (fun o => match o with
                       | Some e => Bytes.lastAccess e < add64 (clk j) 3600
                       | None => True
                       end) (Bytes.vals c)) ->
  exists c',
    store1 (snd (cleaner_tick clk st)) !! a = Some c'
    /\ Bytes.mem c' <= Bytes.max c'.
Proof.
  intros Hnd Hin Ha Hc Hmax Hall.
  destruct (tick_visits1 clk st a c Hnd Hin Ha) as [k' Hk'].
  eexists. split; [exact Hk'|].
  refine (graduated_settles Bytes.mem Bytes.max Bytes.vals
            Bytes.lastAccess Bytes.Purge Bytes_Purge_slots Bytes_Purge_max
            Bytes.counted Bytes_Purge_counted Bytes_counted_empty
            clk stages k' c _ Hc Hmax (Hall _)).
  discriminate.
Qed.

Lemma tick_settles_registered_cache_witness :
  exists c',
    store1 (snd (cleaner_tick frozen_clock
                   (0%nat, {| store1 := [tight_entry]; caches1 := [0%nat];
                              store2 := []; caches2 := [] |} : World unit)))
    !! 0%nat = Some c'
    /\ Bytes.mem c' <= Bytes.max c'.
Proof.
  refine (tick_settles_registered_cache (V := unit) frozen_clock
            (0%nat, {| store1 := [tight_entry]; caches1 := [0%nat];
                       store2 := []; caches2 := [] |} : World unit)
            0%nat tight_entry _ _ _ _ _ _).
  - apply NoDup_singleton.
  - apply list_elem_of_singleton. reflexivity.
  - reflexivity.
  - reflexivity.
  - cbn. lia.
  - intros j. repeat constructor.
Defined.
